(** * The standard ACP runtime adapter (extensions/acp-standard/src/runtime.ts)

    A shallow embedding of [StandardAcpRuntime]: the JSON-RPC transport over
    the child's stdio, the session registry, the turn engine and the
    notification mapper, as an event-driven state machine.  One step of the
    machine is one callback of the JavaScript event loop run to completion,
    followed by the promise reactions it scheduled. *)

From stdpp Require Import base option strings list gmap pretty.

Set Warnings "-register-all".

(** ** JavaScript values

    What [JSON.parse] returns, plus [undefined] (the value of a missing
    property).  JSON numbers are modelled by the integers: the adapter itself
    only produces request ids and the code [-32601].  An object lists each of
    its own keys once, as a parsed object does. *)

Inductive jsval :=
| JUndef
| JNull
| JBool (b : bool)
| JNum (n : Z)
| JStr (s : string)
| JArr (items : list jsval)
| JObj (fields : list (string * jsval)).

Fixpoint assoc (k : string) (fields : list (string * jsval)) : option jsval :=
  match fields with
  | [] => None
  | (k', v) :: rest => if String.eqb k k' then Some v else assoc k rest
  end.

(** [v.k] and [v?.k].  Every plain property access of the source is applied
    to a value already known to be truthy or an object; on a primitive, an
    array or (through [?.]) a nullish value, none of the keys the adapter
    reads exists and the access yields [undefined]. *)
Definition get (v : jsval) (k : string) : jsval :=
  match v with
  | JObj fields => default JUndef (assoc k fields)
  | _ => JUndef
  end.

(** [k in v]; [None] is the [TypeError] the operator throws on a primitive. *)
Definition has (k : string) (v : jsval) : option bool :=
  match v with
  | JObj fields => Some (bool_decide (is_Some (assoc k fields)))
  | JArr _ => Some false
  | _ => None
  end.

(** [!v] is [negb (truthy v)]. *)
Definition truthy (v : jsval) : bool :=
  match v with
  | JUndef | JNull => false
  | JBool b => b
  | JNum n => negb (Z.eqb n 0)
  | JStr s => negb (String.eqb s "")
  | JArr _ | JObj _ => true
  end.

(** [v != null]. *)
Definition non_nullish (v : jsval) : bool :=
  match v with
  | JUndef | JNull => false
  | _ => true
  end.

(** [a ?? b]. *)
Definition nullish (a b : jsval) : jsval :=
  if non_nullish a then a else b.

(** [v === s] for a string literal [s]. *)
Definition is_str (v : jsval) (s : string) : bool :=
  match v with
  | JStr s' => String.eqb s' s
  | _ => false
  end.

(** [String(v)], as a template literal applies it. *)
Fixpoint ToString (v : jsval) : string :=
  match v with
  | JUndef => "undefined"
  | JNull => "null"
  | JBool true => "true"
  | JBool false => "false"
  | JNum n => pretty n
  | JStr s => s
  | JArr items =>
      String.concat ","
        ((fix each (l : list jsval) : list string :=
            match l with
            | [] => []
            | x :: rest =>
                (if non_nullish x then ToString x else "") :: each rest
            end) items)
  | JObj _ => "[object Object]"
  end.

(** *** [JSON.stringify] *)

Definition hex_digit (n : N) : Ascii.ascii :=
  if (n <? 10)%N then Ascii.ascii_of_N (48 + n) else Ascii.ascii_of_N (87 + n).

Definition dquote : Ascii.ascii := Ascii.ascii_of_N 34.

Definition quote_char (c : Ascii.ascii) : string :=
  let n := Ascii.N_of_ascii c in
  if (n =? 34)%N then "\" +:+ String dquote ""
  else if (n =? 92)%N then "\\"
  else if (n =? 8)%N then "\b"
  else if (n =? 9)%N then "\t"
  else if (n =? 10)%N then "\n"
  else if (n =? 12)%N then "\f"
  else if (n =? 13)%N then "\r"
  else if (n <? 32)%N then
    "\u00" +:+ String (hex_digit (n / 16)) (String (hex_digit (n mod 16)) "")
  else String c "".

Fixpoint quote_chars (s : string) : string :=
  match s with
  | EmptyString => ""
  | String c rest => quote_char c +:+ quote_chars rest
  end.

Definition quote (s : string) : string :=
  String dquote (quote_chars s +:+ String dquote "").

Fixpoint JSON_stringify (v : jsval) : string :=
  match v with
  | JUndef | JNull => "null"
  | JBool true => "true"
  | JBool false => "false"
  | JNum n => pretty n
  | JStr s => quote s
  | JArr items =>
      "[" +:+ String.concat ","
        ((fix each (l : list jsval) : list string :=
            match l with
            | [] => []
            | x :: rest => JSON_stringify x :: each rest
            end) items) +:+ "]"
  | JObj fields =>
      "{" +:+ String.concat ","
        ((fix members (l : list (string * jsval)) : list string :=
            match l with
            | [] => []
            | (_, JUndef) :: rest => members rest
            | (k, x) :: rest =>
                (quote k +:+ ":" +:+ JSON_stringify x) :: members rest
            end) fields) +:+ "}"
  end.

(** ** Events of a turn *)

Inductive AcpRuntimeEvent :=
| TextDelta (text : jsval) (stream : string)
| ToolCall (text : jsval)
| Status (text : string)
| Done (stopReason : jsval)
| Error (message : string).

(** [event.type === "done" || event.type === "error"]. *)
Definition terminal (e : AcpRuntimeEvent) : bool :=
  match e with
  | Done _ | Error _ => true
  | _ => false
  end.

(** ** Notification mapper *)

Definition mapNotificationToEvent (params : jsval) : option AcpRuntimeEvent :=
  let update := get params "update" in
  if negb (truthy update) then None
  else
    let kind := get update "sessionUpdate" in
    if is_str kind "agent_message_chunk" then
      let content := get update "content" in
      Some (TextDelta (nullish (get content "text") (JStr "")) "output")
    else if is_str kind "tool_call" then
      Some (ToolCall (nullish (get update "title") (JStr "tool")))
    else if is_str kind "tool_call_update" then
      Some (Status ("tool " +:+ ToString (nullish (get update "toolCallId") (JStr ""))
                      +:+ ": " +:+ ToString (nullish (get update "status") (JStr ""))))
    else None.

(** ** Configuration, handles, errors *)

Record ResolvedStandardAcpConfig := {
  command : string;
  args : list string;
  cfg_cwd : string;
  env : list (string * string);
}.

Definition STANDARD_ACP_BACKEND_ID : string := "acp-standard".

Definition CONTROL_TIMEOUT_MS : Z := 30000.

Definition CONTROL_METHODS : list string :=
  ["initialize"; "session/new"; "session/cancel"; "session/set_mode"].

(** The fields of [AcpRuntimeEnsureInput] the adapter reads ([agent] and
    [mode] are never used). *)
Record AcpRuntimeEnsureInput := {
  sessionKey : string;
  input_cwd : option string;
}.

Record AcpRuntimeHandle := {
  handle_sessionKey : string;
  backend : string;
  runtimeSessionName : jsval;
  handle_cwd : string;
}.

(** The [Error] objects that reach a promise or the generator. *)
Inductive js_error :=
| RpcError (payload : jsval)       (* new Error(JSON.stringify(msg.error)) *)
| TimeoutError (method : string)   (* new Error(`JSON-RPC request timed out: ${method}`) *)
| ExitedError                      (* new Error("agent process exited") *)
| SystemError (message : string)   (* raised by Node: stdin write or spawn failure *)
| AcpRuntimeError (code message : string).

Definition error_message (e : js_error) : string :=
  match e with
  | RpcError payload => JSON_stringify payload
  | TimeoutError method => "JSON-RPC request timed out: " +:+ method
  | ExitedError => "agent process exited"
  | SystemError message => message
  | AcpRuntimeError _ message => message
  end.

Definition error_name (e : js_error) : string :=
  match e with
  | AcpRuntimeError _ _ => "AcpRuntimeError"
  | _ => "Error"
  end.

(** [String(err)], that is [Error.prototype.toString]. *)
Definition String_error (e : js_error) : string :=
  if String.eqb (error_message e) "" then error_name e
  else error_name e +:+ ": " +:+ error_message e.

Inductive outcome :=
| Fulfilled (v : jsval)
| Rejected (e : js_error).

(** ** The transport state of one agent *)

(** The [timer] variable of one [sendRequest] call. *)
Inductive timer :=
| NoTimer                 (* [timeoutMs] was undefined *)
| Armed (ms : Z)          (* [setTimeout] ran and the timer is live *)
| Cleared                 (* [clearTimeout] ran *)
| Fired.                  (* the timeout callback ran *)

(** Who reacts when the promise of a request settles. *)
Inductive waiter :=
| AwaitInitialize (key : string) (input : AcpRuntimeEnsureInput)
| AwaitSessionNew (key : string) (input : AcpRuntimeEnsureInput)
| TurnPrompt (turn : nat)   (* the [then]/[catch] pair of [runTurn] *)
| AbortCancel               (* [cancel] started by [onAbort]; [catch] warns *)
| HostCall.                 (* [cancel] or [setMode] awaited by the host *)

(** The promise one [sendRequest] call returns, with the [timer] its
    closures share. *)
Record request := {
  req_method : string;
  req_timer : timer;
  req_state : option outcome;     (* [None] while the promise is pending *)
  req_waiter : waiter;
}.

(** An entry of [pending]: a [resolve]/[reject] pair, closed over the request
    whose timer it clears and whose promise it settles. *)
Record PendingEntry := { settles : Z }.

(** What is known of the child: how it was spawned, the signals sent to it. *)
Record ChildProcess := {
  spawn_command : string;
  spawn_args : list string;
  spawn_cwd : string;
  signals : list string;
}.

Record AgentProcess := {
  child : ChildProcess;
  stdin : list string;                 (* what was written to [agent.stdin] *)
  sessionId : jsval;
  cwd : string;
  nextId : Z;
  pending : gmap Z PendingEntry;
  notifications : option nat;          (* the turn whose sink is installed *)
  requests : gmap Z request;           (* the promises [sendRequest] returned *)
  agent_key : string;                  (* [key], captured by the handlers *)
}.

Definition set_child (f : ChildProcess → ChildProcess) (a : AgentProcess) :=
  {| child := f (child a); stdin := stdin a; sessionId := sessionId a;
     cwd := cwd a; nextId := nextId a; pending := pending a;
     notifications := notifications a; requests := requests a;
     agent_key := agent_key a |}.

Definition set_stdin (f : list string → list string) (a : AgentProcess) :=
  {| child := child a; stdin := f (stdin a); sessionId := sessionId a;
     cwd := cwd a; nextId := nextId a; pending := pending a;
     notifications := notifications a; requests := requests a;
     agent_key := agent_key a |}.

Definition set_session (sid : jsval) (dir : string) (a : AgentProcess) :=
  {| child := child a; stdin := stdin a; sessionId := sid;
     cwd := dir; nextId := nextId a; pending := pending a;
     notifications := notifications a; requests := requests a;
     agent_key := agent_key a |}.

Definition set_nextId (n : Z) (a : AgentProcess) :=
  {| child := child a; stdin := stdin a; sessionId := sessionId a;
     cwd := cwd a; nextId := n; pending := pending a;
     notifications := notifications a; requests := requests a;
     agent_key := agent_key a |}.

Definition set_pending (f : gmap Z PendingEntry → gmap Z PendingEntry)
    (a : AgentProcess) :=
  {| child := child a; stdin := stdin a; sessionId := sessionId a;
     cwd := cwd a; nextId := nextId a; pending := f (pending a);
     notifications := notifications a; requests := requests a;
     agent_key := agent_key a |}.

Definition set_notifications (n : option nat) (a : AgentProcess) :=
  {| child := child a; stdin := stdin a; sessionId := sessionId a;
     cwd := cwd a; nextId := nextId a; pending := pending a;
     notifications := n; requests := requests a;
     agent_key := agent_key a |}.

Definition set_requests (f : gmap Z request → gmap Z request)
    (a : AgentProcess) :=
  {| child := child a; stdin := stdin a; sessionId := sessionId a;
     cwd := cwd a; nextId := nextId a; pending := pending a;
     notifications := notifications a; requests := f (requests a);
     agent_key := agent_key a |}.

(** [agent.child.kill(sig)]. *)
Definition kill (sig : string) (a : AgentProcess) : AgentProcess :=
  set_child (λ c, {| spawn_command := spawn_command c;
                     spawn_args := spawn_args c; spawn_cwd := spawn_cwd c;
                     signals := signals c ++ [sig] |}) a.

Definition LF : string := String (Ascii.ascii_of_N 10) "".

(** [agent.stdin.write(line + "\n")]. *)
Definition write (line : string) (a : AgentProcess) : AgentProcess :=
  set_stdin (λ l, l ++ [line +:+ LF]) a.

(** A promise settles once: [resolve] and [reject] on a settled promise do
    nothing.  The second component is the reaction to run once the current
    callback has returned. *)
Definition settle (id : Z) (o : outcome) (a : AgentProcess)
    : AgentProcess * list (waiter * outcome) :=
  match requests a !! id with
  | Some r =>
      match req_state r with
      | None =>
          (set_requests
             <[id := {| req_method := req_method r; req_timer := req_timer r;
                        req_state := Some o; req_waiter := req_waiter r |}]> a,
           [(req_waiter r, o)])
      | Some _ => (a, [])
      end
  | None => (a, [])
  end.

(** [if (timer) clearTimeout(timer)]. *)
Definition clear_timer (id : Z) (a : AgentProcess) : AgentProcess :=
  match requests a !! id with
  | Some r =>
      match req_timer r with
      | Armed _ =>
          set_requests
            <[id := {| req_method := req_method r; req_timer := Cleared;
                       req_state := req_state r; req_waiter := req_waiter r |}]> a
      | _ => a
      end
  | None => a
  end.

(** The [resolve] and [reject] members of a pending entry. *)
Definition entry_resolve (p : PendingEntry) (v : jsval) (a : AgentProcess) :=
  settle (settles p) (Fulfilled v) (clear_timer (settles p) a).

Definition entry_reject (p : PendingEntry) (e : js_error) (a : AgentProcess) :=
  settle (settles p) (Rejected e) (clear_timer (settles p) a).

(** [sendRequest(agent, method, params)]; the promise it returns is the
    request stored under the id it allocated, [nextId a]. *)
Definition sendRequest (method : string) (params : jsval) (k : waiter)
    (a : AgentProcess) : AgentProcess :=
  let id := nextId a in
  let msg :=
    JSON_stringify (JObj [("jsonrpc", JStr "2.0"); ("id", JNum id);
                          ("method", JStr method); ("params", params)]) in
  let timeoutMs :=
    if bool_decide (method ∈ CONTROL_METHODS) then Some CONTROL_TIMEOUT_MS
    else None in
  let a := set_nextId (id + 1) a in
  let a :=
    set_requests
      <[id := {| req_method := method;
                 req_timer := match timeoutMs with
                              | Some ms => Armed ms
                              | None => NoTimer
                              end;
                 req_state := None; req_waiter := k |}]> a in
  let a := set_pending <[id := {| settles := id |}]> a in
  write msg a.

(** The timeout callback of request [id]; it can only run while the timer is
    live. *)
Definition on_timeout (id : Z) (a : AgentProcess)
    : AgentProcess * list (waiter * outcome) :=
  match requests a !! id with
  | Some r =>
      match req_timer r with
      | Armed _ =>
          let a :=
            set_requests
              <[id := {| req_method := req_method r; req_timer := Fired;
                         req_state := req_state r;
                         req_waiter := req_waiter r |}]> a in
          let a := set_pending (delete id) a in
          settle id (Rejected (TimeoutError (req_method r))) a
      | _ => (a, [])
      end
  | None => (a, [])
  end.

(** The callback of the [stdin.write] of request [id], called with an error. *)
Definition on_write_error (id : Z) (err : js_error) (a : AgentProcess)
    : AgentProcess * list (waiter * outcome) :=
  match requests a !! id with
  | Some _ =>
      let a := clear_timer id a in
      let a := set_pending (delete id) a in
      settle id (Rejected err) a
  | None => (a, [])
  end.

(** [for (const p of agent.pending.values()) p.reject(err)] followed by
    [agent.pending.clear()]. *)
Definition reject_all (err : js_error) (a : AgentProcess)
    : AgentProcess * list (waiter * outcome) :=
  let '(a, rs) :=
    foldl (λ (acc : AgentProcess * list (waiter * outcome)) kp,
             let '(a', rs') := entry_reject kp.2 err acc.1 in
             (a', acc.2 ++ rs'))
          (a, []) (map_to_list (pending a)) in
  (set_pending (λ _, ∅) a, rs).

(** What the [line] handler does to the agent itself, and the event it hands
    to [agent.notifications], if any. *)
Definition on_line (parsed : option jsval) (a : AgentProcess)
    : AgentProcess * list (waiter * outcome) * option AcpRuntimeEvent :=
  match parsed with
  | None => (a, [], None)                   (* JSON.parse threw *)
  | Some msg =>
      match has "id" msg, has "method" msg, has "error" msg with
      | Some has_id, Some has_method, Some has_error =>
          if has_id && non_nullish (get msg "id") then
            if has_method then
              let errorResponse :=
                JSON_stringify
                  (JObj [("jsonrpc", JStr "2.0"); ("id", get msg "id");
                         ("error",
                          JObj [("code", JNum (-32601));
                                ("message",
                                 JStr "Method not supported by this client")])]) in
              (write errorResponse a, [], None)
            else
              match get msg "id" with
              | JNum id =>
                  match pending a !! id with
                  | Some p =>
                      let a := set_pending (delete id) a in
                      let '(a, rs) :=
                        if has_error then
                          entry_reject p (RpcError (get msg "error")) a
                        else entry_resolve p (get msg "result") a in
                      (a, rs, None)
                  | None => (a, [], None)
                  end
              | _ => (a, [], None)          (* no entry under such a key *)
              end
          else if has_method && is_str (get msg "method") "session/update" then
            let params := get msg "params" in
            if negb (truthy params) then (a, [], None)
            else (a, [], mapNotificationToEvent params)
          else (a, [], None)
      | _, _, _ => (a, [], None)            (* [in] threw on a primitive *)
      end
  end.

(** ** The state of one [runTurn] generator *)

(** Where the generator is suspended. *)
Inductive turn_pc :=
| NotStarted                       (* created, body not entered *)
| PreAbortYield                    (* at the [yield] of the short-circuit *)
| Awaiting                         (* at the [await] of the loop *)
| LoopYield (e : AcpRuntimeEvent)  (* at the [yield event] of the loop *)
| Finished                         (* returned *)
| Threw (e : js_error).            (* ended by an exception *)

Record Turn := {
  turn_handle : AcpRuntimeHandle;
  turn_text : string;
  signal : option bool;            (* [input.signal]: is it aborted *)
  pc : turn_pc;
  turn_agent : option nat;         (* [agent], once resolved *)
  events : list AcpRuntimeEvent;
  done_ : bool;
  on_close : bool;                 (* [onClose] is registered on the child *)
  on_abort : bool;                 (* [onAbort] is registered on the signal *)
  yielded : list AcpRuntimeEvent;  (* what the consumer has been handed *)
  received : list AcpRuntimeEvent; (* history: what the sink was called with *)
}.

Definition new_turn (h : AcpRuntimeHandle) (text : string)
    (sig : option bool) : Turn :=
  {| turn_handle := h; turn_text := text; signal := sig; pc := NotStarted;
     turn_agent := None; events := []; done_ := false; on_close := false;
     on_abort := false; yielded := []; received := [] |}.

Definition set_pc (p : turn_pc) (t : Turn) : Turn :=
  {| turn_handle := turn_handle t; turn_text := turn_text t;
     signal := signal t; pc := p; turn_agent := turn_agent t;
     events := events t; done_ := done_ t; on_close := on_close t;
     on_abort := on_abort t; yielded := yielded t; received := received t |}.

Definition set_signal (s : option bool) (t : Turn) : Turn :=
  {| turn_handle := turn_handle t; turn_text := turn_text t;
     signal := s; pc := pc t; turn_agent := turn_agent t;
     events := events t; done_ := done_ t; on_close := on_close t;
     on_abort := on_abort t; yielded := yielded t; received := received t |}.

Definition set_done (t : Turn) : Turn :=
  {| turn_handle := turn_handle t; turn_text := turn_text t;
     signal := signal t; pc := pc t; turn_agent := turn_agent t;
     events := events t; done_ := true; on_close := on_close t;
     on_abort := on_abort t; yielded := yielded t; received := received t |}.

Definition set_on_abort (b : bool) (t : Turn) : Turn :=
  {| turn_handle := turn_handle t; turn_text := turn_text t;
     signal := signal t; pc := pc t; turn_agent := turn_agent t;
     events := events t; done_ := done_ t; on_close := on_close t;
     on_abort := b; yielded := yielded t; received := received t |}.

(** [events.push(e)]. *)
Definition push (e : AcpRuntimeEvent) (t : Turn) : Turn :=
  {| turn_handle := turn_handle t; turn_text := turn_text t;
     signal := signal t; pc := pc t; turn_agent := turn_agent t;
     events := events t ++ [e]; done_ := done_ t; on_close := on_close t;
     on_abort := on_abort t; yielded := yielded t; received := received t |}.

(** [yield e], handing [e] to the consumer. *)
Definition yield (p : turn_pc) (e : AcpRuntimeEvent) (t : Turn) : Turn :=
  {| turn_handle := turn_handle t; turn_text := turn_text t;
     signal := signal t; pc := p; turn_agent := turn_agent t;
     events := events t; done_ := done_ t; on_close := on_close t;
     on_abort := on_abort t; yielded := yielded t ++ [e];
     received := received t |}.

(** The [finally] block, as far as the turn itself goes: both listeners are
    removed and the generator returns. *)
Definition finally (t : Turn) : Turn :=
  {| turn_handle := turn_handle t; turn_text := turn_text t;
     signal := signal t; pc := Finished; turn_agent := turn_agent t;
     events := events t; done_ := done_ t; on_close := false;
     on_abort := false; yielded := yielded t; received := received t |}.

(** The generator runs from the top of [while (!done)] to its next
    suspension. *)
Definition loop (t : Turn) : Turn :=
  if done_ t then finally t
  else
    match events t with
    | e :: rest =>
        yield (LoopYield e) e
          {| turn_handle := turn_handle t; turn_text := turn_text t;
             signal := signal t; pc := pc t; turn_agent := turn_agent t;
             events := rest; done_ := done_ t; on_close := on_close t;
             on_abort := on_abort t; yielded := yielded t;
             received := received t |}
    | [] => set_pc Awaiting t
    end.

(** [resolveWait?.()]: the generator goes on if it was at the [await]. *)
Definition wake (t : Turn) : Turn :=
  match pc t with
  | Awaiting => loop t
  | _ => t
  end.

(** The sink [runTurn] installs as [agent.notifications]. *)
Definition sink (e : AcpRuntimeEvent) (t : Turn) : Turn :=
  let t := push e t in
  wake {| turn_handle := turn_handle t; turn_text := turn_text t;
          signal := signal t; pc := pc t; turn_agent := turn_agent t;
          events := events t; done_ := done_ t; on_close := on_close t;
          on_abort := on_abort t; yielded := yielded t;
          received := received t ++ [e] |}.

(** [if (!done) { events.push(e); resolveWait?.() }], the body shared by
    [onClose], [onAbort] and the handlers of the prompt promise. *)
Definition push_unless_done (e : AcpRuntimeEvent) (t : Turn) : Turn :=
  if done_ t then t else wake (push e t).

(** [onClose], called for the [close] event of child [ref]. *)
Definition onClose (ref : nat) (t : Turn) : Turn :=
  if on_close t && bool_decide (turn_agent t = Some ref) then
    push_unless_done (Error "agent process exited unexpectedly") t
  else t.

(** The consumer calls [next()] while the generator is at the [yield] of the
    loop: the statement after the [yield], then the loop again. *)
Definition resume (e : AcpRuntimeEvent) (t : Turn) : Turn :=
  loop (if terminal e then set_done t else t).

(** ** The runtime *)

(** How the promise of an [initAgent] call settled. *)
Inductive init_outcome :=
| InitOk (h : AcpRuntimeHandle)
| InitFailed (e : js_error).

Record Runtime := {
  config : ResolvedStandardAcpConfig;
  agents : gmap string nat;        (* the registry: key to agent object *)
  initializing : gmap string nat;  (* key to the promise of the [initAgent]
                                      call that spawned that agent *)
  heap : list AgentProcess;        (* every agent object ever created *)
  inits : gmap nat init_outcome;   (* the settled [initAgent] promises *)
  turns : list Turn;               (* every generator ever created *)
  warnings : list string;          (* [logger.warn] *)
}.

Definition new_runtime (cfg : ResolvedStandardAcpConfig) : Runtime :=
  {| config := cfg; agents := ∅; initializing := ∅; heap := []; inits := ∅;
     turns := []; warnings := [] |}.

Definition set_agents (f : gmap string nat → gmap string nat) (w : Runtime) :=
  {| config := config w; agents := f (agents w);
     initializing := initializing w; heap := heap w; inits := inits w;
     turns := turns w; warnings := warnings w |}.

Definition set_initializing (f : gmap string nat → gmap string nat)
    (w : Runtime) :=
  {| config := config w; agents := agents w;
     initializing := f (initializing w); heap := heap w; inits := inits w;
     turns := turns w; warnings := warnings w |}.

Definition set_heap (f : list AgentProcess → list AgentProcess) (w : Runtime) :=
  {| config := config w; agents := agents w;
     initializing := initializing w; heap := f (heap w); inits := inits w;
     turns := turns w; warnings := warnings w |}.

Definition set_inits (f : gmap nat init_outcome → gmap nat init_outcome)
    (w : Runtime) :=
  {| config := config w; agents := agents w;
     initializing := initializing w; heap := heap w; inits := f (inits w);
     turns := turns w; warnings := warnings w |}.

Definition set_turns (f : list Turn → list Turn) (w : Runtime) :=
  {| config := config w; agents := agents w;
     initializing := initializing w; heap := heap w; inits := inits w;
     turns := f (turns w); warnings := warnings w |}.

Definition warn (line : string) (w : Runtime) :=
  {| config := config w; agents := agents w;
     initializing := initializing w; heap := heap w; inits := inits w;
     turns := turns w; warnings := warnings w ++ [line] |}.

Definition update_agent (ref : nat) (f : AgentProcess → AgentProcess)
    (w : Runtime) : Runtime :=
  set_heap (alter f ref) w.

Definition update_turn (t : nat) (f : Turn → Turn) (w : Runtime) : Runtime :=
  set_turns (alter f t) w.

(** [this.agents.get(key)]: the agent object the registry holds for [key]. *)
Definition lookup_agent (w : Runtime) (key : string)
    : option (nat * AgentProcess) :=
  ref ← agents w !! key; a ← heap w !! ref; Some (ref, a).

(** [input.cwd ?? this.config.cwd]. *)
Definition effectiveCwd (w : Runtime) (input : AcpRuntimeEnsureInput) : string :=
  default (cfg_cwd (config w)) (input_cwd input).

(** [if (this.agents.get(key) === agent) this.agents.delete(key)]. *)
Definition unregister_if_same (key : string) (ref : nat) (w : Runtime) : Runtime :=
  if bool_decide (agents w !! key = Some ref) then set_agents (delete key) w
  else w.

(** *** [spawnAgent], [initAgent], [ensureSession] *)

(** The handle both [ensureSession] and [initAgent] build from an agent. *)
Definition handle_of (key : string) (agent : AgentProcess) (dir : string)
    : AcpRuntimeHandle :=
  {| handle_sessionKey := key;
     backend := STANDARD_ACP_BACKEND_ID;
     runtimeSessionName := nullish (sessionId agent) (JStr key);
     handle_cwd := dir |}.

Definition new_agent (cfg : ResolvedStandardAcpConfig) (key : string)
    : AgentProcess :=
  {| child := {| spawn_command := command cfg;
                 spawn_args := args cfg;
                 spawn_cwd := cfg_cwd cfg;
                 signals := [] |};
     stdin := [];
     sessionId := JNull;
     cwd := cfg_cwd cfg;
     nextId := 1;
     pending := ∅;
     notifications := None;
     requests := ∅;
     agent_key := key |}.

(** The new agent object is the next one of the heap. *)
Definition spawnAgent (key : string) (w : Runtime) : Runtime * nat :=
  (set_heap (λ h, h ++ [new_agent (config w) key]) w, length (heap w)).

Definition initialize_params : jsval :=
  JObj [("protocolVersion", JStr "0.1");
        ("clientInfo",
         JObj [("name", JStr "openclaw"); ("version", JStr "1.0.0")])].

(** [initAgent] up to its first [await]; the promise it returns is named by
    the agent it spawned. *)
Definition initAgent (key : string) (input : AcpRuntimeEnsureInput)
    (w : Runtime) : Runtime * nat :=
  let '(w, agent) := spawnAgent key w in
  let w := set_agents <[key := agent]> w in
  (update_agent agent
     (sendRequest "initialize" initialize_params (AwaitInitialize key input)) w,
   agent).

(** The [catch] block of [initAgent], then the [finally] of the
    [ensureSession] call awaiting it. *)
Definition init_failed (key : string) (agent : nat) (err : js_error)
    (w : Runtime) : Runtime :=
  let w := update_agent agent (kill "SIGTERM") w in
  let w := set_agents (delete key) w in
  let w := set_inits <[agent := InitFailed err]> w in
  set_initializing (delete key) w.

Definition session_new_params (dir : string) : jsval :=
  JObj [("cwd", JStr dir); ("mcpServers", JArr [])].

(** [initAgent] after [initialize] was answered. *)
Definition init_session_new (key : string) (input : AcpRuntimeEnsureInput)
    (agent : nat) (w : Runtime) : Runtime :=
  update_agent agent
    (sendRequest "session/new" (session_new_params (effectiveCwd w input))
       (AwaitSessionNew key input)) w.

(** [initAgent] after [session/new] was answered, then the [finally] of
    [ensureSession]. *)
Definition init_done (key : string) (input : AcpRuntimeEnsureInput)
    (agent : nat) (sessionResult : jsval) (w : Runtime) : Runtime :=
  let sid := nullish (get sessionResult "sessionId") (JStr key) in
  let w := update_agent agent (set_session sid (effectiveCwd w input)) w in
  let h := {| handle_sessionKey := key;
              backend := STANDARD_ACP_BACKEND_ID;
              runtimeSessionName := nullish sid (JStr key);
              handle_cwd := effectiveCwd w input |} in
  let w := set_inits <[agent := InitOk h]> w in
  set_initializing (delete key) w.

(** What an [ensureSession] call hands back: a handle at once, or the promise
    of an [initAgent] call. *)
Inductive ensure_return :=
| ReturnsHandle (h : AcpRuntimeHandle)
| ReturnsPromise (p : nat).

Definition fresh_init (key : string) (input : AcpRuntimeEnsureInput)
    (w : Runtime) : Runtime * ensure_return :=
  let '(w, promise) := initAgent key input w in
  (set_initializing <[key := promise]> w, ReturnsPromise promise).

Definition ensureSession (input : AcpRuntimeEnsureInput) (w : Runtime)
    : Runtime * ensure_return :=
  let key := sessionKey input in
  match initializing w !! key with
  | Some inflight => (w, ReturnsPromise inflight)
  | None =>
      match lookup_agent w key with
      | Some (ref, agent) =>
          if bool_decide (cwd agent ≠ effectiveCwd w input) then
            let w := update_agent ref (kill "SIGTERM") w in
            let w := set_agents (delete key) w in
            fresh_init key input w
          else (w, ReturnsHandle (handle_of key agent (effectiveCwd w input)))
      | None => fresh_init key input w
      end
  end.

(** *** [cancel], [setMode], [close], [closeAll] *)

(** [cancel] up to its [await]; [k] tells who awaits the request. *)
Definition cancel (h : AcpRuntimeHandle) (k : waiter) (w : Runtime) : Runtime :=
  match lookup_agent w (handle_sessionKey h) with
  | Some (ref, agent) =>
      update_agent ref
        (sendRequest "session/cancel" (JObj [("sessionId", sessionId agent)]) k) w
  | None => w
  end.

Definition setMode (h : AcpRuntimeHandle) (mode : string) (w : Runtime) : Runtime :=
  match lookup_agent w (handle_sessionKey h) with
  | Some (ref, agent) =>
      update_agent ref
        (sendRequest "session/set_mode"
           (JObj [("sessionId", sessionId agent); ("modeId", JStr mode)])
           HostCall) w
  | None => w
  end.

Definition close (h : AcpRuntimeHandle) (w : Runtime) : Runtime :=
  match lookup_agent w (handle_sessionKey h) with
  | Some (ref, _) =>
      set_agents (delete (handle_sessionKey h))
        (update_agent ref (kill "SIGTERM") w)
  | None => w
  end.

Definition closeAll (w : Runtime) : Runtime :=
  set_agents (λ _, ∅)
    (map_fold (λ _ ref w, update_agent ref (kill "SIGTERM") w) w (agents w)).

(** *** Promise reactions *)

(** The continuation of whoever awaits a request of agent [agent], run once
    its promise has settled with [o]. *)
Definition react (agent : nat) (k : waiter) (o : outcome) (w : Runtime) : Runtime :=
  match k, o with
  | AwaitInitialize key input, Fulfilled _ => init_session_new key input agent w
  | AwaitInitialize key input, Rejected err => init_failed key agent err w
  | AwaitSessionNew key input, Fulfilled r => init_done key input agent r w
  | AwaitSessionNew key input, Rejected err => init_failed key agent err w
  | TurnPrompt t, Fulfilled result =>
      update_turn t
        (push_unless_done
           (Done (nullish (get result "stopReason") (JStr "end_turn")))) w
  | TurnPrompt t, Rejected err =>
      update_turn t (push_unless_done (Error (String_error err))) w
  | AbortCancel, Rejected err =>
      warn ("[acp-standard] cancel failed during abort: " +:+ String_error err) w
  | AbortCancel, Fulfilled _ => w
  | HostCall, _ => w
  end.

Definition run_reactions (agent : nat) (rs : list (waiter * outcome))
    (w : Runtime) : Runtime :=
  foldl (λ w r, react agent r.1 r.2 w) w rs.

(** *** Callbacks of the child process *)

(** The [line] handler of agent [ref]; [parsed] is what [JSON.parse] made of
    the line, [None] when it threw. *)
Definition stdout_line (ref : nat) (parsed : option jsval) (w : Runtime) : Runtime :=
  match heap w !! ref with
  | Some a =>
      let '(a', rs, ev) := on_line parsed a in
      let w := update_agent ref (λ _, a') w in
      let w :=
        match ev, notifications a with
        | Some e, Some t => update_turn t (sink e) w
        | _, _ => w
        end in
      run_reactions ref rs w
  | None => w
  end.

Definition timeout (ref : nat) (id : Z) (w : Runtime) : Runtime :=
  match heap w !! ref with
  | Some a =>
      let '(a', rs) := on_timeout id a in
      run_reactions ref rs (update_agent ref (λ _, a') w)
  | None => w
  end.

Definition write_error (ref : nat) (id : Z) (err : string) (w : Runtime) : Runtime :=
  match heap w !! ref with
  | Some a =>
      let '(a', rs) := on_write_error id (SystemError err) a in
      run_reactions ref rs (update_agent ref (λ _, a') w)
  | None => w
  end.

(** The [close] event of child [ref]: the handler [spawnAgent] registered,
    then the [onClose] listeners of the turns, then the reactions. *)
Definition child_close (ref : nat) (w : Runtime) : Runtime :=
  match heap w !! ref with
  | Some a =>
      let '(a', rs) := reject_all ExitedError a in
      let w := update_agent ref (λ _, a') w in
      let w := unregister_if_same (agent_key a) ref w in
      let w := set_turns (fmap (onClose ref)) w in
      run_reactions ref rs w
  | None => w
  end.

(** The [error] event of child [ref]. *)
Definition child_error (ref : nat) (err : string) (w : Runtime) : Runtime :=
  match heap w !! ref with
  | Some a =>
      let w :=
        warn ("[acp-standard:" +:+ agent_key a +:+ "] spawn error: " +:+ err) w in
      let '(a', rs) := reject_all (SystemError err) a in
      let w := update_agent ref (λ _, a') w in
      let w := unregister_if_same (agent_key a) ref w in
      run_reactions ref rs w
  | None => w
  end.

(** *** [runTurn] *)

(** What the start of [runTurn] does to the turn itself: [agent] is
    resolved, the buffer is empty, [done] is false, the sink is new and both
    listeners are registered. *)
Definition begin (ref : nat) (t : Turn) : Turn :=
  {| turn_handle := turn_handle t; turn_text := turn_text t;
     signal := signal t; pc := pc t; turn_agent := Some ref;
     events := []; done_ := false; on_close := true;
     on_abort := bool_decide (is_Some (signal t));
     yielded := yielded t; received := [] |}.

(** The body of [runTurn] from its entry to its first suspension. *)
Definition runTurn_start (i : nat) (t : Turn) (w : Runtime) : Runtime :=
  match signal t with
  | Some true =>
      update_turn i (yield PreAbortYield (Done (JStr "cancelled"))) w
  | _ =>
      match lookup_agent w (handle_sessionKey (turn_handle t)) with
      | None =>
          update_turn i
            (set_pc (Threw (AcpRuntimeError "ACP_TURN_FAILED"
                              "No agent process for session."))) w
      | Some (ref, agent) =>
          let w := update_agent ref (set_notifications (Some i)) w in
          let w := update_turn i (begin ref) w in
          let w :=
            update_agent ref
              (sendRequest "session/prompt"
                 (JObj [("sessionId", sessionId agent);
                        ("prompt",
                         JArr [JObj [("type", JStr "text");
                                     ("text", JStr (turn_text t))]])])
                 (TurnPrompt i)) w in
          update_turn i loop w
      end
  end.

(** The consumer calls [next()] on generator [i]. *)
Definition next (i : nat) (w : Runtime) : Runtime :=
  match turns w !! i with
  | Some t =>
      match pc t with
      | NotStarted => runTurn_start i t w
      | PreAbortYield => update_turn i (set_pc Finished) w
      | LoopYield e =>
          let t' := resume e t in
          let w := update_turn i (λ _, t') w in
          match pc t', turn_agent t' with
          | Finished, Some ref => update_agent ref (set_notifications None) w
          | _, _ => w
          end
      | Awaiting | Finished | Threw _ => w
      end
  | None => w
  end.

(** The signal handed to turn [i] aborts; [onAbort] runs if it is
    registered. *)
Definition abort (i : nat) (w : Runtime) : Runtime :=
  match turns w !! i with
  | Some t =>
      match signal t with
      | Some false =>
          let w := update_turn i (set_signal (Some true)) w in
          if on_abort t then
            let w := update_turn i (set_on_abort false) w in
            let w := cancel (turn_handle t) AbortCancel w in
            update_turn i (push_unless_done (Done (JStr "cancelled"))) w
          else w
      | _ => w
      end
  | None => w
  end.

(** ** The event loop *)

Inductive event :=
| CallEnsureSession (input : AcpRuntimeEnsureInput)
| CallRunTurn (h : AcpRuntimeHandle) (text : string) (sig : option bool)
| CallNext (turn : nat)
| CallCancel (h : AcpRuntimeHandle)
| CallSetMode (h : AcpRuntimeHandle) (mode : string)
| CallClose (h : AcpRuntimeHandle)
| CallCloseAll
| SignalAbort (turn : nat)
| StdoutLine (agent : nat) (parsed : option jsval)
| TimerExpired (agent : nat) (id : Z)
| WriteFailed (agent : nat) (id : Z) (err : string)
| ChildClose (agent : nat)
| ChildError (agent : nat) (err : string).

Definition step (w : Runtime) (ev : event) : Runtime :=
  match ev with
  | CallEnsureSession input => (ensureSession input w).1
  | CallRunTurn h text sig => set_turns (λ l, l ++ [new_turn h text sig]) w
  | CallNext i => next i w
  | CallCancel h => cancel h HostCall w
  | CallSetMode h mode => setMode h mode w
  | CallClose h => close h w
  | CallCloseAll => closeAll w
  | SignalAbort i => abort i w
  | StdoutLine ref parsed => stdout_line ref parsed w
  | TimerExpired ref id => timeout ref id w
  | WriteFailed ref id err => write_error ref id err w
  | ChildClose ref => child_close ref w
  | ChildError ref err => child_error ref err w
  end.

Definition run (w : Runtime) (tr : list event) : Runtime := foldl step w tr.

(** ** Vocabulary of the specification *)




(** Claim C5 at state [w] and input [input]: whenever the registry holds an
    agent for the key, an equal cwd returns the handle of that agent and
    leaves everything as it was, and a different cwd sends SIGTERM to the
    child, drops the agent from the registry and starts a fresh
    initialization. *)
Definition existing_session_claim (w : Runtime) (input : AcpRuntimeEnsureInput)
    : Prop :=
  ∀ ref agent,
    lookup_agent w (sessionKey input) = Some (ref, agent) →
    (cwd agent = effectiveCwd w input →
       ensureSession input w =
         (w, ReturnsHandle (handle_of (sessionKey input) agent
                              (effectiveCwd w input)))) ∧
    (cwd agent ≠ effectiveCwd w input →
       ∃ w',
         ensureSession input w = (w', ReturnsPromise (length (heap w))) ∧
         heap w' !! ref = Some (kill "SIGTERM" agent) ∧
         agents w' !! sessionKey input = Some (length (heap w)) ∧
         initializing w' !! sessionKey input = Some (length (heap w)) ∧
         heap w' !! length (heap w) =
           Some (sendRequest "initialize" initialize_params
                   (AwaitInitialize (sessionKey input) input)
                   (new_agent (config w) (sessionKey input)))).

(** Claim C8 at state [w] and input [input]: the child of a fresh
    initialization is spawned in the effective cwd, and once the handshake
    has completed the recorded cwd is the one the child was spawned in. *)
Definition spawned_in_effective_cwd (w : Runtime) (input : AcpRuntimeEnsureInput)
    : Prop :=
  let key := sessionKey input in
  let p := length (heap w) in
  let w1 := (fresh_init key input w).1 in
  (∀ a, heap w1 !! p = Some a → spawn_cwd (child a) = effectiveCwd w input) ∧
  (∀ sessionResult a,
     heap (init_done key input p sessionResult
             (init_session_new key input p w1)) !! p = Some a →
     cwd a = spawn_cwd (child a)).

(** A JSON-RPC response line, parsed. *)
Definition response (id : Z) (result : jsval) : option jsval :=
  Some (JObj [("jsonrpc", JStr "2.0"); ("id", JNum id); ("result", result)]).

Definition error_response (id : Z) (err : jsval) : option jsval :=
  Some (JObj [("jsonrpc", JStr "2.0"); ("id", JNum id); ("error", err)]).




(** A configuration and inputs for the examples. *)
Definition example_config : ResolvedStandardAcpConfig :=
  {| command := "kiro-cli"; args := ["acp"]; cfg_cwd := "/work"; env := [] |}.

Definition example_input : AcpRuntimeEnsureInput :=
  {| sessionKey := "s1"; input_cwd := None |}.

Definition example_input_other_cwd : AcpRuntimeEnsureInput :=
  {| sessionKey := "s1"; input_cwd := Some "/elsewhere" |}.

Definition example_handle : AcpRuntimeHandle :=
  {| handle_sessionKey := "s1"; backend := STANDARD_ACP_BACKEND_ID;
     runtimeSessionName := JStr "mock-session-1"; handle_cwd := "/work" |}.

(** The handshake of the scripted agent of the test suite. *)
Definition example_handshake (input : AcpRuntimeEnsureInput) : list event :=
  [CallEnsureSession input;
   StdoutLine 0 (response 1 (JObj [("protocolVersion", JNum 1)]));
   StdoutLine 0 (response 2 (JObj [("sessionId", JStr "mock-session-1")]))].

(** *** Invariants and frames of the transport *)

(** What holds of every agent object a run can build: ids handed out are
    below [nextId], a pending entry sits under the id of the request it
    settles, and a request carries a timer exactly when its method is a
    control method. *)
Definition agent_wf (a : AgentProcess) : Prop :=
  (∀ id p, pending a !! id = Some p →
     settles p = id ∧ is_Some (requests a !! id)) ∧
  (∀ id r, requests a !! id = Some r →
     (id < nextId a)%Z ∧
     (req_timer r = NoTimer ↔ req_method r ∉ CONTROL_METHODS)).

(** The operations on an agent that neither settle a promise nor remove a
    pending entry. *)
Inductive benign : AgentProcess → AgentProcess → Prop :=
| benign_kill sig a : benign a (kill sig a)
| benign_send method params k a : benign a (sendRequest method params k a)
| benign_session sid dir a : benign a (set_session sid dir a)
| benign_notifications n a : benign a (set_notifications n a).

(** What the callback of event [ev] does to agent [ref] before anything
    else happens. *)
Definition transport_effect (ev : event) (ref : nat) (a : AgentProcess)
    : AgentProcess :=
  match ev with
  | StdoutLine r parsed =>
      if bool_decide (r = ref) then (on_line parsed a).1.1 else a
  | TimerExpired r id =>
      if bool_decide (r = ref) then (on_timeout id a).1 else a
  | WriteFailed r id err =>
      if bool_decide (r = ref) then (on_write_error id (SystemError err) a).1
      else a
  | ChildClose r =>
      if bool_decide (r = ref) then (reject_all ExitedError a).1 else a
  | ChildError r err =>
      if bool_decide (r = ref) then (reject_all (SystemError err) a).1 else a
  | _ => a
  end.

(** How a request may differ after [settle], [clear_timer] or the firing of
    its timer. *)
Definition request_le (r r' : request) : Prop :=
  req_method r' = req_method r ∧
  req_waiter r' = req_waiter r ∧
  (∀ o, req_state r = Some o → req_state r' = Some o) ∧
  (req_timer r' = NoTimer ↔ req_timer r = NoTimer).

(** The requests of [b] are those of [a], each possibly further along. *)
Definition requests_le (a b : AgentProcess) : Prop :=
  ∀ id, option_Forall2 request_le (requests a !! id) (requests b !! id).

(** How an agent object may differ from an earlier state of itself: ids
    only grow, the entries of ids already handed out can only go away, and
    a request, once made, stays and only moves forward. *)
Definition agent_le (a b : AgentProcess) : Prop :=
  (nextId a ≤ nextId b)%Z ∧
  (∀ id, (id < nextId a)%Z →
     pending b !! id = None ∨ pending b !! id = pending a !! id) ∧
  (∀ id r, requests a !! id = Some r →
     ∃ r', requests b !! id = Some r' ∧ request_le r r') ∧
  spawn_cwd (child b) = spawn_cwd (child a) ∧
  agent_key b = agent_key a.

(** How the callbacks of the transport change an agent object: no id is
    handed out, entries only go away, requests only move forward. *)
Definition transport_le (a b : AgentProcess) : Prop :=
  nextId b = nextId a ∧
  (∀ id, pending b !! id = None ∨ pending b !! id = pending a !! id) ∧
  requests_le a b ∧
  spawn_cwd (child b) = spawn_cwd (child a) ∧
  agent_key b = agent_key a.

(** What [benign] operations leave as it was. *)
Definition frame (a b : AgentProcess) : Prop :=
  ∀ id, (id < nextId a)%Z →
    pending b !! id = pending a !! id ∧ requests b !! id = requests a !! id.

(** How one step of the event loop changes the heap: an agent object that
    was there has gone through the callback [E] of the event and then
    through benign operations; one that was not is a new agent gone through
    benign operations.  Nothing ever leaves the heap, the configuration
    never changes. *)
Definition evolves (E : nat → AgentProcess → AgentProcess) (w w' : Runtime)
    : Prop :=
  config w' = config w ∧
  length (heap w) ≤ length (heap w') ∧
  ∀ ref a', heap w' !! ref = Some a' →
    match heap w !! ref with
    | Some a => rtc benign (E ref a) a'
    | None => ∃ key, rtc benign (new_agent (config w) key) a'
    end.

(** *** Removal and settlement along a run *)

(** Is [msg] a response (a non-null [id], no [method]) whose [id] is the
    number [id]? *)
Definition is_response_for (msg : jsval) (id : Z) : bool :=
  match has "id" msg, has "method" msg, get msg "id" with
  | Some true, Some false, JNum n => bool_decide (n = id)
  | _, _, _ => false
  end.

(** The events whose callback can take entry [id] out of the pending map of
    agent [ref], or settle its promise: a response carrying the id, the
    timeout of the request, an error of its write, the [close] event and the
    [error] event of the child. *)
Definition trigger (ev : event) (ref : nat) (id : Z) : bool :=
  match ev with
  | StdoutLine r (Some msg) => bool_decide (r = ref) && is_response_for msg id
  | TimerExpired r i => bool_decide (r = ref) && bool_decide (i = id)
  | WriteFailed r i _ => bool_decide (r = ref) && bool_decide (i = id)
  | ChildClose r => bool_decide (r = ref)
  | ChildError r _ => bool_decide (r = ref)
  | _ => false
  end.

(** The four triggers claim C9 lists: the [error] event is not among them. *)
Definition listed_trigger (ev : event) (ref : nat) (id : Z) : bool :=
  match ev with
  | ChildError _ _ => false
  | _ => trigger ev ref id
  end.

(** The triggers of a request that carries no timer. *)
Definition untimed_trigger (ev : event) (ref : nat) (id : Z) : bool :=
  match ev with
  | TimerExpired _ _ => false
  | _ => trigger ev ref id
  end.

(** The three settlers claim C7 lists for a request without a timer: a
    response, an error of its stdin write, the exit of the process (the
    [close] event of the child).  The [error] event is not among them. *)
Definition listed_untimed_trigger (ev : event) (ref : nat) (id : Z) : bool :=
  match ev with
  | TimerExpired _ _ | ChildError _ _ => false
  | _ => trigger ev ref id
  end.

(** The part of claim C7 on requests without a timer, for a set of
    triggers: in the state the run [tr] of a new runtime reaches, an event
    that is none of the triggers of a request of a method outside the
    control methods leaves its pending entry and its promise as they
    were. *)
Definition untimed_settled_only_by (triggers : event → nat → Z → bool)
    (cfg : ResolvedStandardAcpConfig) (tr : list event) : Prop :=
  ∀ ev ref b b' i r,
    heap (run (new_runtime cfg) tr) !! ref = Some b →
    requests b !! i = Some r →
    req_method r ∉ CONTROL_METHODS →
    triggers ev ref i = false →
    heap (step (run (new_runtime cfg) tr) ev) !! ref = Some b' →
    pending b' !! i = pending b !! i ∧ requests b' !! i = requests b !! i.

(** Is entry [id] in the pending map of agent [ref]? *)
Definition is_present (w : Runtime) (ref : nat) (id : Z) : bool :=
  match heap w !! ref with
  | Some a => bool_decide (is_Some (pending a !! id))
  | None => false
  end.

(** Does event [ev], at state [w], take the entry out? *)
Definition removed_at (w : Runtime) (ev : event) (ref : nat) (id : Z) : bool :=
  is_present w ref id && negb (is_present (step w ev) ref id).

(** How many steps of the run [tr] from [w] take the entry out. *)
Fixpoint removals (ref : nat) (id : Z) (w : Runtime) (tr : list event) : nat :=
  match tr with
  | [] => 0
  | ev :: tr' =>
      (if removed_at w ev ref id then 1 else 0) + removals ref id (step w ev) tr'
  end.

(** How the promise of request [id] of agent [ref] has settled, if it has. *)
Definition settled (w : Runtime) (ref : nat) (id : Z) : option outcome :=
  a ← heap w !! ref; r ← requests a !! id; req_state r.

(** The part of claim C9 on what removes an entry, for a set of triggers:
    along the run [tr] of a new runtime, every step that takes an entry out
    of a pending map is one of the triggers of that entry. *)
Definition removed_only_by (triggers : event → nat → Z → bool)
    (cfg : ResolvedStandardAcpConfig) (tr : list event) : Prop :=
  ∀ tr1 ev tr2 ref id,
    tr = tr1 ++ ev :: tr2 →
    removed_at (run (new_runtime cfg) tr1) ev ref id = true →
    triggers ev ref id = true.

(** Every agent object of the heap is well formed. *)
Definition heap_wf (w : Runtime) : Prop :=
  ∀ ref a, heap w !! ref = Some a → agent_wf a.

(** Entry [id] of agent [ref] was handed out and is no longer pending. *)
Definition gone (w : Runtime) (ref : nat) (id : Z) : Prop :=
  ∃ a, heap w !! ref = Some a ∧ (id < nextId a)%Z ∧ pending a !! id = None.

(** *** Invariants of a turn *)

Definition nonterminal (e : AcpRuntimeEvent) : Prop := terminal e = false.

(** What the event loop can do to the state of one generator. *)
Inductive turn_op : Turn → Turn → Prop :=
| op_sink e t : nonterminal e → turn_op t (sink e t)
| op_push e t : terminal e = true → turn_op t (push_unless_done e t)
| op_signal t : turn_op t (set_signal (Some true) t)
| op_once t : signal t = Some true → turn_op t (set_on_abort false t)
| op_short_circuit t :
    pc t = NotStarted →
    turn_op t (yield PreAbortYield (Done (JStr "cancelled")) t)
| op_throw t :
    pc t = NotStarted →
    turn_op t (set_pc (Threw (AcpRuntimeError "ACP_TURN_FAILED"
                                "No agent process for session.")) t)
| op_begin ref t : pc t = NotStarted → turn_op t (loop (begin ref t))
| op_return t : pc t = PreAbortYield → turn_op t (set_pc Finished t)
| op_resume e t : pc t = LoopYield e → turn_op t (resume e t).

(** While the generator is in its loop both listeners are registered, the
    one of the signal until it has fired. *)
Definition listening (t : Turn) : Prop :=
  is_Some (turn_agent t) ∧ on_close t = true ∧
  (signal t = Some false → on_abort t = true).

(** What holds of every generator of a run. *)
Definition turn_inv (t : Turn) : Prop :=
  (turn_agent t ≠ None →
     filter nonterminal (yielded t ++ events t) = received t) ∧
  (turn_agent t = None → length (yielded t) ≤ 1) ∧
  match pc t with
  | NotStarted => yielded t = [] ∧ turn_agent t = None
  | PreAbortYield => yielded t = [Done (JStr "cancelled")]
  | Awaiting =>
      events t = [] ∧ done_ t = false ∧ Forall nonterminal (yielded t) ∧
      listening t
  | LoopYield e =>
      done_ t = false ∧ listening t ∧
      ∃ pre, yielded t = pre ++ [e] ∧ Forall nonterminal pre
  | Finished =>
      ∃ pre e, yielded t = pre ++ [e] ∧ terminal e = true ∧
               Forall nonterminal pre
  | Threw e =>
      yielded t = [] ∧
      e = AcpRuntimeError "ACP_TURN_FAILED" "No agent process for session."
  end.

(** The sequence a generator has yielded is events of the notification
    mapper, in the order the sink received them, then one terminal event. *)
Definition one_terminal_last (t : Turn) : Prop :=
  ∃ pre e,
    yielded t = pre ++ [e] ∧ terminal e = true ∧
    Forall nonterminal pre ∧ pre `prefix_of` received t.

(** The generator has ended: it returned or it threw. *)
Definition ended (t : Turn) : Prop :=
  pc t = Finished ∨ ∃ e, pc t = Threw e.

(** Claim C1 along the run [tr] of a new runtime: every generator that has
    ended has yielded exactly one terminal event, last. *)
Definition every_turn_ends_with_a_terminal
    (cfg : ResolvedStandardAcpConfig) (tr : list event) : Prop :=
  ∀ i t, turns (run (new_runtime cfg) tr) !! i = Some t →
         ended t → one_terminal_last t.

(** How one step of the event loop changes the generators: those that were
    there went through operations, the others are new. *)
Definition turns_evolve (w w' : Runtime) : Prop :=
  ∀ i t', turns w' !! i = Some t' →
    match turns w !! i with
    | Some t => rtc turn_op t t'
    | None => ∃ h text sig, t' = new_turn h text sig
    end.

(** An event that creates no generator moves each generator through
    operations. *)
Definition turns_move (w w' : Runtime) : Prop :=
  ∀ i, option_Forall2 (rtc turn_op) (turns w !! i) (turns w' !! i).

(** What a [next()] of the consumer does to a generator that has entered its
    loop. *)
Definition pull (t : Turn) : Turn :=
  match pc t with
  | LoopYield e => resume e t
  | _ => t
  end.

(** The generator is in its loop. *)
Definition running (t : Turn) : Prop :=
  pc t = Awaiting ∨ ∃ e, pc t = LoopYield e.

(** A terminal event has reached the buffer or the consumer: the generator
    has returned, or it is at a [yield] with a terminal event in hand or
    further down the buffer. *)
Definition closing (t : Turn) : Prop :=
  pc t = Finished ∨
  ∃ e, pc t = LoopYield e ∧
       (terminal e = true ∨ Exists (λ x, terminal x = true) (events t)).

(** The run in which the agent has exited before the turn starts. *)
Definition example_turn_after_exit : list event :=
  example_handshake example_input ++
  [ChildClose 0; CallRunTurn example_handle "hi" None; CallNext 0].

(** The run of the first end-to-end scenario: one chunk, then the answer to
    the prompt. *)
Definition example_happy_turn : list event :=
  example_handshake example_input ++
  [CallRunTurn example_handle "hi" None; CallNext 0;
   StdoutLine 0
     (Some (JObj [("jsonrpc", JStr "2.0"); ("method", JStr "session/update");
                  ("params",
                   JObj [("update",
                          JObj [("sessionUpdate", JStr "agent_message_chunk");
                                ("content",
                                 JObj [("type", JStr "text");
                                       ("text", JStr "hello")])])])]));
   StdoutLine 0 (response 3 (JObj [("stopReason", JStr "end_turn")]));
   CallNext 0; CallNext 0].

(** *** The registry and the initializations in flight *)

(** The key of the initialization a request belongs to. *)
Definition init_key (k : waiter) : option string :=
  match k with
  | AwaitInitialize key _ | AwaitSessionNew key _ => Some key
  | _ => None
  end.

(** Request [id] of the agent is a handshake request for [key] and its
    promise is pending. *)
Definition unsettled_init (a : AgentProcess) (id : Z) (key : string) : Prop :=
  ∃ r, requests a !! id = Some r ∧ req_state r = None ∧
       init_key (req_waiter r) = Some key.

(** While an agent is in its handshake for a key, the in-flight map holds
    the agent under that key, the registry holds this agent or none under
    it, and the agent awaits one handshake request only. *)
Definition registry_inv (w : Runtime) : Prop :=
  ∀ ref a id key,
    heap w !! ref = Some a → unsettled_init a id key →
    initializing w !! key = Some ref ∧
    (agents w !! key = None ∨ agents w !! key = Some ref) ∧
    (∀ id' key', unsettled_init a id' key' → id' = id).

(** A change of the runtime that starts no handshake request and adds
    nothing to the registry. *)
Definition neutral (w w' : Runtime) : Prop :=
  initializing w' = initializing w ∧
  (∀ key, agents w' !! key = agents w !! key ∨ agents w' !! key = None) ∧
  (∀ ref a', heap w' !! ref = Some a' →
     ∃ a, heap w !! ref = Some a ∧
          ∀ id key, unsettled_init a' id key → unsettled_init a id key).

(** The reactions a callback scheduled answer requests that were pending
    before it ran and are settled after. *)
Definition reacts_to (a a' : AgentProcess) (rs : list (waiter * outcome)) : Prop :=
  ∀ k o, (k, o) ∈ rs →
    ∃ id r r', requests a !! id = Some r ∧ req_state r = None ∧
               req_waiter r = k ∧
               requests a' !! id = Some r' ∧ req_state r' = Some o.

(** The error the handler of a child event rejects the pending requests
    with. *)
Definition exit_error (ev : event) : js_error :=
  match ev with
  | ChildError _ err => SystemError err
  | _ => ExitedError
  end.

(** Agent [ref] awaits no handshake request. *)
Definition no_init (w : Runtime) (ref : nat) : Prop :=
  ∀ a id key, heap w !! ref = Some a → ¬ unsettled_init a id key.

(** What a reaction of agent [ref] may rely on when it belongs to a
    handshake: the agent awaits no other handshake request, the registry
    holds it or nothing under the key, and the in-flight map still holds it,
    unless an earlier rejection of the same batch has ended the handshake. *)
Definition reaction_ready (w : Runtime) (ref : nat) (k : waiter) (o : outcome)
    : Prop :=
  ∀ key, init_key k = Some key →
    no_init w ref ∧
    (agents w !! key = None ∨ agents w !! key = Some ref) ∧
    (initializing w !! key = Some ref ∨
     (initializing w !! key = None ∧ ∃ err, o = Rejected err)).

(** The state of the promise of request [id]: [None] when the agent never
    sent such a request, [Some None] while the promise is unsettled. *)
Definition request_state (a : AgentProcess) (id : Z) : option (option outcome) :=
  req_state <$> requests a !! id.

(** What [reject] makes of the state of a promise: a settled one stays as
    it is. *)
Definition rejected_with (err : js_error) (s : option outcome) : option outcome :=
  Some (default (Rejected err) s).

(** The promise behind every entry of the pending map is unsettled. *)
Definition live (a : AgentProcess) : Prop :=
  ∀ id p, pending a !! id = Some p → request_state a id = Some None.

Definition heap_live (w : Runtime) : Prop :=
  ∀ ref a, heap w !! ref = Some a → live a.

(** A turn on the example session, driven to its first suspension, then an
    [ensureSession] under the same key with another working directory: the
    first child is sent SIGTERM with its prompt outstanding, and a second
    agent takes its place in the registry. *)
Definition example_replacement : list event :=
  example_handshake example_input ++
  [CallRunTurn example_handle "hi" None; CallNext 0;
   CallEnsureSession example_input_other_cwd].

(** ** The plugin configuration (config.ts) *)

(** [typeof v]. *)
Definition typeof (v : jsval) : string :=
  match v with
  | JUndef => "undefined"
  | JNull | JArr _ | JObj _ => "object"
  | JBool _ => "boolean"
  | JNum _ => "number"
  | JStr _ => "string"
  end.

Definition Array_isArray (v : jsval) : bool :=
  match v with
  | JArr _ => true
  | _ => false
  end.

(** [v !== undefined] and [v !== null]. *)
Definition defined (v : jsval) : bool :=
  match v with
  | JUndef => false
  | _ => true
  end.

Definition not_null (v : jsval) : bool :=
  match v with
  | JNull => false
  | _ => true
  end.

Definition isRecord (value : jsval) : bool :=
  String.eqb (typeof value) "object" && not_null value
  && negb (Array_isArray value).

(** [v.every(f)] on an array and [Object.values(v).every(f)] on a record. *)
Definition every (f : jsval → bool) (v : jsval) : bool :=
  match v with
  | JArr items => forallb f items
  | _ => true
  end.

Definition Object_values (v : jsval) : list jsval :=
  match v with
  | JObj fields => fields.*2
  | _ => []
  end.

Record Issue := {
  path : list string;
  message : string;
}.

(** What [safeParse] returns: [{ success: true, data }] or
    [{ success: false, error: { issues } }]. *)
Inductive SafeParseResult :=
| Success (data : jsval)
| Failure (issues : list Issue).

Definition fail (path : list string) (message : string) : SafeParseResult :=
  Failure [{| path := path; message := message |}].

Definition is_string (v : jsval) : bool := String.eqb (typeof v) "string".

Definition safeParse (value : jsval) : SafeParseResult :=
  if negb (defined value) then Success JUndef
  else if negb (isRecord value) then fail [] "expected config object"
  else if defined (get value "command") && negb (is_string (get value "command"))
  then fail ["command"] "must be a string"
  else if defined (get value "args") &&
          (negb (Array_isArray (get value "args")) ||
           negb (every is_string (get value "args")))
  then fail ["args"] "must be an array of strings"
  else if defined (get value "cwd") && negb (is_string (get value "cwd"))
  then fail ["cwd"] "must be a string"
  else if defined (get value "env") &&
          (negb (isRecord (get value "env")) ||
           negb (forallb is_string (Object_values (get value "env"))))
  then fail ["env"] "must be an object with string values"
  else Success value.

(** The object [resolveStandardAcpConfig] returns.  The cast of [rawConfig]
    checks nothing, so its fields are whatever values the raw configuration
    holds. *)
Record ResolvedRaw := {
  resolved_command : jsval;
  resolved_args : jsval;
  resolved_cwd : jsval;
  resolved_env : jsval;
}.

(** [workspaceDir] is optional; [process_cwd] is what [process.cwd()]
    returns. *)
Definition resolveStandardAcpConfig (rawConfig : jsval)
    (workspaceDir : option string) (process_cwd : string) : ResolvedRaw :=
  let raw := nullish rawConfig (JObj []) in
  {| resolved_command := nullish (get raw "command") (JStr "kiro-cli");
     resolved_args := nullish (get raw "args") (JArr [JStr "acp"]);
     resolved_cwd :=
       nullish (nullish (get raw "cwd") (from_option JStr JUndef workspaceDir))
         (JStr process_cwd);
     resolved_env := nullish (get raw "env") (JObj []) |}.

(** *** Well-typed configurations

    The reading of a [ResolvedRaw] at the type the runtime assumes,
    [ResolvedStandardAcpConfig]: defined when every field holds a value of
    its declared type. *)

Definition as_string (v : jsval) : option string :=
  match v with
  | JStr s => Some s
  | _ => None
  end.

Definition as_strings (v : jsval) : option (list string) :=
  match v with
  | JArr items => mapM as_string items
  | _ => None
  end.

Definition as_string_record (v : jsval) : option (list (string * string)) :=
  match v with
  | JObj fields => mapM (λ kv, s ← as_string kv.2; Some (kv.1, s)) fields
  | _ => None
  end.

Definition typed (r : ResolvedRaw) : option ResolvedStandardAcpConfig :=
  c ← as_string (resolved_command r);
  a ← as_strings (resolved_args r);
  d ← as_string (resolved_cwd r);
  e ← as_string_record (resolved_env r);
  Some {| command := c; args := a; cfg_cwd := d; env := e |}.

(** A resolved configuration written back as a raw one, every key given. *)
Definition raw_of (cfg : ResolvedStandardAcpConfig) : jsval :=
  JObj [("command", JStr (command cfg));
        ("args", JArr (JStr <$> args cfg));
        ("cwd", JStr (cfg_cwd cfg));
        ("env", JObj (prod_map id JStr <$> env cfg))].

Definition config_keys : list string := ["command"; "args"; "cwd"; "env"].

(** The issues of a result; none on success. *)
Definition issues_of (r : SafeParseResult) : list Issue :=
  match r with
  | Success _ => []
  | Failure issues => issues
  end.

(** ** [getStatus] *)

(** The [summary] of the status [getStatus] returns. *)
Definition getStatus (h : AcpRuntimeHandle) (w : Runtime) : string :=
  match lookup_agent w (handle_sessionKey h) with
  | Some (_, agent) => "running, sessionId=" +:+ ToString (sessionId agent)
  | None => "no process"
  end.

(** *** The registry against the heap *)

(** Every agent the registry or the in-flight map holds is an agent of the
    heap, filed under the key its handlers captured. *)
Definition registry_valid (w : Runtime) : Prop :=
  (∀ key ref, agents w !! key = Some ref →
     ∃ a, heap w !! ref = Some a ∧ agent_key a = key) ∧
  (∀ key ref, initializing w !! key = Some ref →
     ∃ a, heap w !! ref = Some a ∧ agent_key a = key).

(** Nothing is added to the registry or to the in-flight map. *)
Definition shrinks (w w' : Runtime) : Prop :=
  (∀ key ref, agents w' !! key = Some ref → agents w !! key = Some ref) ∧
  (∀ key ref, initializing w' !! key = Some ref →
     initializing w !! key = Some ref).

(** *** The transport at rest *)

(** Ids are handed out in order from 1: the requests an agent was sent are
    those with an id below [nextId]. *)
Definition ids_dense (a : AgentProcess) : Prop :=
  (1 ≤ nextId a)%Z ∧
  ∀ id, is_Some (requests a !! id) ↔ (1 ≤ id < nextId a)%Z.

(** The pending map holds the entry of every unsettled promise. *)
Definition pending_covers (a : AgentProcess) : Prop :=
  ∀ id, request_state a id = Some None →
        pending a !! id = Some {| settles := id |}.

(** A timer is live exactly while the promise of a control request is
    unsettled. *)
Definition timers_match (a : AgentProcess) : Prop :=
  ∀ id r, requests a !! id = Some r →
    match req_state r with
    | None =>
        req_timer r =
          if bool_decide (req_method r ∈ CONTROL_METHODS)
          then Armed CONTROL_TIMEOUT_MS else NoTimer
    | Some _ => ∀ ms, req_timer r ≠ Armed ms
    end.

Definition tidy (a : AgentProcess) : Prop :=
  ids_dense a ∧ pending_covers a ∧ timers_match a.

Definition heap_tidy (w : Runtime) : Prop :=
  ∀ ref a, heap w !! ref = Some a → tidy a.

(** A turn on the example session whose signal is not aborted, driven to
    its first suspension: it awaits. *)
Definition example_awaiting_turn : list event :=
  example_handshake example_input ++
  [CallRunTurn example_handle "hi" (Some false); CallNext 0].

(** The terminal event the handlers of the prompt promise push. *)
Definition prompt_event (o : outcome) : AcpRuntimeEvent :=
  match o with
  | Fulfilled result =>
      Done (nullish (get result "stopReason") (JStr "end_turn"))
  | Rejected err => Error (String_error err)
  end.

(** The agent after the entry of request [id] was taken out of the pending
    map and resolved with [v]. *)
Definition resolved (id : Z) (v : jsval) (a : AgentProcess) : AgentProcess :=
  (entry_resolve {| settles := id |} v (set_pending (delete id) a)).1.

(** The handle an initialization under [input] ends with when [session/new]
    is answered with [result]. *)
Definition handshake_handle (w : Runtime) (input : AcpRuntimeEnsureInput)
    (result : jsval) : AcpRuntimeHandle :=
  {| handle_sessionKey := sessionKey input;
     backend := STANDARD_ACP_BACKEND_ID;
     runtimeSessionName :=
       nullish (get result "sessionId") (JStr (sessionKey input));
     handle_cwd := effectiveCwd w input |}.

(** *** Initializations in flight *)

(** An unsettled request of the handshake under [key], sent with a control
    method. *)
Definition handshake_request (a : AgentProcess) (id : Z) (r : request)
    (key : string) : Prop :=
  requests a !! id = Some r ∧ req_state r = None ∧
  init_key (req_waiter r) = Some key ∧ req_method r ∈ CONTROL_METHODS.

(** Every initialization in flight awaits a request of its agent. *)
Definition inflight_live (w : Runtime) : Prop :=
  ∀ key ref, initializing w !! key = Some ref →
    ∃ a id r, heap w !! ref = Some a ∧ handshake_request a id r key.

(** A callback leaves an unsettled request as it is, or settles it and
    schedules the reaction of its waiter. *)
Definition keeps_or_reacts (a a' : AgentProcess)
    (rs : list (waiter * outcome)) : Prop :=
  ∀ id r, requests a !! id = Some r → req_state r = None →
    requests a' !! id = Some r ∨ ∃ o, (req_waiter r, o) ∈ rs.

(** The agent whose child an event comes from: a line of its stdout, the
    expiry of one of its timers, the failure of a write to its stdin, its
    [close] or its [error] event. *)
Definition event_agent (ev : event) : option nat :=
  match ev with
  | StdoutLine r _ | TimerExpired r _ | WriteFailed r _ _
  | ChildClose r | ChildError r _ => Some r
  | _ => None
  end.

(** The params of the [session/prompt] request of a turn. *)
Definition prompt_params (sid : jsval) (text : string) : jsval :=
  JObj [("sessionId", sid);
        ("prompt", JArr [JObj [("type", JStr "text"); ("text", JStr text)]])].

(** A turn on the example session, created and not yet pulled. *)
Definition example_new_turn : list event :=
  example_handshake example_input ++
  [CallRunTurn example_handle "hi" (Some false)].

(** *** The failure of a handshake *)

(** The error with which event [ev] rejects the pending request [id], of
    method [method], of agent [ref]: an error response carrying the id, the
    expiry of its timer, an error of its write, the [close] event or the
    [error] event of the child.  [None] when [ev] is none of these. *)
Definition failure (ev : event) (ref : nat) (id : Z) (method : string)
    : option js_error :=
  match ev with
  | StdoutLine r (Some msg) =>
      if bool_decide (r = ref) && is_response_for msg id then
        match has "error" msg with
        | Some true => Some (RpcError (get msg "error"))
        | _ => None
        end
      else None
  | TimerExpired r i =>
      if bool_decide (r = ref) && bool_decide (i = id)
      then Some (TimeoutError method) else None
  | WriteFailed r i err =>
      if bool_decide (r = ref) && bool_decide (i = id)
      then Some (SystemError err) else None
  | ChildClose r => if bool_decide (r = ref) then Some ExitedError else None
  | ChildError r err =>
      if bool_decide (r = ref) then Some (SystemError err) else None
  | _ => None
  end.

(** Who awaits the promise of request [id]. *)
Definition waiter_of (a : AgentProcess) (id : Z) : waiter :=
  default HostCall (req_waiter <$> requests a !! id).

(** The error of the scripted agent of the test suite. *)
Definition example_init_error : jsval :=
  JObj [("code", JNum (-1)); ("message", JStr "init failed")].

(** * Properties *)

(** ** Notification mapper *)



(** The rows of the table on fields that are present. *)
Lemma mapNotificationToEvent_chunk (fields : list (string * jsval)) (text : string) :
  mapNotificationToEvent
    (JObj [("update", JObj (("sessionUpdate", JStr "agent_message_chunk")
                              :: ("content", JObj [("text", JStr text)]) :: fields))])
  = Some (TextDelta (JStr text) "output").
Proof. reflexivity. Qed.

Lemma mapNotificationToEvent_tool_update (id st : string) :
  mapNotificationToEvent
    (JObj [("update", JObj [("sessionUpdate", JStr "tool_call_update");
                            ("toolCallId", JStr id); ("status", JStr st)])])
  = Some (Status ("tool " +:+ id +:+ ": " +:+ st)).
Proof. reflexivity. Qed.

(** The mapper never produces a terminal event. *)
Lemma mapNotificationToEvent_not_terminal (params : jsval) (e : AcpRuntimeEvent) :
  mapNotificationToEvent params = Some e → terminal e = false.
Proof.
  unfold mapNotificationToEvent. intros H.
  repeat (case_match; simplify_eq); reflexivity.
Qed.

(** ** Basic facts on the heap *)

Lemma heap_update_agent_eq ref f w :
  heap (update_agent ref f w) !! ref = f <$> heap w !! ref.
Proof. apply list_lookup_alter_eq. Qed.

Lemma heap_update_agent_ne ref ref' f w :
  ref ≠ ref' → heap (update_agent ref f w) !! ref' = heap w !! ref'.
Proof. apply list_lookup_alter_ne. Qed.

Lemma alter_const_same {A} (l : list A) (i : nat) (x : A) :
  l !! i = Some x → alter (λ _, x) i l = l.
Proof.
  intros H. apply list_eq. intros j. rewrite list_lookup_alter.
  case_decide; simplify_eq; [by rewrite H|done].
Qed.

Lemma update_agent_same w ref a :
  heap w !! ref = Some a → update_agent ref (λ _, a) w = w.
Proof.
  intros H. destruct w. unfold update_agent, set_heap. simpl in *.
  by rewrite alter_const_same.
Qed.


(** ** The line handler *)

Lemma has_obj_true k fields v :
  assoc k fields = Some v → has k (JObj fields) = Some true.
Proof. intros H. simpl. rewrite H. by rewrite bool_decide_eq_true_2. Qed.

Lemma has_obj_false k fields :
  assoc k fields = None → has k (JObj fields) = Some false.
Proof.
  intros H. simpl. rewrite H. rewrite bool_decide_eq_false_2; [done|].
  by intros [? ?].
Qed.

Lemma has_obj k fields : ∃ b, has k (JObj fields) = Some b.
Proof. by eexists. Qed.

Lemma get_obj k fields v : assoc k fields = Some v → get (JObj fields) k = v.
Proof. intros H. simpl. by rewrite H. Qed.





(** ** The session registry *)

Lemma fresh_init_eq key input w :
  fresh_init key input w =
    ({| config := config w;
        agents := <[key := length (heap w)]> (agents w);
        initializing := <[key := length (heap w)]> (initializing w);
        heap := heap w ++ [sendRequest "initialize" initialize_params
                             (AwaitInitialize key input)
                             (new_agent (config w) key)];
        inits := inits w; turns := turns w; warnings := warnings w |},
     ReturnsPromise (length (heap w))).
Proof.
  unfold fresh_init, initAgent, spawnAgent, update_agent, set_heap, set_agents,
    set_initializing. simpl. do 2 f_equal.
  rewrite <- (Nat.add_0_r (length (heap w))) at 1. by rewrite alter_app_r.
Qed.

Lemma lookup_agent_Some w key ref a :
  lookup_agent w key = Some (ref, a) ↔
  agents w !! key = Some ref ∧ heap w !! ref = Some a.
Proof.
  unfold lookup_agent. split.
  - intros H. destruct (agents w !! key) as [r|] eqn:E; simpl in H; [|done].
    destruct (heap w !! r) as [b|] eqn:E'; simpl in H; [|done]. by simplify_eq.
  - intros [-> H]. simpl. by rewrite H.
Qed.

(** C5, amended: for every [ensureSession] call that finds an agent for the
    key and no initialization in flight for it, an equal cwd returns the
    handle of that agent and changes nothing (so any number of repeated calls
    return the same [runtimeSessionName]), and a different cwd sends SIGTERM
    to the child, replaces the registry entry and starts a fresh
    initialization.  While an initialization is in flight for the key, the
    call returns the promise in flight and changes nothing, whatever cwd it
    asks for and whatever the registry holds: no signal is sent, nothing is
    spawned. *)
Theorem ensureSession_existing (w : Runtime) (input : AcpRuntimeEnsureInput) :
  (initializing w !! sessionKey input = None →
   existing_session_claim w input) ∧
  (∀ inflight, initializing w !! sessionKey input = Some inflight →
     ensureSession input w = (w, ReturnsPromise inflight)).
Proof.
  split.
  - intros Hinit ref agent Hl.
    pose proof Hl as [Hreg Hheap]%lookup_agent_Some.
    pose proof (lookup_lt_Some _ _ _ Hheap) as Hlt.
    unfold ensureSession. rewrite Hinit, Hl. split.
    + intros Heq. by rewrite bool_decide_eq_false_2 by (by intros ?).
    + intros Hne. rewrite bool_decide_eq_true_2 by done.
      rewrite fresh_init_eq. cbn [heap set_agents update_agent set_heap config].
      rewrite length_alter. eexists. split; [reflexivity|].
      cbn [heap agents initializing].
      split_and!.
      * rewrite lookup_app_l by (by rewrite length_alter).
        by rewrite list_lookup_alter_eq, Hheap.
      * by rewrite lookup_insert_eq.
      * by rewrite lookup_insert_eq.
      * rewrite lookup_app_r by (by rewrite length_alter).
        by rewrite length_alter, Nat.sub_diag.
  - intros inflight Hinit. unfold ensureSession. by rewrite Hinit.
Qed.

(** On the example session: the same cwd, another cwd, and another cwd
    asked for while the handshake of the session is still in flight. *)
Lemma ensureSession_existing_witness :
  let w := run (new_runtime example_config) (example_handshake example_input) in
  let w0 := run (new_runtime example_config) [CallEnsureSession example_input] in
  ensureSession example_input w =
    (w, ReturnsHandle example_handle) ∧
  (∃ w', ensureSession example_input_other_cwd w = (w', ReturnsPromise 1) ∧
         (signals ∘ child <$> heap w' !! 0) = Some ["SIGTERM"] ∧
         agents w' !! "s1" = Some 1) ∧
  ensureSession example_input_other_cwd w0 = (w0, ReturnsPromise 0) ∧
  (signals ∘ child <$> heap w0 !! 0) = Some [].
Proof.
  set (w := run (new_runtime example_config) (example_handshake example_input)).
  set (w0 := run (new_runtime example_config) [CallEnsureSession example_input]).
  assert (∃ agent, lookup_agent w "s1" = Some (0, agent) ∧ cwd agent = "/work")
    as (agent & Hl & Hcwd) by (eexists; split; vm_compute; reflexivity).
  cbv zeta. split_and!.
  - destruct (ensureSession_existing w example_input) as [Hexisting _].
    destruct (Hexisting eq_refl 0 agent Hl) as [Hsame _].
    rewrite Hsame by (rewrite Hcwd; vm_compute; reflexivity).
    do 2 f_equal. apply lookup_agent_Some in Hl as [_ Hh].
    vm_compute in Hh. injection Hh as <-. vm_compute. reflexivity.
  - destruct (ensureSession_existing w example_input_other_cwd)
      as [Hexisting _].
    destruct (Hexisting eq_refl 0 agent Hl) as [_ Hdiff].
    destruct Hdiff as (w' & Hret & Hkill & Hreg & _);
      [rewrite Hcwd; vm_compute; discriminate|].
    exists w'. split_and!; [exact Hret| |exact Hreg].
    rewrite Hkill. apply lookup_agent_Some in Hl as [_ Hh].
    vm_compute in Hh. injection Hh as <-. vm_compute. reflexivity.
  - apply (ensureSession_existing w0 example_input_other_cwd).
    vm_compute. reflexivity.
  - vm_compute. reflexivity.
Defined.

(** Repeated calls with the same cwd return the same handle. *)
Lemma ensureSession_idempotent (w : Runtime) (input : AcpRuntimeEnsureInput) h :
  ensureSession input w = (w, ReturnsHandle h) →
  ∀ n, Nat.iter n (λ w, (ensureSession input w).1) w = w.
Proof. intros H. induction n as [|n IH]; simpl; [done|]. by rewrite IH, H. Qed.

(** C5 as stated fails while an initialization is in flight: the agent is
    already in the registry, the cwd asked for differs from the one it
    records, and [ensureSession] hands back the promise in flight without
    sending any signal. *)
Lemma ensureSession_in_flight_counterexample :
  let w := run (new_runtime example_config) [CallEnsureSession example_input] in
  (∃ agent,
     lookup_agent w "s1" = Some (0, agent) ∧
     cwd agent ≠ effectiveCwd w example_input_other_cwd ∧
     signals (child agent) = [] ∧
     ensureSession example_input_other_cwd w = (w, ReturnsPromise 0)) ∧
  ¬ existing_session_claim w example_input_other_cwd.
Proof.
  assert (lookup_agent
            (run (new_runtime example_config) [CallEnsureSession example_input])
            "s1"
          = Some (0, sendRequest "initialize" initialize_params
                       (AwaitInitialize "s1" example_input)
                       (new_agent example_config "s1"))) as Hl
    by (vm_compute; reflexivity).
  cbv zeta. split.
  - eexists. split; [exact Hl|]. split_and!; [by vm_compute|done|].
    vm_compute. reflexivity.
  - intros H. destruct (H _ _ Hl) as [_ Hdiff].
    destruct Hdiff as (w' & Hret & _); [by vm_compute|].
    vm_compute in Hret. discriminate Hret.
Qed.

(** C8, amended: for every fresh initialization performed by
    [ensureSession], the child is spawned with its working directory set to
    [config.cwd], which is also the cwd the agent object records at first;
    the effective cwd [input.cwd ?? config.cwd] is what [session/new]
    carries and what the agent object records once the handshake has
    completed, the child staying where it was spawned. *)
Theorem fresh_init_cwd (w : Runtime) (input : AcpRuntimeEnsureInput) :
  let key := sessionKey input in
  let p := length (heap w) in
  let w1 := (fresh_init key input w).1 in
  (∃ a, heap w1 !! p = Some a ∧
        spawn_cwd (child a) = cfg_cwd (config w) ∧
        cwd a = cfg_cwd (config w)) ∧
  (∃ a, heap (init_session_new key input p w1) !! p = Some a ∧
        last (stdin a) =
          Some (JSON_stringify
                  (JObj [("jsonrpc", JStr "2.0"); ("id", JNum 2);
                         ("method", JStr "session/new");
                         ("params",
                          JObj [("cwd", JStr (effectiveCwd w input));
                                ("mcpServers", JArr [])])]) +:+ LF)) ∧
  (∀ sessionResult,
     ∃ a, heap (init_done key input p sessionResult
                  (init_session_new key input p w1)) !! p = Some a ∧
          cwd a = effectiveCwd w input ∧
          spawn_cwd (child a) = cfg_cwd (config w)).
Proof.
  intros key p w1.
  assert (heap w1 !! p
          = Some (sendRequest "initialize" initialize_params
                    (AwaitInitialize key input) (new_agent (config w) key)))
    as Hp.
  { subst w1 p. rewrite fresh_init_eq. cbn [fst heap].
    rewrite lookup_app_r by lia. by rewrite Nat.sub_diag. }
  assert (config w1 = config w) as Hc
    by (subst w1; by rewrite fresh_init_eq).
  assert (effectiveCwd (init_session_new key input p w1) input
          = effectiveCwd w input) as He'
    by (unfold effectiveCwd; cbn [init_session_new update_agent set_heap config];
        by rewrite Hc).
  assert (effectiveCwd w1 input = effectiveCwd w input) as He
    by (unfold effectiveCwd; by rewrite Hc).
  split_and!.
  - eexists. split; [exact Hp|]. split; reflexivity.
  - eexists. split.
    + unfold init_session_new. rewrite heap_update_agent_eq, Hp. reflexivity.
    + rewrite He. reflexivity.
  - intros r. eexists. split.
    + unfold init_done. cbn [set_initializing set_inits heap].
      unfold init_session_new at 2.
      rewrite !heap_update_agent_eq, Hp. reflexivity.
    + rewrite He'. split; reflexivity.
Qed.

(** C8 as stated fails as soon as the input brings a cwd of its own: the
    child is spawned in [config.cwd]. *)
Lemma spawned_in_effective_cwd_counterexample :
  let w := new_runtime example_config in
  (∃ a, heap (fresh_init "s1" example_input_other_cwd w).1 !! 0 = Some a ∧
        spawn_cwd (child a) = "/work" ∧
        effectiveCwd w example_input_other_cwd = "/elsewhere") ∧
  ¬ spawned_in_effective_cwd w example_input_other_cwd.
Proof.
  cbv zeta. split.
  - eexists. split; [vm_compute; reflexivity|]. split; reflexivity.
  - intros [H _]. specialize (H _ eq_refl). vm_compute in H. discriminate H.
Qed.

(** The scenario of the test suite: the agent answers [initialize] with an
    error; the child is killed, nothing stays in the registry and the second
    attempt spawns a second child. *)
Lemma init_failure_scenario :
  let w := run (new_runtime example_config)
             [CallEnsureSession example_input;
              StdoutLine 0 (error_response 1
                              (JObj [("code", JNum (-1));
                                     ("message", JStr "init failed")]))] in
  (signals ∘ child <$> heap w !! 0) = Some ["SIGTERM"] ∧
  agents w = ∅ ∧ initializing w = ∅ ∧
  inits w !! 0 =
    Some (InitFailed (RpcError (JObj [("code", JNum (-1));
                                      ("message", JStr "init failed")]))) ∧
  (ensureSession example_input w).2 = ReturnsPromise 1.
Proof. vm_compute. split_and!; reflexivity. Qed.

(** ** The transport: frames and monotonicity *)

Lemma agent_wf_new cfg key : agent_wf (new_agent cfg key).
Proof. split; intros ??; simpl; by rewrite lookup_empty. Qed.

Lemma request_le_refl r : request_le r r.
Proof. by unfold request_le. Qed.

Lemma request_le_trans r1 r2 r3 :
  request_le r1 r2 → request_le r2 r3 → request_le r1 r3.
Proof.
  intros (?&?&?&?) (?&?&?&?). split_and!; [congruence|congruence|eauto|].
  etrans; eauto.
Qed.

Lemma agent_le_refl a : agent_le a a.
Proof.
  unfold agent_le. split_and!; eauto with lia.
  intros id r Hr. exists r. split; [done|apply request_le_refl].
Qed.

Lemma agent_le_trans a b c : agent_le a b → agent_le b c → agent_le a c.
Proof.
  intros (Hn1 & Hp1 & Hr1 & Hc1 & Hk1) (Hn2 & Hp2 & Hr2 & Hc2 & Hk2).
  split_and!; [lia| | |congruence|congruence].
  - intros id Hid. destruct (Hp2 id) as [?| ->]; [lia|by left|]. by apply Hp1.
  - intros id r Hr. destruct (Hr1 _ _ Hr) as (r' & Hr' & Hle).
    destruct (Hr2 _ _ Hr') as (r'' & Hr'' & Hle').
    exists r''. split; [done|]. eapply request_le_trans; eauto.
Qed.

(** *** The primitive operations *)

Lemma settle_fields id o a :
  nextId (settle id o a).1 = nextId a ∧
  pending (settle id o a).1 = pending a ∧
  child (settle id o a).1 = child a ∧
  agent_key (settle id o a).1 = agent_key a ∧
  stdin (settle id o a).1 = stdin a.
Proof. unfold settle. by repeat case_match. Qed.

Lemma clear_timer_fields id a :
  nextId (clear_timer id a) = nextId a ∧
  pending (clear_timer id a) = pending a ∧
  child (clear_timer id a) = child a ∧
  agent_key (clear_timer id a) = agent_key a ∧
  stdin (clear_timer id a) = stdin a.
Proof. unfold clear_timer. by repeat case_match. Qed.

Lemma requests_le_refl a : requests_le a a.
Proof.
  intros id. destruct (requests a !! id); constructor. apply request_le_refl.
Qed.

Lemma requests_le_same a b : requests b = requests a → requests_le a b.
Proof. intros H id. rewrite H. apply requests_le_refl. Qed.

Lemma requests_le_trans a b c :
  requests_le a b → requests_le b c → requests_le a c.
Proof.
  intros H1 H2 id. specialize (H1 id). specialize (H2 id).
  destruct H1; inversion H2; simplify_eq; constructor.
  eapply request_le_trans; eauto.
Qed.

Lemma settle_requests id o a : requests_le a (settle id o a).1.
Proof.
  unfold settle. destruct (requests a !! id) as [r|] eqn:Hr;
    [|apply requests_le_refl].
  destruct (req_state r) eqn:Hs; [apply requests_le_refl|].
  intros id'. simpl. destruct (decide (id = id')) as [<-|Hne].
  - rewrite lookup_insert_eq, Hr. constructor.
    split_and!; simpl; [done|done| |done]. intros o'. by rewrite Hs.
  - rewrite lookup_insert_ne by done.
    destruct (requests a !! id'); constructor. apply request_le_refl.
Qed.

Lemma clear_timer_requests id a : requests_le a (clear_timer id a).
Proof.
  unfold clear_timer. destruct (requests a !! id) as [r|] eqn:Hr;
    [|apply requests_le_refl].
  destruct (req_timer r) eqn:Ht; try apply requests_le_refl.
  intros id'. simpl. destruct (decide (id = id')) as [<-|Hne].
  - rewrite lookup_insert_eq, Hr. constructor.
    split_and!; simpl; [done|done|done|]. rewrite Ht. split; discriminate.
  - rewrite lookup_insert_ne by done.
    destruct (requests a !! id'); constructor. apply request_le_refl.
Qed.

(** The effect of [settle] on the request it names. *)
Lemma settle_state id o a r :
  requests a !! id = Some r →
  ∃ r', requests (settle id o a).1 !! id = Some r' ∧
        req_state r' = Some (default o (req_state r)).
Proof.
  intros Hr. unfold settle. rewrite Hr.
  destruct (req_state r) eqn:Hs; simpl.
  - by exists r.
  - rewrite lookup_insert_eq. by eexists.
Qed.

(** [settle] schedules a reaction exactly when the promise was pending. *)
Lemma settle_reactions id o a :
  (settle id o a).2 =
    match requests a !! id with
    | Some r => if req_state r is None then [(req_waiter r, o)] else []
    | None => []
    end.
Proof. unfold settle. by repeat case_match. Qed.

Lemma settle_other id id' o a :
  id ≠ id' → requests (settle id o a).1 !! id' = requests a !! id'.
Proof.
  intros Hne. unfold settle. repeat case_match; simpl; try done.
  by rewrite lookup_insert_ne.
Qed.

Lemma clear_timer_other id id' a :
  id ≠ id' → requests (clear_timer id a) !! id' = requests a !! id'.
Proof.
  intros Hne. unfold clear_timer. repeat case_match; simpl; try done.
  by rewrite lookup_insert_ne.
Qed.

Lemma clear_timer_state id a id' :
  (req_state <$> requests (clear_timer id a) !! id')
  = (req_state <$> requests a !! id').
Proof.
  destruct (decide (id = id')) as [<-|Hne];
    [|by rewrite clear_timer_other].
  unfold clear_timer. destruct (requests a !! id) as [r|] eqn:Hr; [|by rewrite Hr].
  destruct (req_timer r); rewrite ?Hr; try done.
  simpl. by rewrite lookup_insert_eq.
Qed.

(** *** The callbacks of the transport *)

Lemma transport_le_refl a : transport_le a a.
Proof.
  unfold transport_le. split_and!; eauto. apply requests_le_refl.
Qed.

Lemma transport_le_trans a b c :
  transport_le a b → transport_le b c → transport_le a c.
Proof.
  intros (Hn1 & Hp1 & Hr1 & Hc1 & Hk1) (Hn2 & Hp2 & Hr2 & Hc2 & Hk2).
  split_and!; [congruence| |by eapply requests_le_trans|congruence|congruence].
  intros id. destruct (Hp2 id) as [?| ->]; [by left|]. apply Hp1.
Qed.

Lemma transport_le_same a b :
  nextId b = nextId a → pending b = pending a → requests b = requests a →
  spawn_cwd (child b) = spawn_cwd (child a) → agent_key b = agent_key a →
  transport_le a b.
Proof.
  intros Hn Hp Hr Hc Hk.
  split_and!; [done| |by apply requests_le_same|done|done].
  intros id. right. by rewrite Hp.
Qed.

Lemma transport_le_settle id o a : transport_le a (settle id o a).1.
Proof.
  destruct (settle_fields id o a) as (?&Hp&Hc&?&?).
  split_and!; [done| |apply settle_requests|by rewrite Hc|done].
  intros id'. right. by rewrite Hp.
Qed.

Lemma transport_le_clear_timer id a : transport_le a (clear_timer id a).
Proof.
  destruct (clear_timer_fields id a) as (?&Hp&Hc&?&?).
  split_and!; [done| |apply clear_timer_requests|by rewrite Hc|done].
  intros id'. right. by rewrite Hp.
Qed.

Lemma transport_le_delete id a : transport_le a (set_pending (delete id) a).
Proof.
  split_and!; [done| |by apply requests_le_same|done|done].
  intros id'. simpl. destruct (decide (id = id')) as [<-|Hne].
  - left. apply lookup_delete_eq.
  - right. by apply lookup_delete_ne.
Qed.

Lemma transport_le_clear a : transport_le a (set_pending (λ _, ∅) a).
Proof.
  split_and!; [done| |by apply requests_le_same|done|done].
  intros id'. left. apply lookup_empty.
Qed.

Lemma transport_le_write line a : transport_le a (write line a).
Proof. split_and!; [done|by right|by apply requests_le_same|done|done]. Qed.

Lemma transport_le_entry_reject p err a :
  transport_le a (entry_reject p err a).1.
Proof.
  unfold entry_reject. eapply transport_le_trans;
    [apply transport_le_clear_timer|apply transport_le_settle].
Qed.

Lemma transport_le_entry_resolve p v a :
  transport_le a (entry_resolve p v a).1.
Proof.
  unfold entry_resolve. eapply transport_le_trans;
    [apply transport_le_clear_timer|apply transport_le_settle].
Qed.

Lemma transport_le_on_timeout id a : transport_le a (on_timeout id a).1.
Proof.
  unfold on_timeout. destruct (requests a !! id) as [r|] eqn:Hr;
    [|apply transport_le_refl].
  destruct (req_timer r) eqn:Ht; try apply transport_le_refl.
  eapply transport_le_trans; [|apply transport_le_settle].
  eapply transport_le_trans; [|apply transport_le_delete].
  split_and!; [done|by right| |done|done].
  intros id'. simpl. destruct (decide (id = id')) as [<-|Hne].
  - rewrite lookup_insert_eq, Hr. constructor.
    split_and!; simpl; [done|done|done|]. rewrite Ht. split; discriminate.
  - rewrite lookup_insert_ne by done.
    destruct (requests a !! id'); constructor. apply request_le_refl.
Qed.

Lemma transport_le_on_write_error id err a :
  transport_le a (on_write_error id err a).1.
Proof.
  unfold on_write_error. destruct (requests a !! id); [|apply transport_le_refl].
  eapply transport_le_trans; [|apply transport_le_settle].
  eapply transport_le_trans; [|apply transport_le_delete].
  apply transport_le_clear_timer.
Qed.

(** The loop of [reject_all] keeps whatever every [reject] keeps. *)
Lemma reject_all_ind (P : AgentProcess → Prop) err a :
  P a →
  (∀ p b, P b → P (entry_reject p err b).1) →
  (∀ b, P b → P (set_pending (λ _, ∅) b)) →
  P (reject_all err a).1.
Proof.
  intros Ha Hstep Hclear. unfold reject_all.
  generalize (map_to_list (pending a)). intros l.
  assert (∀ acc : AgentProcess * list (waiter * outcome),
            P acc.1 →
            P (foldl (λ (acc : AgentProcess * list (waiter * outcome)) kp,
                        let '(a', rs') := entry_reject kp.2 err acc.1 in
                        (a', acc.2 ++ rs')) acc l).1) as Hfold.
  { induction l as [|kp l IH]; intros acc Hacc; simpl; [done|].
    apply IH. specialize (Hstep kp.2 _ Hacc).
    by destruct (entry_reject kp.2 err acc.1). }
  specialize (Hfold (a, []) Ha).
  destruct (foldl _ _ _) as [b rs]. simpl in *. by apply Hclear.
Qed.

Lemma transport_le_reject_all err a : transport_le a (reject_all err a).1.
Proof.
  apply (reject_all_ind (transport_le a)).
  - apply transport_le_refl.
  - intros p b Hb. eapply transport_le_trans; [done|].
    apply transport_le_entry_reject.
  - intros b Hb. eapply transport_le_trans; [done|]. apply transport_le_clear.
Qed.

Lemma transport_le_on_line parsed a : transport_le a (on_line parsed a).1.1.
Proof.
  unfold on_line. destruct parsed as [msg|]; [|apply transport_le_refl].
  repeat case_match; simplify_eq; simpl;
    try apply transport_le_refl; try apply transport_le_write.
  - eapply transport_le_trans; [apply transport_le_delete|].
    match goal with
    | H : entry_reject ?p ?e ?b = _ |- _ =>
        pose proof (transport_le_entry_reject p e b) as Hle; by rewrite H in Hle
    end.
  - eapply transport_le_trans; [apply transport_le_delete|].
    match goal with
    | H : entry_resolve ?p ?e ?b = _ |- _ =>
        pose proof (transport_le_entry_resolve p e b) as Hle; by rewrite H in Hle
    end.
Qed.

Lemma transport_le_effect ev ref a : transport_le a (transport_effect ev ref a).
Proof.
  destruct ev; simpl; try apply transport_le_refl; case_bool_decide;
    try apply transport_le_refl.
  - apply transport_le_on_line.
  - apply transport_le_on_timeout.
  - apply transport_le_on_write_error.
  - apply transport_le_reject_all.
  - apply transport_le_reject_all.
Qed.

Lemma transport_le_wf a b : transport_le a b → agent_wf a → agent_wf b.
Proof.
  intros (Hn & Hp & Hr & _ & _) [Hw1 Hw2]. split.
  - intros id p Hb. destruct (Hp id) as [?|Heq]; [congruence|].
    rewrite Heq in Hb. destruct (Hw1 _ _ Hb) as [? [r Hra]]. split; [done|].
    specialize (Hr id). rewrite Hra in Hr. inversion Hr. by eexists.
  - intros id r' Hb. specialize (Hr id). rewrite Hb in Hr.
    inversion Hr as [r ? Hle Hra|]; simplify_eq.
    destruct (Hw2 _ _ (eq_sym Hra)) as [? Ht]. split; [lia|].
    destruct Hle as (Hm & _ & _ & Ht'). rewrite Hm, Ht'. done.
Qed.

Lemma transport_le_agent_le a b : transport_le a b → agent_le a b.
Proof.
  intros (Hn & Hp & Hr & Hc & Hk). split_and!; [lia| | |done|done].
  - intros id _. apply Hp.
  - intros id r Hra. specialize (Hr id). rewrite Hra in Hr.
    inversion Hr; simplify_eq. by eexists.
Qed.

(** *** Benign operations *)

Lemma benign_wf a b : benign a b → agent_wf a → agent_wf b ∧ agent_le a b ∧ frame a b.
Proof.
  intros Hb Hw.
  assert (∀ a b, agent_wf a → nextId b = nextId a → pending b = pending a →
            requests b = requests a →
            spawn_cwd (child b) = spawn_cwd (child a) →
            agent_key b = agent_key a →
            agent_wf b ∧ agent_le a b ∧ frame a b) as Hsame.
  { intros a' b' Hw' Hn Hp Hr Hc Hk.
    pose proof (transport_le_same a' b' Hn Hp Hr Hc Hk) as Hle.
    split_and!; [by eapply transport_le_wf|by apply transport_le_agent_le|].
    intros id _. by rewrite Hp, Hr. }
  destruct Hb as [sig a|method params k a|sid dir a|n a];
    try (by apply Hsame).
  destruct Hw as [Hw1 Hw2].
  assert (requests a !! nextId a = None) as Hfresh.
  { destruct (requests a !! nextId a) as [r|] eqn:E; [|done].
    destruct (Hw2 _ _ E). lia. }
  assert (pending a !! nextId a = None) as Hfresh'.
  { destruct (pending a !! nextId a) as [p|] eqn:E; [|done].
    destruct (Hw1 _ _ E) as [_ [r Hr]]. congruence. }
  split_and!.
  - split.
    + intros id p. unfold sendRequest. simpl.
      destruct (decide (nextId a = id)) as [<-|Hne].
      * rewrite !lookup_insert_eq. intros [= <-]. by eauto.
      * rewrite !lookup_insert_ne by done. apply Hw1.
    + intros id r. unfold sendRequest. simpl.
      destruct (decide (nextId a = id)) as [<-|Hne].
      * rewrite lookup_insert_eq. intros [= <-]. simpl. split; [lia|].
        case_bool_decide; simpl; split; intros; done.
      * rewrite lookup_insert_ne by done. intros Hr.
        destruct (Hw2 _ _ Hr). split; [lia|done].
  - split_and!; unfold sendRequest; simpl; [lia| | |done|done].
    + intros id Hid. right. by rewrite lookup_insert_ne by lia.
    + intros id r Hr. destruct (Hw2 _ _ Hr).
      exists r. rewrite lookup_insert_ne by lia. split; [done|].
      apply request_le_refl.
  - intros id Hid. unfold sendRequest. simpl.
    by rewrite !lookup_insert_ne by lia.
Qed.

Lemma benign_rtc_wf a b :
  rtc benign a b → agent_wf a → agent_wf b ∧ agent_le a b ∧ frame a b.
Proof.
  induction 1 as [a|a b c Hab Hbc IH]; intros Hw.
  - split_and!; [done|apply agent_le_refl|by intros ??].
  - destruct (benign_wf _ _ Hab Hw) as (Hwb & Hle & Hf).
    destruct (IH Hwb) as (Hwc & Hle' & Hf').
    split_and!; [done|by eapply agent_le_trans|].
    intros id Hid. destruct (Hf id Hid) as [<- <-].
    apply Hf'. destruct Hle as [? _]. lia.
Qed.

(** ** How the event loop changes the heap *)

Lemma evolves_same w w' :
  config w' = config w → heap w' = heap w → evolves (λ _ a, a) w w'.
Proof.
  intros Hc Hh. split_and!; [done|by rewrite Hh|].
  intros ref a'. rewrite Hh. by intros ->.
Qed.

Lemma evolves_refl w : evolves (λ _ a, a) w w.
Proof. by apply evolves_same. Qed.

Lemma evolves_trans E w1 w2 w3 :
  evolves E w1 w2 → evolves (λ _ a, a) w2 w3 → evolves E w1 w3.
Proof.
  intros (Hc1 & Hl1 & H1) (Hc2 & Hl2 & H2).
  split_and!; [congruence|lia|].
  intros ref a3 Ha3. specialize (H2 _ _ Ha3).
  destruct (heap w2 !! ref) as [a2|] eqn:Ha2.
  - specialize (H1 _ _ Ha2). destruct (heap w1 !! ref) as [a1|].
    + by etrans.
    + destruct H1 as [key ?]. exists key. by etrans.
  - rewrite Hc1 in H2.
    rewrite (lookup_ge_None_2 (heap w1) ref); [done|].
    apply lookup_ge_None_1 in Ha2. lia.
Qed.

Lemma evolves_update_agent ref f w :
  (∀ a, rtc benign a (f a)) → evolves (λ _ a, a) w (update_agent ref f w).
Proof.
  intros Hf. split_and!; [done|by cbn; rewrite length_alter|].
  intros r a'. cbn. rewrite list_lookup_alter.
  case_decide; simplify_eq.
  - destruct (heap w !! r); intros; simplify_eq/=. apply Hf.
  - by intros ->.
Qed.

Lemma evolves_update_agent_1 ref f w :
  (∀ a, benign a (f a)) → evolves (λ _ a, a) w (update_agent ref f w).
Proof. intros Hf. apply evolves_update_agent. intros a. by apply rtc_once. Qed.

Lemma evolves_handler ref a h w :
  heap w !! ref = Some a →
  evolves (λ r x, if bool_decide (ref = r) then h x else x) w
    (update_agent ref (λ _, h a) w).
Proof.
  intros Ha. split_and!; [done|by cbn; rewrite length_alter|].
  intros r a'. cbn. rewrite list_lookup_alter.
  case_decide; simplify_eq.
  - rewrite Ha. intros; simplify_eq/=. by rewrite bool_decide_eq_true_2.
  - intros ->. by rewrite bool_decide_eq_false_2.
Qed.

Lemma evolves_kill ref w : evolves (λ _ a, a) w (update_agent ref (kill "SIGTERM") w).
Proof. apply evolves_update_agent_1. constructor. Qed.

Lemma evolves_send ref method params k w :
  evolves (λ _ a, a) w (update_agent ref (sendRequest method params k) w).
Proof. apply evolves_update_agent_1. constructor. Qed.

Lemma evolves_fresh_init key input w :
  evolves (λ _ a, a) w (fresh_init key input w).1.
Proof.
  rewrite fresh_init_eq. cbn [fst].
  split_and!; [done|cbn; rewrite length_app; lia|].
  intros ref a'. cbn [heap]. intros Ha'.
  destruct (heap w !! ref) as [a|] eqn:Ha.
  - rewrite lookup_app_l in Ha' by (by eapply lookup_lt_Some).
    by simplify_eq.
  - exists key. apply lookup_ge_None_1 in Ha.
    rewrite lookup_app_r in Ha' by done.
    destruct (ref - length (heap w)) as [|n]; simplify_eq/=.
    apply rtc_once. constructor.
Qed.

Lemma evolves_ensureSession input w :
  evolves (λ _ a, a) w (ensureSession input w).1.
Proof.
  unfold ensureSession. repeat case_match; simplify_eq; cbn [fst];
    try apply evolves_refl; try apply evolves_fresh_init.
  eapply evolves_trans; [|apply evolves_fresh_init].
  eapply evolves_trans; [apply evolves_kill|]. by apply evolves_same.
Qed.

Lemma evolves_cancel h k w : evolves (λ _ a, a) w (cancel h k w).
Proof.
  unfold cancel. repeat case_match; [apply evolves_send|apply evolves_refl].
Qed.

Lemma evolves_setMode h mode w : evolves (λ _ a, a) w (setMode h mode w).
Proof.
  unfold setMode. repeat case_match; [apply evolves_send|apply evolves_refl].
Qed.

Lemma evolves_close h w : evolves (λ _ a, a) w (close h w).
Proof.
  unfold close. repeat case_match; [|apply evolves_refl].
  eapply evolves_trans; [apply evolves_kill|]. by apply evolves_same.
Qed.

Lemma evolves_closeAll w : evolves (λ _ a, a) w (closeAll w).
Proof.
  unfold closeAll.
  eapply evolves_trans; [|by apply evolves_same].
  apply (map_fold_weak_ind (λ w' _, evolves (λ _ a, a) w w'));
    [apply evolves_refl|].
  intros key ref m w' _ IH. eapply evolves_trans; [exact IH|apply evolves_kill].
Qed.

Lemma evolves_update_turn i f w : evolves (λ _ a, a) w (update_turn i f w).
Proof. by apply evolves_same. Qed.

Lemma evolves_unregister key ref w :
  evolves (λ _ a, a) w (unregister_if_same key ref w).
Proof.
  unfold unregister_if_same. case_match; [by apply evolves_same|].
  apply evolves_refl.
Qed.

Lemma evolves_set_turns f w : evolves (λ _ a, a) w (set_turns f w).
Proof. by apply evolves_same. Qed.

Lemma evolves_react agent k o w : evolves (λ _ a, a) w (react agent k o w).
Proof.
  destruct k, o; cbn [react]; try apply evolves_refl;
    try apply evolves_update_turn; try (by apply evolves_same).
  - apply evolves_send.
  - eapply evolves_trans; [apply evolves_kill|]. by apply evolves_same.
  - unfold init_done. eapply evolves_trans; [|by apply evolves_same].
    apply evolves_update_agent_1. constructor.
  - eapply evolves_trans; [apply evolves_kill|]. by apply evolves_same.
Qed.

Lemma evolves_run_reactions agent rs w :
  evolves (λ _ a, a) w (run_reactions agent rs w).
Proof.
  revert w. induction rs as [|r rs IH]; intros w; cbn; [apply evolves_refl|].
  eapply evolves_trans; [apply evolves_react|apply IH].
Qed.

Lemma evolves_next i w : evolves (λ _ a, a) w (next i w).
Proof.
  unfold next, runTurn_start. repeat case_match; simplify_eq;
    try apply evolves_refl; try apply evolves_update_turn.
  - eapply evolves_trans; [|apply evolves_update_turn].
    eapply evolves_trans; [|apply evolves_send].
    eapply evolves_trans; [|apply evolves_update_turn].
    apply evolves_update_agent_1. constructor.
  - eapply evolves_trans; [|apply evolves_update_turn].
    eapply evolves_trans; [|apply evolves_send].
    eapply evolves_trans; [|apply evolves_update_turn].
    apply evolves_update_agent_1. constructor.
  - eapply evolves_trans; [apply evolves_update_turn|].
    apply evolves_update_agent_1. constructor.
Qed.

Lemma evolves_abort i w : evolves (λ _ a, a) w (abort i w).
Proof.
  unfold abort. repeat case_match; simplify_eq;
    try apply evolves_refl; try apply evolves_update_turn.
  eapply evolves_trans; [|apply evolves_update_turn].
  eapply evolves_trans; [|apply evolves_cancel].
  eapply evolves_trans; apply evolves_update_turn.
Qed.

Lemma evolves_absent (ev : event) (r : nat) (h : AgentProcess → AgentProcess) w :
  heap w !! r = None →
  evolves (λ ref a, if bool_decide (r = ref) then h a else a) w w.
Proof.
  intros Hr. split_and!; [done|done|].
  intros ref a Ha. rewrite Ha. rewrite bool_decide_eq_false_2; [done|].
  intros ->. congruence.
Qed.

(** Every step of the event loop: the callback of the event, then benign
    operations. *)
Lemma step_evolves w ev : evolves (transport_effect ev) w (step w ev).
Proof.
  destruct ev as [input|h text sig|i|h|h mode|h| |i|r parsed|r id|r id err|r|r err];
    cbn [step transport_effect].
  - apply evolves_ensureSession.
  - by apply evolves_same.
  - apply evolves_next.
  - apply evolves_cancel.
  - apply evolves_setMode.
  - apply evolves_close.
  - apply evolves_closeAll.
  - apply evolves_abort.
  - unfold stdout_line. destruct (heap w !! r) as [a|] eqn:Ha;
      [|by apply (evolves_absent (ChildClose r))].
    destruct (on_line parsed a) as [[a' rs] e] eqn:Hl.
    eapply evolves_trans; [|apply evolves_run_reactions].
    eapply evolves_trans.
    { pose proof (evolves_handler r a (λ x, (on_line parsed x).1.1) w Ha) as H.
      cbn beta in H. rewrite Hl in H. exact H. }
    repeat case_match; try apply evolves_refl; apply evolves_update_turn.
  - unfold timeout. destruct (heap w !! r) as [a|] eqn:Ha;
      [|by apply (evolves_absent (ChildClose r))].
    destruct (on_timeout id a) as [a' rs] eqn:Hl.
    eapply evolves_trans; [|apply evolves_run_reactions].
    pose proof (evolves_handler r a (λ x, (on_timeout id x).1) w Ha) as H.
    cbn beta in H. by rewrite Hl in H.
  - unfold write_error. destruct (heap w !! r) as [a|] eqn:Ha;
      [|by apply (evolves_absent (ChildClose r))].
    destruct (on_write_error id (SystemError err) a) as [a' rs] eqn:Hl.
    eapply evolves_trans; [|apply evolves_run_reactions].
    pose proof (evolves_handler r a
                  (λ x, (on_write_error id (SystemError err) x).1) w Ha) as H.
    cbn beta in H. by rewrite Hl in H.
  - unfold child_close. destruct (heap w !! r) as [a|] eqn:Ha;
      [|by apply (evolves_absent (ChildClose r))].
    destruct (reject_all ExitedError a) as [a' rs] eqn:Hl.
    eapply evolves_trans; [|apply evolves_run_reactions].
    eapply evolves_trans.
    { pose proof (evolves_handler r a (λ x, (reject_all ExitedError x).1) w Ha)
        as H.
      cbn beta in H. rewrite Hl in H. exact H. }
    eapply evolves_trans; [apply evolves_unregister|apply evolves_set_turns].
  - unfold child_error. destruct (heap w !! r) as [a|] eqn:Ha;
      [|by apply (evolves_absent (ChildClose r))].
    destruct (reject_all (SystemError err) a) as [a' rs] eqn:Hl.
    eapply evolves_trans; [|apply evolves_run_reactions].
    assert (evolves (λ ref x,
                       if bool_decide (r = ref)
                       then (reject_all (SystemError err) x).1 else x)
              w (update_agent r (λ _, a')
                   (warn ("[acp-standard:" +:+ agent_key a +:+ "] spawn error: "
                            +:+ err) w))) as H.
    { pose proof (evolves_handler r a
                    (λ x, (reject_all (SystemError err) x).1) w Ha) as H.
      cbn beta in H. rewrite Hl in H. exact H. }
    eapply evolves_trans; [exact H|]. apply evolves_unregister.
Qed.

(** ** Reachable states *)

Lemma run_snoc w tr ev : run w (tr ++ [ev]) = step (run w tr) ev.
Proof. unfold run. by rewrite foldl_app. Qed.

Lemma run_app w tr1 tr2 : run w (tr1 ++ tr2) = run (run w tr1) tr2.
Proof. unfold run. by rewrite foldl_app. Qed.

Lemma step_heap_wf w ev : heap_wf w → heap_wf (step w ev).
Proof.
  intros Hw ref a' Ha'. destruct (step_evolves w ev) as (_ & _ & H).
  specialize (H _ _ Ha'). destruct (heap w !! ref) as [a|] eqn:Ha.
  - eapply benign_rtc_wf; [exact H|].
    eapply transport_le_wf; [apply transport_le_effect|]. by eapply Hw.
  - destruct H as [key H]. eapply benign_rtc_wf; [exact H|].
    apply agent_wf_new.
Qed.

Lemma run_heap_wf w tr : heap_wf w → heap_wf (run w tr).
Proof.
  revert w. induction tr as [|ev tr IH]; intros w Hw; [done|].
  apply IH. by apply step_heap_wf.
Qed.

Lemma new_runtime_heap_wf cfg : heap_wf (new_runtime cfg).
Proof. intros ref a. by destruct ref. Qed.

(** One step, seen from one agent object. *)
Lemma step_agent w ev ref a :
  heap_wf w → heap w !! ref = Some a →
  ∃ a', heap (step w ev) !! ref = Some a' ∧
        agent_wf a' ∧ agent_le a a' ∧
        frame (transport_effect ev ref a) a'.
Proof.
  intros Hw Ha. destruct (step_evolves w ev) as (_ & Hlen & H).
  destruct (heap (step w ev) !! ref) as [a'|] eqn:Ha'.
  - specialize (H _ _ Ha'). rewrite Ha in H.
    pose proof (transport_le_effect ev ref a) as Hle.
    pose proof (transport_le_wf _ _ Hle (Hw _ _ Ha)) as Hwe.
    destruct (benign_rtc_wf _ _ H Hwe) as (Hwa' & Hle' & Hf).
    exists a'. split_and!; [done|done| |done].
    eapply agent_le_trans; [by apply transport_le_agent_le|done].
  - apply lookup_ge_None_1 in Ha'. apply lookup_lt_Some in Ha. lia.
Qed.

Lemma run_agent w tr ref a :
  heap_wf w → heap w !! ref = Some a →
  ∃ a', heap (run w tr) !! ref = Some a' ∧ agent_le a a'.
Proof.
  revert w a. induction tr as [|ev tr IH]; intros w a Hw Ha.
  - exists a. split; [done|apply agent_le_refl].
  - destruct (step_agent w ev ref a Hw Ha) as (a1 & Ha1 & _ & Hle & _).
    destruct (IH (step w ev) a1 (step_heap_wf _ _ Hw) Ha1) as (a' & Ha' & Hle').
    exists a'. split; [done|]. by eapply agent_le_trans.
Qed.

(** ** What takes an entry out, what settles a promise *)

Lemma on_timeout_untimed id a r :
  requests a !! id = Some r → req_timer r = NoTimer → on_timeout id a = (a, []).
Proof. intros Hr Ht. unfold on_timeout. by rewrite Hr, Ht. Qed.

Lemma entry_reject_other p err a id :
  settles p ≠ id →
  requests (entry_reject p err a).1 !! id = requests a !! id.
Proof.
  intros Hne. unfold entry_reject.
  by rewrite settle_other, clear_timer_other.
Qed.

Lemma entry_resolve_other p v a id :
  settles p ≠ id →
  requests (entry_resolve p v a).1 !! id = requests a !! id.
Proof.
  intros Hne. unfold entry_resolve.
  by rewrite settle_other, clear_timer_other.
Qed.

Lemma entry_reject_pending p err a : pending (entry_reject p err a).1 = pending a.
Proof.
  unfold entry_reject. destruct (settle_fields (settles p) (Rejected err)
    (clear_timer (settles p) a)) as (_ & -> & _).
  by destruct (clear_timer_fields (settles p) a) as (_ & -> & _).
Qed.

Lemma entry_resolve_pending p v a : pending (entry_resolve p v a).1 = pending a.
Proof.
  unfold entry_resolve. destruct (settle_fields (settles p) (Fulfilled v)
    (clear_timer (settles p) a)) as (_ & -> & _).
  by destruct (clear_timer_fields (settles p) a) as (_ & -> & _).
Qed.

(** An event that is no trigger of entry [id] of agent [ref] leaves both the
    entry and the request as they were. *)
Lemma effect_frame ev ref a id :
  agent_wf a → trigger ev ref id = false →
  pending (transport_effect ev ref a) !! id = pending a !! id ∧
  requests (transport_effect ev ref a) !! id = requests a !! id.
Proof.
  intros [Hw1 Hw2] Ht.
  destruct ev as [input|h text sig|i|h|h mode|h| |i|r parsed|r i|r i err|r|r err];
    cbn [transport_effect trigger] in *; try done;
    case_bool_decide as Hr; try done; cbn [andb] in Ht.
  - (* a line *)
    destruct parsed as [msg|]; [|done]. unfold on_line.
    unfold is_response_for in Ht.
    destruct (has "id" msg) as [[]|]; destruct (has "method" msg) as [[]|];
      destruct (has "error" msg) as [has_error|]; cbn [andb]; try done;
      try (destruct (non_nullish (get msg "id")); by repeat case_match).
    destruct (non_nullish (get msg "id")) eqn:Hnn; [|by repeat case_match].
    destruct (get msg "id") as [| | |n| | |]; try done.
    apply bool_decide_eq_false in Ht.
    destruct (pending a !! n) as [p|] eqn:Hp; [|done].
    destruct (Hw1 _ _ Hp) as [Hs _].
    destruct has_error.
    + pose proof (entry_reject_pending p (RpcError (get msg "error"))
                    (set_pending (delete n) a)) as Hpe.
      pose proof (entry_reject_other p (RpcError (get msg "error"))
                    (set_pending (delete n) a) id) as Hre.
      destruct (entry_reject _ _ _) as [b rs]. cbn [fst] in *.
      rewrite Hpe, Hre by congruence. cbn. by rewrite lookup_delete_ne.
    + pose proof (entry_resolve_pending p (get msg "result")
                    (set_pending (delete n) a)) as Hpe.
      pose proof (entry_resolve_other p (get msg "result")
                    (set_pending (delete n) a) id) as Hre.
      destruct (entry_resolve _ _ _) as [b rs]. cbn [fst] in *.
      rewrite Hpe, Hre by congruence. cbn. by rewrite lookup_delete_ne.
  - (* a timeout *)
    apply bool_decide_eq_false in Ht. unfold on_timeout.
    destruct (requests a !! i) as [r'|] eqn:Hri; [|done].
    destruct (req_timer r'); try done.
    destruct (settle_fields i (Rejected (TimeoutError (req_method r')))
      (set_pending (delete i) (set_requests
         <[i:={| req_method := req_method r'; req_timer := Fired;
                 req_state := req_state r'; req_waiter := req_waiter r' |}]> a)))
      as (_ & -> & _).
    rewrite settle_other by done. cbn.
    by rewrite lookup_delete_ne, lookup_insert_ne.
  - (* a write error *)
    apply bool_decide_eq_false in Ht. unfold on_write_error.
    destruct (requests a !! i) as [r'|] eqn:Hri; [|done].
    destruct (settle_fields i (Rejected (SystemError err))
      (set_pending (delete i) (clear_timer i a))) as (_ & -> & _).
    rewrite settle_other by done. cbn.
    destruct (clear_timer_fields i a) as (_ & -> & _).
    by rewrite lookup_delete_ne, clear_timer_other.
Qed.

(** A request without a timer is not touched by a timeout. *)
Lemma effect_frame_untimed ev ref a id r :
  agent_wf a → requests a !! id = Some r → req_timer r = NoTimer →
  untimed_trigger ev ref id = false →
  pending (transport_effect ev ref a) !! id = pending a !! id ∧
  requests (transport_effect ev ref a) !! id = requests a !! id.
Proof.
  intros Hw Hr Ht Hu.
  destruct (trigger ev ref id) eqn:Htr; [|by apply effect_frame].
  destruct ev; cbn [untimed_trigger trigger] in Hu, Htr; try congruence.
  apply andb_true_iff in Htr as [H1%bool_decide_eq_true H2%bool_decide_eq_true].
  subst. cbn. rewrite bool_decide_eq_true_2 by done.
  by rewrite (on_timeout_untimed _ _ _ Hr Ht).
Qed.

Lemma is_present_true w ref id :
  is_present w ref id = true ↔
  ∃ a p, heap w !! ref = Some a ∧ pending a !! id = Some p.
Proof.
  unfold is_present. split.
  - destruct (heap w !! ref) as [a|]; [|done].
    intros [p Hp]%bool_decide_eq_true. by exists a, p.
  - intros (a & p & -> & Hp). apply bool_decide_eq_true. by eexists.
Qed.

Lemma is_present_false w ref id a :
  heap w !! ref = Some a → is_present w ref id = false → pending a !! id = None.
Proof.
  unfold is_present. intros -> H%bool_decide_eq_false.
  destruct (pending a !! id); [|done]. destruct H. by eexists.
Qed.

Lemma pending_lt a id p : agent_wf a → pending a !! id = Some p → (id < nextId a)%Z.
Proof.
  intros [H1 H2] Hp. destruct (H1 _ _ Hp) as [_ [r Hr]]. by destruct (H2 _ _ Hr).
Qed.

Lemma gone_step w ev ref id : heap_wf w → gone w ref id → gone (step w ev) ref id.
Proof.
  intros Hw (a & Ha & Hlt & Hp).
  destruct (step_agent w ev ref a Hw Ha) as (a' & Ha' & _ & Hle & _).
  destruct Hle as (Hn & Hpe & _). exists a'. split_and!; [done|lia|].
  destruct (Hpe id Hlt) as [?| ->]; done.
Qed.

Lemma gone_not_present w ref id : gone w ref id → is_present w ref id = false.
Proof.
  intros (a & Ha & _ & Hp). unfold is_present. rewrite Ha, Hp.
  apply bool_decide_eq_false. by intros [].
Qed.

Lemma removals_gone w tr ref id :
  heap_wf w → gone w ref id → removals ref id w tr = 0.
Proof.
  revert w. induction tr as [|ev tr IH]; intros w Hw Hg; [done|].
  cbn [removals]. unfold removed_at. rewrite (gone_not_present _ _ _ Hg).
  cbn [andb]. rewrite IH; [done|by apply step_heap_wf|by apply gone_step].
Qed.

Lemma removed_gone w ev ref id :
  heap_wf w → removed_at w ev ref id = true → gone (step w ev) ref id.
Proof.
  intros Hw [Hp Hn%negb_true_iff]%andb_true_iff.
  apply is_present_true in Hp as (a & p & Ha & Hp).
  destruct (step_agent w ev ref a Hw Ha) as (a' & Ha' & _ & Hle & _).
  exists a'. split_and!; [done| |by eapply is_present_false].
  pose proof (pending_lt _ _ _ (Hw _ _ Ha) Hp). destruct Hle. lia.
Qed.

(** An entry is taken out at most once. *)
Lemma removals_le_1 w tr ref id : heap_wf w → removals ref id w tr ≤ 1.
Proof.
  revert w. induction tr as [|ev tr IH]; intros w Hw; cbn [removals]; [lia|].
  destruct (removed_at w ev ref id) eqn:Hr.
  - rewrite removals_gone; [lia|by apply step_heap_wf|by apply removed_gone].
  - specialize (IH (step w ev) (step_heap_wf _ _ Hw)). lia.
Qed.

(** Only a trigger of the entry takes it out. *)
Lemma removed_trigger w ev ref id :
  heap_wf w → removed_at w ev ref id = true → trigger ev ref id = true.
Proof.
  intros Hw [Hp Hn%negb_true_iff]%andb_true_iff.
  apply is_present_true in Hp as (a & p & Ha & Hp).
  destruct (step_agent w ev ref a Hw Ha) as (a' & Ha' & _ & _ & Hf).
  pose proof (is_present_false _ _ _ _ Ha' Hn) as Hnone.
  destruct (trigger ev ref id) eqn:Ht; [done|].
  destruct (effect_frame ev ref a id (Hw _ _ Ha) Ht) as [He _].
  destruct (transport_le_effect ev ref a) as (Hnext & _).
  destruct (Hf id) as [Hp' _].
  { rewrite Hnext. eapply pending_lt; [by eapply Hw|done]. }
  congruence.
Qed.

(** A settled promise stays settled the way it was. *)
Lemma settled_step w ev ref id o :
  heap_wf w → settled w ref id = Some o → settled (step w ev) ref id = Some o.
Proof.
  intros Hw. unfold settled.
  destruct (heap w !! ref) as [a|] eqn:Ha; [|done]. cbn.
  destruct (requests a !! id) as [r|] eqn:Hr; [|done]. cbn. intros Hs.
  destruct (step_agent w ev ref a Hw Ha) as (a' & Ha' & _ & Hle & _).
  destruct Hle as (_ & _ & Hreq & _).
  destruct (Hreq _ _ Hr) as (r' & Hr' & _ & _ & Hst & _).
  rewrite Ha'. cbn. rewrite Hr'. cbn. by apply Hst.
Qed.

Lemma settled_run w tr ref id o :
  heap_wf w → settled w ref id = Some o → settled (run w tr) ref id = Some o.
Proof.
  revert w. induction tr as [|ev tr IH]; intros w Hw Hs; [done|].
  apply IH; [by apply step_heap_wf|by apply settled_step].
Qed.

(** C9, amended: along every run, an entry of a pending map is taken out at
    most once; the step that takes it out is a response carrying its id, the
    timeout of its request, an error of its write, the [close] event or the
    [error] event of the child; and the promise of a request, once settled,
    stays settled with the same outcome whatever happens next. *)
Theorem pending_entry_lifecycle (cfg : ResolvedStandardAcpConfig) (tr : list event) :
  (∀ ref id, removals ref id (new_runtime cfg) tr ≤ 1) ∧
  removed_only_by trigger cfg tr ∧
  (∀ tr1 tr2 ref id o,
     tr = tr1 ++ tr2 →
     settled (run (new_runtime cfg) tr1) ref id = Some o →
     settled (run (new_runtime cfg) tr) ref id = Some o).
Proof.
  split_and!.
  - intros ref id. apply removals_le_1, new_runtime_heap_wf.
  - intros tr1 ev tr2 ref id _. apply removed_trigger.
    apply run_heap_wf, new_runtime_heap_wf.
  - intros tr1 tr2 ref id o -> Hs. rewrite run_app. apply settled_run; [|done].
    apply run_heap_wf, new_runtime_heap_wf.
Qed.

(** The run of the counterexample: the handshake starts and the child
    reports a spawn error. *)
Lemma pending_entry_lifecycle_witness :
  let tr := [CallEnsureSession example_input;
             ChildError 0 "spawn kiro-cli ENOENT";
             StdoutLine 0 (response 1 JNull); ChildClose 0] in
  removals 0 1 (new_runtime example_config) tr ≤ 1 ∧
  settled (run (new_runtime example_config) tr) 0 1
    = Some (Rejected (SystemError "spawn kiro-cli ENOENT")).
Proof.
  cbv zeta. split.
  - apply (pending_entry_lifecycle example_config).
  - eapply (pending_entry_lifecycle example_config _)
      with (tr1 := [CallEnsureSession example_input;
                    ChildError 0 "spawn kiro-cli ENOENT"]);
      [reflexivity|vm_compute; reflexivity].
Defined.

(** C9 as stated fails on the [error] event of the child: its handler
    rejects and clears the pending map, and it is none of the four triggers
    the claim lists. *)
Lemma error_event_removes_counterexample :
  let w := run (new_runtime example_config) [CallEnsureSession example_input] in
  let ev := ChildError 0 "spawn kiro-cli ENOENT" in
  (is_present w 0 1 = true ∧
   is_present (step w ev) 0 1 = false ∧
   listed_trigger ev 0 1 = false) ∧
  ¬ removed_only_by listed_trigger example_config
      [CallEnsureSession example_input; ev].
Proof.
  cbv zeta. split.
  - split_and!; vm_compute; reflexivity.
  - intros H.
    specialize (H [CallEnsureSession example_input]
                  (ChildError 0 "spawn kiro-cli ENOENT") [] 0 1%Z eq_refl).
    assert (false = true) as Hf; [|discriminate Hf].
    apply H. vm_compute. reflexivity.
Qed.

(** ** Timeouts *)

(** C7, amended: [sendRequest] arms a 30-second timer exactly for
    [initialize], [session/new], [session/cancel] and [session/set_mode];
    when the timer of a pending request expires, its entry is removed and its
    promise rejected with an error whose message ends with the method; a
    request of any other method, [session/prompt] among them, carries no
    timer: an expiry does nothing to it, and along every run each event
    other than a response carrying its id, an error of its write, the [close]
    event or the [error] event of its child leaves its entry and its promise
    as they were. *)
Theorem sendRequest_timeout_policy
    (method : string) (params : jsval) (k : waiter) (a : AgentProcess) :
  let id := nextId a in
  let a1 := sendRequest method params k a in
  requests a1 !! id =
    Some {| req_method := method;
            req_timer :=
              if bool_decide (method ∈ ["initialize"; "session/new";
                                        "session/cancel"; "session/set_mode"])
              then Armed 30000 else NoTimer;
            req_state := None; req_waiter := k |} ∧
  pending a1 !! id = Some {| settles := id |} ∧
  (method ∈ CONTROL_METHODS →
     ∃ a2, on_timeout id a1 = (a2, [(k, Rejected (TimeoutError method))]) ∧
           pending a2 !! id = None ∧
           (req_state <$> requests a2 !! id)
             = Some (Some (Rejected (TimeoutError method))) ∧
           error_message (TimeoutError method)
             = "JSON-RPC request timed out: " +:+ method) ∧
  (method ∉ CONTROL_METHODS → on_timeout id a1 = (a1, [])) ∧
  (∀ cfg tr, untimed_settled_only_by untimed_trigger cfg tr).
Proof.
  intros id a1.
  assert (requests a1 !! id =
    Some {| req_method := method;
            req_timer :=
              if bool_decide (method ∈ ["initialize"; "session/new";
                                        "session/cancel"; "session/set_mode"])
              then Armed 30000 else NoTimer;
            req_state := None; req_waiter := k |}) as Hreq.
  { subst a1 id. unfold sendRequest. cbn. rewrite lookup_insert_eq.
    unfold CONTROL_METHODS, CONTROL_TIMEOUT_MS. by case_bool_decide. }
  split_and!.
  - exact Hreq.
  - subst a1 id. unfold sendRequest. cbn. by rewrite lookup_insert_eq.
  - intros Hin. unfold on_timeout. rewrite Hreq.
    rewrite bool_decide_eq_true_2 by done. cbn [req_timer req_method req_state req_waiter].
    unfold settle. cbn. rewrite lookup_insert_eq. cbn.
    eexists. split; [reflexivity|]. cbn.
    rewrite lookup_delete_eq, lookup_insert_eq. done.
  - intros Hnin. eapply on_timeout_untimed; [exact Hreq|].
    cbn. by rewrite bool_decide_eq_false_2.
  - intros cfg tr ev ref b b' i r Hb Hr Hm Hu Hb'.
    pose proof (run_heap_wf _ tr (new_runtime_heap_wf cfg)) as Hw.
    destruct (step_agent _ ev ref b Hw Hb) as (b'' & Hb'' & _ & _ & Hf).
    assert (b'' = b') as -> by congruence.
    pose proof (Hw _ _ Hb) as Hwb. destruct (Hwb) as [_ Hw2].
    destruct (Hw2 _ _ Hr) as [Hlt Ht].
    destruct (effect_frame_untimed ev ref b i r Hwb Hr (proj2 Ht Hm) Hu)
      as [<- <-].
    apply Hf. destruct (transport_le_effect ev ref b) as (-> & _). done.
Qed.

Lemma sendRequest_timeout_policy_witness :
  let a := new_agent example_config "s1" in
  (∃ a2, on_timeout 1 (sendRequest "initialize" initialize_params HostCall a)
           = (a2, [(HostCall, Rejected (TimeoutError "initialize"))])) ∧
  on_timeout 1 (sendRequest "session/prompt" JNull HostCall a)
    = (sendRequest "session/prompt" JNull HostCall a, []).
Proof.
  cbv zeta. split.
  - destruct (sendRequest_timeout_policy "initialize" initialize_params HostCall
                (new_agent example_config "s1"))
      as (_ & _ & Hctl & _).
    destruct Hctl as (a2 & H & _); [by vm_compute; left|]. by exists a2.
  - apply (sendRequest_timeout_policy "session/prompt" JNull HostCall
             (new_agent example_config "s1")).
    vm_compute. intros H. repeat (inversion H as [|? ? ? H']; subst; clear H; rename H' into H).
Defined.

(** C7 as stated fails on the [error] event of the child: a turn awaits
    its [session/prompt], which carries no timer; the child reports an error
    (a signal it could not be sent), which is no response, no error of a
    write and no exit of the process; the handler takes the entry of the
    prompt out and rejects its promise. *)
Lemma untimed_request_error_event_counterexample :
  let w := run (new_runtime example_config) example_awaiting_turn in
  let ev := ChildError 0 "kill EPERM" in
  ((req_method <$> (heap w !! 0 ≫= λ a, requests a !! 3%Z))
     = Some "session/prompt" ∧
   is_present w 0 3 = true ∧ settled w 0 3 = None ∧
   listed_untimed_trigger ev 0 3 = false ∧
   is_present (step w ev) 0 3 = false ∧
   settled (step w ev) 0 3 = Some (Rejected (SystemError "kill EPERM"))) ∧
  ¬ untimed_settled_only_by listed_untimed_trigger example_config
      example_awaiting_turn.
Proof.
  cbv zeta. split.
  - split_and!; vm_compute; reflexivity.
  - intros H.
    set (w := run (new_runtime example_config) example_awaiting_turn) in *.
    set (b := default (new_agent example_config "") (heap w !! 0)).
    set (b' := default (new_agent example_config "")
                 (heap (step w (ChildError 0 "kill EPERM")) !! 0)).
    set (r := default {| req_method := ""; req_timer := NoTimer;
                         req_state := None; req_waiter := HostCall |}
                (requests b !! 3%Z)).
    destruct (H (ChildError 0 "kill EPERM") 0 b b' 3%Z r) as [Hpending _];
      try (vm_compute; reflexivity).
    + vm_compute. intros Hin.
      repeat (inversion Hin as [|? ? ? Hin']; subst; clear Hin;
              rename Hin' into Hin).
    + vm_compute in Hpending. discriminate Hpending.
Qed.

(** ** The turn engine *)

Lemma filter_nonterminal_snoc l e :
  filter nonterminal (l ++ [e]) =
    filter nonterminal l ++ (if terminal e then [] else [e]).
Proof.
  rewrite filter_app. f_equal. unfold nonterminal.
  destruct (terminal e) eqn:He; cbn; case_decide; congruence.
Qed.

Ltac inv_split := unfold turn_inv; cbn -[filter]; split; [|split].

(** Appending an event to the buffer and waking the generator. *)
Lemma push_wake_inv e t rcv :
  turn_inv t →
  rcv = received t ++ (if terminal e then [] else [e]) →
  turn_inv
    (wake {| turn_handle := turn_handle t; turn_text := turn_text t;
             signal := signal t; pc := pc t; turn_agent := turn_agent t;
             events := events t ++ [e]; done_ := done_ t;
             on_close := on_close t; on_abort := on_abort t;
             yielded := yielded t; received := rcv |}).
Proof.
  intros (HQ & HA & HT) ->. unfold wake, turn_inv in *. cbn [pc].
  destruct (pc t) eqn:Hpc; cbn -[filter]; rewrite ?Hpc;
    try (split; [|split; [exact HA|exact HT]]; intros Hag;
         by rewrite app_assoc, filter_nonterminal_snoc, HQ).
  (* the generator was waiting *)
  destruct HT as (Hev & Hd & Hy & Hl). unfold loop. cbn -[filter].
  rewrite Hd, Hev. cbn -[filter]. split; [|split].
  - intros Hag. rewrite app_nil_r, filter_nonterminal_snoc, <- HQ by done.
    by rewrite Hev, app_nil_r.
  - intros Hag. destruct Hl as [[r Hr] _]. congruence.
  - split_and!; [done|done|]. by exists (yielded t).
Qed.

Lemma sink_inv e t : nonterminal e → turn_inv t → turn_inv (sink e t).
Proof.
  intros He Ht. unfold sink, push. cbn.
  apply push_wake_inv; [done|]. by rewrite He.
Qed.

Lemma push_unless_done_inv e t :
  terminal e = true → turn_inv t → turn_inv (push_unless_done e t).
Proof.
  intros He Ht. unfold push_unless_done. destruct (done_ t); [done|].
  unfold push. apply push_wake_inv; [done|]. by rewrite He, app_nil_r.
Qed.

Lemma resume_inv e t : pc t = LoopYield e → turn_inv t → turn_inv (resume e t).
Proof.
  intros Hpc (HQ & HA & HT). unfold turn_inv in HT. rewrite Hpc in HT.
  destruct HT as (Hd & Hl & pre & Hy & Hpre).
  assert (turn_agent t ≠ None) as Hag
    by (destruct Hl as [[r Hr] _]; congruence).
  unfold resume, loop. destruct (terminal e) eqn:He.
  - inv_split; [done|done|]. by exists pre, e.
  - rewrite Hd. destruct (events t) as [|e' rest] eqn:Hev.
    + inv_split; [by rewrite Hev|done|].
      split_and!; [done|done| |done].
      rewrite Hy. apply Forall_app. split; [done|]. by constructor.
    + inv_split.
      * intros _. rewrite <- HQ by done. by rewrite <- app_assoc.
      * done.
      * split_and!; [done|done|]. exists (yielded t). split; [done|].
        rewrite Hy. apply Forall_app. split; [done|]. by constructor.
Qed.

(** Every operation keeps the invariant of a turn. *)
Lemma turn_op_inv t t' : turn_op t t' → turn_inv t → turn_inv t'.
Proof.
  intros Hop Ht.
  destruct Hop as [e t He|e t He|t|t Hs|t Hpc|t Hpc|ref t Hpc|t Hpc|e t Hpc].
  - by apply sink_inv.
  - by apply push_unless_done_inv.
  - destruct Ht as (HQ & HA & HT). inv_split; [done|done|].
    unfold turn_inv in HT.
    destruct (pc t); try done; unfold listening in *; cbn;
      [destruct HT as (?&?&?&?&?&?)|destruct HT as (?&(?&?&?)&?)];
      by split_and!.
  - destruct Ht as (HQ & HA & HT). inv_split; [done|done|].
    unfold turn_inv in HT.
    destruct (pc t); try done; unfold listening in *; cbn; rewrite Hs;
      [destruct HT as (?&?&?&?&?&?)|destruct HT as (?&(?&?&?)&?)];
      by split_and!.
  - destruct Ht as (HQ & HA & HT). unfold turn_inv in HT. rewrite Hpc in HT.
    destruct HT as [Hy Hag]. inv_split; [done|by rewrite Hy|by rewrite Hy].
  - destruct Ht as (HQ & HA & HT). unfold turn_inv in HT. rewrite Hpc in HT.
    destruct HT as [Hy Hag]. inv_split; by auto.
  - destruct Ht as (HQ & HA & HT). unfold turn_inv in HT. rewrite Hpc in HT.
    destruct HT as [Hy Hag]. unfold loop, begin. cbn [done_ events].
    inv_split; [by rewrite Hy|done|]. rewrite Hy.
    split_and!; try done. unfold listening. cbn.
    split_and!; [by eexists|done|]. intros ->. by apply bool_decide_eq_true.
  - destruct Ht as (HQ & HA & HT). unfold turn_inv in HT. rewrite Hpc in HT.
    inv_split; [done|done|]. by exists [], (Done (JStr "cancelled")).
  - by apply resume_inv.
Qed.

Lemma turn_ops_inv t t' : rtc turn_op t t' → turn_inv t → turn_inv t'.
Proof. induction 1; eauto using turn_op_inv. Qed.

Lemma new_turn_inv h text sig : turn_inv (new_turn h text sig).
Proof. split_and!; cbn; by auto. Qed.

(** A generator that has ended yields nothing more. *)
Lemma turn_op_ended t t' :
  turn_op t t' → ended t → ended t' ∧ yielded t' = yielded t.
Proof.
  intros Hop Hend.
  assert (∀ t, ended t → wake t = t) as Hwake.
  { intros t0 [H|[e H]]; unfold wake; by rewrite H. }
  assert (∀ e t rcv, ended t →
            let t1 := {| turn_handle := turn_handle t; turn_text := turn_text t;
                         signal := signal t; pc := pc t;
                         turn_agent := turn_agent t;
                         events := events t ++ [e]; done_ := done_ t;
                         on_close := on_close t; on_abort := on_abort t;
                         yielded := yielded t; received := rcv |} in
            ended (wake t1) ∧ yielded (wake t1) = yielded t) as Hpush.
  { intros e t0 rcv H t1. assert (ended t1) as H1 by done.
    rewrite (Hwake _ H1). done. }
  destruct Hop as [e t He|e t He|t|t Hs|t Hpc|t Hpc|ref t Hpc|t Hpc|e t Hpc];
    try (destruct Hend as [H|[? H]]; congruence); try done.
  - by apply (Hpush e t (received t ++ [e])).
  - unfold push_unless_done. destruct (done_ t); [done|].
    by apply (Hpush e t (received t)).
Qed.

Lemma turn_ops_ended t t' :
  rtc turn_op t t' → ended t → ended t' ∧ yielded t' = yielded t.
Proof.
  induction 1 as [|t1 t2 t3 H12 H23 IH]; [done|]. intros H1.
  destruct (turn_op_ended _ _ H12 H1) as [H2 <-]. by apply IH.
Qed.

(** ** How the event loop changes the generators *)

Lemma turns_move_same w w' : turns w' = turns w → turns_move w w'.
Proof.
  intros H i. rewrite H. destruct (turns w !! i); by constructor.
Qed.

Lemma turns_move_refl w : turns_move w w.
Proof. by apply turns_move_same. Qed.

Lemma turns_move_trans w1 w2 w3 :
  turns_move w1 w2 → turns_move w2 w3 → turns_move w1 w3.
Proof.
  intros H1 H2 i. specialize (H1 i). specialize (H2 i).
  destruct H1; inversion H2; simplify_eq; constructor. by etrans.
Qed.

Lemma turns_move_update_turn i f w :
  (∀ t, turns w !! i = Some t → rtc turn_op t (f t)) →
  turns_move w (update_turn i f w).
Proof.
  intros Hf j. cbn. rewrite list_lookup_alter. case_decide; simplify_eq.
  - destruct (turns w !! j) eqn:E; constructor. by apply Hf.
  - destruct (turns w !! j); by constructor.
Qed.

Lemma turns_move_update_turn_1 i f w :
  (∀ t, turn_op t (f t)) → turns_move w (update_turn i f w).
Proof.
  intros Hf. apply turns_move_update_turn. intros t _. by apply rtc_once.
Qed.

Lemma turns_move_update_agent ref f w : turns_move w (update_agent ref f w).
Proof. by apply turns_move_same. Qed.

Lemma turns_move_push i e w :
  terminal e = true → turns_move w (update_turn i (push_unless_done e) w).
Proof. intros He. apply turns_move_update_turn_1. intros t. by constructor. Qed.

Lemma turns_fresh_init key input w : turns (fresh_init key input w).1 = turns w.
Proof. by rewrite fresh_init_eq. Qed.

Lemma turns_ensureSession input w : turns (ensureSession input w).1 = turns w.
Proof.
  unfold ensureSession. repeat case_match; simplify_eq; cbn [fst]; try done;
    by rewrite turns_fresh_init.
Qed.

Lemma turns_cancel h k w : turns (cancel h k w) = turns w.
Proof. unfold cancel. by repeat case_match. Qed.

Lemma turns_setMode h mode w : turns (setMode h mode w) = turns w.
Proof. unfold setMode. by repeat case_match. Qed.

Lemma turns_close h w : turns (close h w) = turns w.
Proof. unfold close. by repeat case_match. Qed.

Lemma turns_closeAll w : turns (closeAll w) = turns w.
Proof.
  unfold closeAll. cbn.
  by apply (map_fold_weak_ind (λ w' _, turns w' = turns w)).
Qed.

Lemma turns_move_react agent k o w : turns_move w (react agent k o w).
Proof.
  destruct k, o; cbn [react]; try apply turns_move_refl;
    try (by apply turns_move_same); by apply turns_move_push.
Qed.

Lemma turns_move_run_reactions agent rs w :
  turns_move w (run_reactions agent rs w).
Proof.
  revert w. induction rs as [|r rs IH]; intros w; cbn; [apply turns_move_refl|].
  eapply turns_move_trans; [apply turns_move_react|apply IH].
Qed.

(** What the line handler hands to the sink came out of the mapper. *)
Lemma on_line_event parsed a e :
  (on_line parsed a).2 = Some e →
  ∃ msg, parsed = Some msg ∧
         mapNotificationToEvent (get msg "params") = Some e.
Proof.
  unfold on_line. destruct parsed as [msg|]; [|done].
  intros H. exists msg. split; [done|].
  repeat case_match; simplify_eq; cbn in *; done.
Qed.

Lemma turns_move_stdout_line ref parsed w :
  turns_move w (stdout_line ref parsed w).
Proof.
  unfold stdout_line. destruct (heap w !! ref) as [a|]; [|apply turns_move_refl].
  destruct (on_line parsed a) as [[a' rs] ev] eqn:Hl.
  eapply turns_move_trans; [|apply turns_move_run_reactions].
  eapply turns_move_trans; [apply (turns_move_update_agent ref (λ _, a'))|].
  destruct ev as [e|]; [|apply turns_move_refl].
  destruct (notifications a) as [t|]; [|apply turns_move_refl].
  apply turns_move_update_turn_1. intros t0. constructor.
  destruct (on_line_event parsed a e) as (msg & _ & Hm); [by rewrite Hl|].
  by eapply mapNotificationToEvent_not_terminal.
Qed.

Lemma turns_move_timeout ref id w : turns_move w (timeout ref id w).
Proof.
  unfold timeout. destruct (heap w !! ref) as [a|]; [|apply turns_move_refl].
  destruct (on_timeout id a) as [a' rs].
  eapply turns_move_trans; [|apply turns_move_run_reactions].
  apply turns_move_update_agent.
Qed.

Lemma turns_move_write_error ref id err w :
  turns_move w (write_error ref id err w).
Proof.
  unfold write_error. destruct (heap w !! ref) as [a|]; [|apply turns_move_refl].
  destruct (on_write_error id (SystemError err) a) as [a' rs].
  eapply turns_move_trans; [|apply turns_move_run_reactions].
  apply turns_move_update_agent.
Qed.

Lemma onClose_ops ref t : rtc turn_op t (onClose ref t).
Proof.
  unfold onClose. case_match; [|done]. apply rtc_once. by constructor.
Qed.

Lemma turns_move_child_close ref w : turns_move w (child_close ref w).
Proof.
  unfold child_close. destruct (heap w !! ref) as [a|]; [|apply turns_move_refl].
  destruct (reject_all ExitedError a) as [a' rs].
  eapply turns_move_trans; [|apply turns_move_run_reactions].
  intros i. cbn. rewrite list_lookup_fmap.
  assert (turns (unregister_if_same (agent_key a) ref
                   (update_agent ref (λ _, a') w)) = turns w) as ->.
  { unfold unregister_if_same. by case_match. }
  destruct (turns w !! i); constructor. apply onClose_ops.
Qed.

Lemma turns_move_child_error ref err w : turns_move w (child_error ref err w).
Proof.
  unfold child_error. destruct (heap w !! ref) as [a|]; [|apply turns_move_refl].
  destruct (reject_all (SystemError err) a) as [a' rs].
  eapply turns_move_trans; [|apply turns_move_run_reactions].
  apply turns_move_same. unfold unregister_if_same. by case_match.
Qed.

Lemma turns_runTurn_start_begin i t ref agent w :
  lookup_agent w (handle_sessionKey (turn_handle t)) = Some (ref, agent) →
  signal t ≠ Some true →
  turns (runTurn_start i t w) = alter (loop ∘ begin ref) i (turns w).
Proof.
  intros Hl Hs. unfold runTurn_start. rewrite Hl.
  destruct (signal t) as [[]|]; [done| |]; cbn; by rewrite list_alter_alter_eq.
Qed.

Lemma runTurn_start_throw i t w :
  lookup_agent w (handle_sessionKey (turn_handle t)) = None →
  signal t ≠ Some true →
  runTurn_start i t w =
    update_turn i (set_pc (Threw (AcpRuntimeError "ACP_TURN_FAILED"
                                    "No agent process for session."))) w.
Proof.
  intros Hl Hs. unfold runTurn_start. rewrite Hl.
  by destruct (signal t) as [[]|].
Qed.

Lemma turns_move_next i w : turns_move w (next i w).
Proof.
  unfold next. destruct (turns w !! i) as [t|] eqn:Ht; [|apply turns_move_refl].
  destruct (pc t) eqn:Hpc; try apply turns_move_refl.
  - (* the body is entered *)
    destruct (decide (signal t = Some true)) as [Hs|Hs].
    + unfold runTurn_start. rewrite Hs.
      apply turns_move_update_turn. intros t' ?. simplify_eq.
      apply rtc_once. by constructor.
    + destruct (lookup_agent w (handle_sessionKey (turn_handle t)))
        as [[ref agent]|] eqn:Hl.
      * intros j. rewrite (turns_runTurn_start_begin _ _ _ _ _ Hl Hs).
        rewrite list_lookup_alter. case_decide; simplify_eq.
        -- rewrite Ht. constructor. apply rtc_once. by constructor.
        -- destruct (turns w !! j); by constructor.
      * rewrite (runTurn_start_throw _ _ _ Hl Hs).
        apply turns_move_update_turn. intros t' ?. simplify_eq.
        apply rtc_once. by constructor.
  - apply turns_move_update_turn. intros t' ?. simplify_eq.
    apply rtc_once. by constructor.
  - eapply turns_move_trans.
    + apply (turns_move_update_turn i (λ _, resume e t)).
      intros t' ?. simplify_eq. apply rtc_once. by constructor.
    + repeat case_match; try apply turns_move_refl.
      apply turns_move_update_agent.
Qed.

Lemma turns_move_abort i w : turns_move w (abort i w).
Proof.
  unfold abort. destruct (turns w !! i) as [t|] eqn:Ht; [|apply turns_move_refl].
  destruct (signal t) as [[]|]; try apply turns_move_refl.
  destruct (on_abort t).
  - eapply turns_move_trans; [|by apply turns_move_push].
    eapply turns_move_trans; [|apply turns_move_same, turns_cancel].
    eapply turns_move_trans.
    + apply (turns_move_update_turn_1 i (set_signal (Some true))). constructor.
    + apply turns_move_update_turn. intros t' Ht'. apply rtc_once.
      constructor. cbn in Ht'. rewrite list_lookup_alter_eq, Ht in Ht'.
      by simplify_eq/=.
  - apply turns_move_update_turn_1. constructor.
Qed.

(** Every step of the event loop, seen from the generators. *)
Lemma step_turns w ev : turns_evolve w (step w ev).
Proof.
  assert (∀ w', turns_move w w' → turns_evolve w w') as Hmove.
  { intros w' H i t' Ht'. specialize (H i). rewrite Ht' in H.
    inversion H. by simplify_eq. }
  destruct ev as [input|h text sig|i|h|h mode|h| |i|r parsed|r id|r id err|r|r err];
    cbn [step]; [apply Hmove| |apply Hmove..].
  - apply turns_move_same, turns_ensureSession.
  - intros i t'. cbn. intros Ht'.
    destruct (turns w !! i) as [t|] eqn:Ht.
    + rewrite lookup_app_l in Ht' by (by eapply lookup_lt_Some).
      by simplify_eq.
    + apply lookup_ge_None_1 in Ht. rewrite lookup_app_r in Ht' by done.
      destruct (i - length (turns w)); simplify_eq/=. by eauto.
  - apply turns_move_next.
  - apply turns_move_same, turns_cancel.
  - apply turns_move_same, turns_setMode.
  - apply turns_move_same, turns_close.
  - apply turns_move_same, turns_closeAll.
  - apply turns_move_abort.
  - apply turns_move_stdout_line.
  - apply turns_move_timeout.
  - apply turns_move_write_error.
  - apply turns_move_child_close.
  - apply turns_move_child_error.
Qed.

Lemma run_turn_inv cfg tr i t :
  turns (run (new_runtime cfg) tr) !! i = Some t → turn_inv t.
Proof.
  revert i t. induction tr as [|ev tr IH] using rev_ind; intros i t.
  - by destruct i.
  - rewrite run_snoc. intros Ht. pose proof (step_turns _ ev _ _ Ht) as H.
    destruct (turns (run (new_runtime cfg) tr) !! i) as [t0|] eqn:Ht0.
    + eapply turn_ops_inv; [exact H|]. by eapply IH.
    + destruct H as (h & text & sig & ->). apply new_turn_inv.
Qed.

(** *** Termination of a turn *)

Lemma push_unless_done_closing e t :
  turn_inv t → running t → terminal e = true → closing (push_unless_done e t).
Proof.
  intros (_ & _ & HT) Hrun He. unfold turn_inv in HT.
  unfold push_unless_done, push, wake. destruct Hrun as [Hpc|[e0 Hpc]];
    rewrite Hpc in HT.
  - destruct HT as (Hev & -> & _). cbn. rewrite Hpc. unfold loop. cbn.
    rewrite Hev. cbn. right. exists e. by split; [|left].
  - destruct HT as (-> & _). cbn. rewrite Hpc. right. exists e0.
    split; [done|]. right. cbn. apply Exists_app. right. by constructor.
Qed.

Lemma wake_closing t :
  closing t → wake t = t.
Proof. intros [H|(e & H & _)]; unfold wake; by rewrite H. Qed.

Lemma turn_op_closing t t' : turn_inv t → closing t → turn_op t t' → closing t'.
Proof.
  intros Hinv Hc Hop.
  assert (∀ e rcv dn,
            closing
              (wake {| turn_handle := turn_handle t; turn_text := turn_text t;
                       signal := signal t; pc := pc t;
                       turn_agent := turn_agent t;
                       events := events t ++ [e]; done_ := dn;
                       on_close := on_close t; on_abort := on_abort t;
                       yielded := yielded t; received := rcv |})) as Hpush.
  { intros e rcv dn.
    set (t1 := {| turn_handle := turn_handle t; turn_text := turn_text t;
                  signal := signal t; pc := pc t;
                  turn_agent := turn_agent t;
                  events := events t ++ [e]; done_ := dn;
                  on_close := on_close t; on_abort := on_abort t;
                  yielded := yielded t; received := rcv |}).
    assert (closing t1) as H1.
    { destruct Hc as [H|(e0 & H & Ht)]; [by left|]. right. exists e0.
      split; [done|]. destruct Ht as [?|Ht]; [by left|right].
      cbn. apply Exists_app. by left. }
    by rewrite (wake_closing _ H1). }
  destruct Hop as [e t He|e t He|t|t Hs|t Hpc|t Hpc|ref t Hpc|t Hpc|e t Hpc];
    try (destruct Hc as [H|(? & H & _)]; congruence); try done.
  - apply (Hpush e (received t ++ [e]) (done_ t)).
  - unfold push_unless_done. case_match; [done|].
    apply (Hpush e (received t) (done_ t)).
  - destruct Hc as [H|(e0 & H & Ht)]; [congruence|].
    assert (e0 = e) as -> by congruence.
    destruct Hinv as (_ & _ & HT). unfold turn_inv in HT. rewrite Hpc in HT.
    destruct HT as (Hd & _). unfold resume, loop.
    destruct (terminal e) eqn:He; [by left|].
    destruct Ht as [?|Ht]; [done|]. rewrite Hd.
    destruct (events t) as [|e' rest]; [by apply Exists_nil in Ht|].
    apply Exists_cons in Ht. right. exists e'. by split.
Qed.

Lemma turn_ops_closing t t' :
  rtc turn_op t t' → turn_inv t → closing t → closing t'.
Proof.
  induction 1 as [|t1 t2 t3 H12 H23 IH]; [done|]. intros Hinv Hc.
  apply IH; [by eapply turn_op_inv|by eapply turn_op_closing].
Qed.

Lemma pull_ops t : rtc turn_op t (pull t).
Proof.
  unfold pull. destruct (pc t) eqn:Hpc; try done. apply rtc_once. by constructor.
Qed.

(** Enough pulls drain the buffer down to the terminal event. *)
Lemma drain t :
  turn_inv t → closing t →
  pc (Nat.iter (S (length (events t))) pull t) = Finished.
Proof.
  assert (∀ n t, pc t = Finished → pc (Nat.iter n pull t) = Finished) as Hfin.
  { induction n as [|n IH]; intros t0 H; [done|].
    rewrite Nat.iter_succ_r. apply IH. unfold pull. by rewrite H. }
  remember (length (events t)) as n eqn:Hn.
  revert t Hn. induction n as [|n IH]; intros t Hn Hinv Hc.
  - destruct Hc as [H|(e & Hpc & Ht)]; [by apply Hfin|].
    destruct (events t); [|done]. destruct Ht as [He|Ht];
      [|by apply Exists_nil in Ht].
    cbn. unfold pull. rewrite Hpc. unfold resume, loop. by rewrite He.
  - rewrite Nat.iter_succ_r.
    destruct Hc as [H|(e & Hpc & Ht)];
      [apply Hfin; unfold pull; by rewrite H|].
    destruct (terminal e) eqn:He.
    + apply Hfin. unfold pull. rewrite Hpc. unfold resume, loop. by rewrite He.
    + destruct Ht as [?|Ht]; [done|].
      pose proof Hinv as (_ & _ & HT). unfold turn_inv in HT. rewrite Hpc in HT.
      destruct HT as (Hd & _).
      destruct (events t) as [|e' rest] eqn:Hev; [done|].
      assert (pull t = resume e t) as Hp by (unfold pull; by rewrite Hpc).
      apply IH.
      * rewrite Hp. unfold resume, loop. rewrite He, Hd, Hev. cbn.
        cbn in Hn. lia.
      * eapply turn_ops_inv; [apply pull_ops|done].
      * eapply turn_ops_closing; [apply pull_ops|done|].
        right. exists e. split; [done|]. right. by rewrite Hev.
Qed.

Lemma next_pull i t w :
  turns w !! i = Some t → pc t ≠ NotStarted → pc t ≠ PreAbortYield →
  turns (next i w) !! i = Some (pull t).
Proof.
  intros Ht H1 H2. unfold next, pull. rewrite Ht.
  destruct (pc t) eqn:Hpc; try done.
  assert (turns (update_turn i (λ _, resume e t) w) !! i = Some (resume e t))
    as Hr by (cbn; by rewrite list_lookup_alter_eq, Ht).
  by repeat case_match.
Qed.

Lemma closing_pc t : closing t → pc t ≠ NotStarted ∧ pc t ≠ PreAbortYield.
Proof. intros [H|(e & H & _)]; rewrite H; by split. Qed.

Lemma pulls_run i n t w :
  turns w !! i = Some t → turn_inv t → closing t →
  turns (run w (replicate n (CallNext i))) !! i = Some (Nat.iter n pull t).
Proof.
  revert t w. induction n as [|n IH]; intros t w Ht Hinv Hc; [done|].
  rewrite Nat.iter_succ_r. cbn [replicate]. unfold run. cbn [foldl step].
  destruct (closing_pc _ Hc) as [H1 H2].
  apply IH; [by apply next_pull| |].
  - eapply turn_ops_inv; [apply pull_ops|done].
  - eapply turn_ops_closing; [apply pull_ops|done|done].
Qed.

(** A generator that has ended yielded nothing more than what the invariant
    tells. *)
Lemma turn_inv_finished t : turn_inv t → pc t = Finished → one_terminal_last t.
Proof.
  intros (HQ & HA & HT) Hpc. unfold turn_inv in HT. rewrite Hpc in HT.
  destruct HT as (pre & e & Hy & He & Hpre). exists pre, e.
  split_and!; [done|done|done|].
  destruct (turn_agent t) eqn:Hag.
  - rewrite <- HQ by done. rewrite Hy, <- !app_assoc, filter_app.
    assert (filter nonterminal pre = pre) as ->.
    { clear -Hpre. induction Hpre as [|x l Hx _ IH]; [done|].
      rewrite filter_cons_True by done. by rewrite IH. }
    by apply prefix_app_r.
  - (* only the short circuit ends without an agent *)
    destruct pre as [|x pre]; [apply prefix_nil|].
    specialize (HA eq_refl). rewrite Hy in HA. cbn in HA.
    rewrite length_app in HA. cbn in HA. lia.
Qed.

(** *** What sets the end of a turn in motion *)

Lemma step_turns_move w ev :
  (∀ h text sig, ev ≠ CallRunTurn h text sig) → turns_move w (step w ev).
Proof.
  intros Hne.
  destruct ev as [input|h text sig|i|h|h mode|h| |i|r parsed|r id|r id err|r|r err];
    cbn [step].
  - apply turns_move_same, turns_ensureSession.
  - by destruct (Hne h text sig).
  - apply turns_move_next.
  - apply turns_move_same, turns_cancel.
  - apply turns_move_same, turns_setMode.
  - apply turns_move_same, turns_close.
  - apply turns_move_same, turns_closeAll.
  - apply turns_move_abort.
  - apply turns_move_stdout_line.
  - apply turns_move_timeout.
  - apply turns_move_write_error.
  - apply turns_move_child_close.
  - apply turns_move_child_error.
Qed.

Lemma step_turn w ev i t :
  turns w !! i = Some t →
  ∃ t', turns (step w ev) !! i = Some t' ∧ rtc turn_op t t'.
Proof.
  intros Ht.
  destruct ev as [input|h text sig|j|h|h mode|h| |j|r parsed|r id|r id err|r|r err];
    try (match goal with
         | |- context [step _ ?ev] =>
             pose proof (step_turns_move w ev ltac:(done) i) as H;
             rewrite Ht in H; inversion H; simplify_eq; by eauto
         end).
  exists t. split; [|done]. cbn.
  by rewrite lookup_app_l by (by eapply lookup_lt_Some).
Qed.

Lemma run_turn w tr i t :
  turns w !! i = Some t →
  ∃ t', turns (run w tr) !! i = Some t' ∧ rtc turn_op t t'.
Proof.
  revert w t. induction tr as [|ev tr IH]; intros w t Ht;
    [exists t; by split|].
  destruct (step_turn w ev i t Ht) as (t1 & Ht1 & H1).
  destruct (IH _ _ Ht1) as (t' & Ht' & H'). exists t'. split; [done|].
  by etrans.
Qed.

Lemma running_inv_done t : turn_inv t → running t → done_ t = false.
Proof.
  intros (_ & _ & HT) [H|[e H]]; unfold turn_inv in HT; rewrite H in HT;
    by destruct HT as (? & ? & ?).
Qed.

Lemma running_listening t : turn_inv t → running t → listening t.
Proof.
  intros (_ & _ & HT) [H|[e H]]; unfold turn_inv in HT; rewrite H in HT.
  - by destruct HT as (? & ? & ? & ?).
  - by destruct HT as (? & ? & ?).
Qed.

(** The signal aborts while the generator is in its loop. *)
Lemma abort_closing i t w :
  turns w !! i = Some t → turn_inv t → running t → signal t = Some false →
  ∃ t', turns (abort i w) !! i = Some t' ∧ closing t'.
Proof.
  intros Ht Hinv Hrun Hs.
  destruct (running_listening _ Hinv Hrun) as (_ & _ & Hab).
  unfold abort. rewrite Ht, Hs, (Hab Hs).
  set (t1 := set_on_abort false (set_signal (Some true) t)).
  exists (push_unless_done (Done (JStr "cancelled")) t1). split.
  - cbn. rewrite list_lookup_alter_eq, turns_cancel. cbn.
    by rewrite !list_lookup_alter_eq, Ht.
  - apply push_unless_done_closing; [|done..].
    eapply turn_op_inv; [by apply op_once|].
    eapply turn_op_inv; [apply op_signal|done].
Qed.

(** The child closes while the generator is in its loop. *)
Lemma child_close_closing ref a i t w :
  heap w !! ref = Some a →
  turns w !! i = Some t → turn_inv t → running t → turn_agent t = Some ref →
  ∃ t', turns (child_close ref w) !! i = Some t' ∧ closing t'.
Proof.
  intros Ha Ht Hinv Hrun Hag.
  destruct (running_listening _ Hinv Hrun) as (_ & Hcl & _).
  unfold child_close. rewrite Ha.
  destruct (reject_all ExitedError a) as [a' rs].
  set (w3 := set_turns (fmap (onClose ref)) _).
  assert (turns w3 !! i
          = Some (push_unless_done
                    (Error "agent process exited unexpectedly") t)) as H3.
  { subst w3. cbn. rewrite list_lookup_fmap.
    assert (∀ w', turns (unregister_if_same (agent_key a) ref w') = turns w')
      as -> by (intros; unfold unregister_if_same; by case_match).
    cbn. rewrite Ht. cbn. unfold onClose.
    by rewrite Hcl, Hag, bool_decide_eq_true_2. }
  pose proof (turns_move_run_reactions ref rs w3 i) as Hmove.
  rewrite H3 in Hmove. inversion Hmove as [? t' Hops|]; simplify_eq.
  exists t'. split; [done|].
  eapply turn_ops_closing; [exact Hops| |].
  - by apply push_unless_done_inv.
  - by apply push_unless_done_closing.
Qed.

(** The promise of the prompt settles while the generator is in its loop. *)
Lemma prompt_settled_closing ref i o t w :
  turns w !! i = Some t → turn_inv t → running t →
  ∃ t', turns (react ref (TurnPrompt i) o w) !! i = Some t' ∧ closing t'.
Proof.
  intros Ht Hinv Hrun. destruct o as [v|err]; cbn [react].
  - eexists. split; [cbn; by rewrite list_lookup_alter_eq, Ht|].
    by apply push_unless_done_closing.
  - eexists. split; [cbn; by rewrite list_lookup_alter_eq, Ht|].
    by apply push_unless_done_closing.
Qed.

(** *** The sequence a turn yields *)

Lemma filter_nonterminal_id pre : Forall nonterminal pre → filter nonterminal pre = pre.
Proof.
  induction 1 as [|x l Hx _ IH]; [done|].
  rewrite filter_cons_True by done. by rewrite IH.
Qed.

Lemma turn_inv_yielded t :
  turn_inv t →
  ∃ pre, Forall nonterminal pre ∧ pre `prefix_of` received t ∧
         (yielded t = pre ∨ ∃ e, terminal e = true ∧ yielded t = pre ++ [e]).
Proof.
  intros Hinv. pose proof Hinv as (HQ & HA & HT). unfold turn_inv in HT.
  destruct (pc t) eqn:Hpc.
  - destruct HT as [Hy _]. exists []. split_and!; [done|apply prefix_nil|by left].
  - exists []. split_and!; [done|apply prefix_nil|]. right.
    exists (Done (JStr "cancelled")). by split.
  - destruct HT as (Hev & _ & Hy & [[r Hr] _]). exists (yielded t).
    split_and!; [done| |by left].
    rewrite <- HQ by congruence.
    by rewrite Hev, app_nil_r, filter_nonterminal_id.
  - destruct HT as (_ & [[r Hr] _] & pre & Hy & Hpre).
    destruct (terminal e) eqn:He.
    + exists pre. split_and!; [done| |right; by eexists].
      rewrite <- HQ by congruence.
      rewrite Hy, <- !app_assoc, filter_app, filter_nonterminal_id by done.
      by apply prefix_app_r.
    + exists (yielded t). split_and!; [| |by left].
      * rewrite Hy. apply Forall_app. split; [done|]. by constructor.
      * rewrite <- HQ by congruence. rewrite filter_app.
        rewrite filter_nonterminal_id; [by apply prefix_app_r|].
        rewrite Hy. apply Forall_app. split; [done|]. by constructor.
  - destruct (turn_inv_finished t Hinv Hpc) as (pre & e & Hy & He & Hpre & Hpf).
    exists pre. split_and!; [done|done|]. right. by eexists.
  - destruct HT as [Hy _]. exists []. split_and!; [done|apply prefix_nil|by left].
Qed.

(** C1, amended: along every run, what a generator has yielded is events the
    sink received from the notification mapper, in the order it received
    them, followed by at most one terminal event; a generator that has
    returned has yielded exactly one terminal event, last; one that has
    thrown (no agent process for the session) has yielded nothing; once
    ended, a generator never yields again; and once a terminal event has
    reached the buffer, as many pulls as the buffer is long, and one more,
    make the generator return. *)
Theorem turn_yields_in_order_then_one_terminal
    (cfg : ResolvedStandardAcpConfig) (tr : list event) (i : nat) (t : Turn) :
  turns (run (new_runtime cfg) tr) !! i = Some t →
  (∃ pre, Forall nonterminal pre ∧ pre `prefix_of` received t ∧
          (yielded t = pre ∨
           ∃ e, terminal e = true ∧ yielded t = pre ++ [e])) ∧
  (pc t = Finished → one_terminal_last t) ∧
  (∀ e, pc t = Threw e →
        yielded t = [] ∧
        e = AcpRuntimeError "ACP_TURN_FAILED" "No agent process for session.") ∧
  (ended t →
   ∀ tr', ∃ t', turns (run (run (new_runtime cfg) tr) tr') !! i = Some t' ∧
                ended t' ∧ yielded t' = yielded t) ∧
  (closing t →
   ∃ t', turns (run (run (new_runtime cfg) tr)
                  (replicate (S (length (events t))) (CallNext i))) !! i
           = Some t' ∧
         pc t' = Finished ∧ one_terminal_last t').
Proof.
  intros Ht. pose proof (run_turn_inv _ _ _ _ Ht) as Hinv. split_and!.
  - by apply turn_inv_yielded.
  - by apply turn_inv_finished.
  - intros e Hpc. destruct Hinv as (_ & _ & HT). unfold turn_inv in HT.
    by rewrite Hpc in HT.
  - intros Hend tr'. destruct (run_turn _ tr' _ _ Ht) as (t' & Ht' & Hops).
    exists t'. split; [done|]. by apply (turn_ops_ended t).
  - intros Hc. eexists. split; [by apply pulls_run|].
    assert (pc (Nat.iter (S (length (events t))) pull t) = Finished) as Hfin
      by (by apply drain).
    split; [done|]. apply turn_inv_finished; [|done].
    eapply turn_ops_inv; [|exact Hinv].
    clear. induction (S (length (events t))) as [|n IH]; [done|].
    cbn. etrans; [exact IH|apply pull_ops].
Qed.

Lemma turn_yields_in_order_then_one_terminal_witness :
  ∃ t, turns (run (new_runtime example_config) example_happy_turn) !! 0 = Some t ∧
       yielded t = [TextDelta (JStr "hello") "output"; Done (JStr "end_turn")] ∧
       one_terminal_last t.
Proof.
  eexists. split; [vm_compute; reflexivity|]. split; [reflexivity|].
  eapply (turn_yields_in_order_then_one_terminal example_config
            example_happy_turn 0);
    [vm_compute; reflexivity|reflexivity].
Defined.

(** C1 as stated fails when the agent has exited before the turn starts:
    the registry no longer holds it, [runTurn] throws and nothing is
    yielded. *)
Lemma turn_after_exit_counterexample :
  (∃ t, turns (run (new_runtime example_config) example_turn_after_exit) !! 0
          = Some t ∧
        pc t = Threw (AcpRuntimeError "ACP_TURN_FAILED"
                        "No agent process for session.") ∧
        yielded t = []) ∧
  ¬ every_turn_ends_with_a_terminal example_config example_turn_after_exit.
Proof.
  split.
  - eexists. split; [vm_compute; reflexivity|]. by split.
  - intros H. edestruct (H 0) as (pre & e & Hy & _).
    + vm_compute. reflexivity.
    + right. by eexists.
    + cbn in Hy. by destruct pre.
Qed.

(** A turn whose agent stays silent, is not cancelled and does not exit
    stays at its [await], however often the consumer pulls. *)
Lemma silent_agent_never_terminates (n : nat) :
  pc <$> turns (run (new_runtime example_config)
                  ((example_handshake example_input ++
                    [CallRunTurn example_handle "hi" None; CallNext 0]) ++
                   replicate n (CallNext 0))) !! 0
  = Some Awaiting.
Proof.
  rewrite run_app.
  set (w := run _ (_ ++ _)).
  assert (pc <$> turns w !! 0 = Some Awaiting) as Hw by (vm_compute; reflexivity).
  clearbody w. revert w Hw. induction n as [|n IH]; intros w Hw; [done|].
  cbn [replicate]. unfold run. cbn [foldl]. apply IH. cbn [step].
  unfold next. destruct (turns w !! 0) as [t|] eqn:Ht; [|done].
  cbn in Hw. injection Hw as Hw. rewrite Hw, Ht. cbn. by rewrite Hw.
Qed.

(** ** Pre-aborted turns *)

(** C3: when the signal is already aborted at the first pull of a turn, the
    generator yields [done] with stop reason [cancelled], returns at the next
    pull and never yields again; neither pull touches any agent: nothing is
    written to any stdin, no sink or listener is installed, the registry is
    as it was. *)
Theorem pre_aborted_turn_short_circuits
    (cfg : ResolvedStandardAcpConfig) (tr : list event) (i : nat) (t : Turn) :
  let w := run (new_runtime cfg) tr in
  turns w !! i = Some t → pc t = NotStarted → signal t = Some true →
  let w1 := step w (CallNext i) in
  let w2 := step w1 (CallNext i) in
  (∃ t1, turns w1 !! i = Some t1 ∧ pc t1 = PreAbortYield ∧
         yielded t1 = [Done (JStr "cancelled")]) ∧
  (∃ t2, turns w2 !! i = Some t2 ∧ pc t2 = Finished ∧
         yielded t2 = [Done (JStr "cancelled")]) ∧
  heap w2 = heap w ∧ agents w2 = agents w ∧
  ∀ tr', ∃ t', turns (run w2 tr') !! i = Some t' ∧
               yielded t' = [Done (JStr "cancelled")].
Proof.
  intros w Ht Hpc Hs w1 w2.
  pose proof (run_turn_inv _ _ _ _ Ht) as (_ & _ & HT).
  unfold turn_inv in HT. rewrite Hpc in HT. destruct HT as [Hy _].
  set (t1 := yield PreAbortYield (Done (JStr "cancelled")) t).
  assert (w1 = update_turn i (λ t, yield PreAbortYield (Done (JStr "cancelled")) t) w)
    as Hw1.
  { subst w1. cbn [step]. unfold next. rewrite Ht, Hpc.
    unfold runTurn_start. by rewrite Hs. }
  assert (turns w1 !! i = Some t1) as Ht1
    by (rewrite Hw1; cbn; by rewrite list_lookup_alter_eq, Ht).
  assert (w2 = update_turn i (set_pc Finished) w1) as Hw2.
  { subst w2. clearbody w1. cbn [step]. unfold next. by rewrite Ht1. }
  clearbody w1 w2.
  assert (turns w2 !! i = Some (set_pc Finished t1)) as Ht2
    by (rewrite Hw2; cbn; by rewrite list_lookup_alter_eq, Ht1).
  split_and!.
  - eexists. split; [exact Ht1|]. cbn. by rewrite Hy.
  - eexists. split; [exact Ht2|]. cbn. by rewrite Hy.
  - by rewrite Hw2, Hw1.
  - by rewrite Hw2, Hw1.
  - intros tr'. destruct (run_turn _ tr' _ _ Ht2) as (t' & Ht' & Hops).
    exists t'. split; [done|].
    destruct (turn_ops_ended _ _ Hops) as [_ ->]; [by left|].
    cbn. by rewrite Hy.
Qed.

Lemma pre_aborted_turn_short_circuits_witness :
  let w := run (new_runtime example_config)
             (example_handshake example_input ++
              [CallRunTurn example_handle "hi" (Some true)]) in
  let w2 := step (step w (CallNext 0)) (CallNext 0) in
  (∃ t2, turns w2 !! 0 = Some t2 ∧ pc t2 = Finished ∧
         yielded t2 = [Done (JStr "cancelled")]) ∧
  heap w2 = heap w.
Proof.
  cbv zeta.
  edestruct (pre_aborted_turn_short_circuits example_config
               (example_handshake example_input ++
                [CallRunTurn example_handle "hi" (Some true)]) 0)
    as (_ & H2 & Hh & _); [vm_compute; reflexivity|reflexivity|reflexivity|].
  by split.
Defined.

(** ** The registry under child events *)

Lemma reacts_to_nil a a' : reacts_to a a' [].
Proof. intros k o H. by apply elem_of_nil in H. Qed.

Lemma reacts_to_settle id o a : reacts_to a (settle id o a).1 (settle id o a).2.
Proof.
  unfold settle. destruct (requests a !! id) as [r|] eqn:Hr;
    [|apply reacts_to_nil].
  destruct (req_state r) eqn:Hs; [apply reacts_to_nil|].
  intros k o' Hin. apply list_elem_of_singleton in Hin. simplify_eq.
  exists id, r. eexists. split_and!; [done|done|done| |].
  - cbn. by rewrite lookup_insert_eq.
  - done.
Qed.

(** Reactions scheduled before a further callback stay answered. *)
Lemma reacts_to_app a b c rs1 rs2 :
  transport_le a b → transport_le b c →
  reacts_to a b rs1 → reacts_to b c rs2 → reacts_to a c (rs1 ++ rs2).
Proof.
  intros (_ & _ & Hab & _) (_ & _ & Hbc & _) H1 H2 k o Hin.
  apply elem_of_app in Hin as [Hin|Hin].
  - destruct (H1 _ _ Hin) as (id & r & r' & Hr & Hs & Hk & Hr' & Hs').
    specialize (Hbc id). rewrite Hr' in Hbc.
    inversion Hbc as [? r'' Hle Heq1 Heq2|]; simplify_eq.
    exists id, r, r''. split_and!; [done|done|done|done|].
    destruct Hle as (_ & _ & Hst & _). by apply Hst.
  - destruct (H2 _ _ Hin) as (id & r & r' & Hr & Hs & Hk & Hr' & Hs').
    specialize (Hab id). rewrite Hr in Hab.
    inversion Hab as [r0 ? Hle Heq1 Heq2|]; simplify_eq.
    exists id, r0, r'. split_and!; [done| | |done|done].
    + destruct (req_state r0) eqn:E; [|done].
      destruct Hle as (_ & _ & Hst & _). rewrite (Hst _ E) in Hs. done.
    + by destruct Hle as (_ & -> & _).
Qed.

(** A callback that changes nothing a reaction depends on. *)
Lemma reacts_to_pre a b c rs :
  transport_le a b → reacts_to b c rs → reacts_to a c rs.
Proof.
  intros Hab Hbc k o Hin.
  destruct (Hbc _ _ Hin) as (id & r & r' & Hr & Hs & Hk & Hr' & Hs').
  destruct Hab as (_ & _ & Hab & _).
  specialize (Hab id). rewrite Hr in Hab.
  inversion Hab as [r0 ? Hle Heq1 Heq2|]; simplify_eq.
  exists id, r0, r'. split_and!; [done| | |done|done].
  - destruct (req_state r0) eqn:E; [|done].
    destruct Hle as (_ & _ & Hst & _). rewrite (Hst _ E) in Hs. done.
  - by destruct Hle as (_ & -> & _).
Qed.

Lemma reacts_to_entry_reject p err a :
  reacts_to a (entry_reject p err a).1 (entry_reject p err a).2.
Proof.
  unfold entry_reject. eapply reacts_to_pre;
    [apply transport_le_clear_timer|apply reacts_to_settle].
Qed.

Lemma reacts_to_entry_resolve p v a :
  reacts_to a (entry_resolve p v a).1 (entry_resolve p v a).2.
Proof.
  unfold entry_resolve. eapply reacts_to_pre;
    [apply transport_le_clear_timer|apply reacts_to_settle].
Qed.

Lemma reacts_to_on_timeout id a :
  reacts_to a (on_timeout id a).1 (on_timeout id a).2.
Proof.
  pose proof (transport_le_on_timeout id a) as Hle. revert Hle.
  unfold on_timeout. destruct (requests a !! id) as [r|] eqn:Hr;
    [|intros; apply reacts_to_nil].
  destruct (req_timer r) eqn:Ht; try (intros; apply reacts_to_nil).
  intros _. eapply reacts_to_pre; [|apply reacts_to_settle].
  eapply transport_le_trans; [|apply transport_le_delete].
  split_and!; [done|by right| |done|done].
  intros id'. cbn. destruct (decide (id = id')) as [<-|Hne].
  - rewrite lookup_insert_eq, Hr. constructor.
    split_and!; cbn; [done|done|done|]. rewrite Ht. split; discriminate.
  - rewrite lookup_insert_ne by done.
    destruct (requests a !! id'); constructor. apply request_le_refl.
Qed.

Lemma reacts_to_on_write_error id err a :
  reacts_to a (on_write_error id err a).1 (on_write_error id err a).2.
Proof.
  unfold on_write_error. destruct (requests a !! id); [|apply reacts_to_nil].
  eapply reacts_to_pre; [|apply reacts_to_settle].
  eapply transport_le_trans; [apply transport_le_clear_timer|].
  apply transport_le_delete.
Qed.

Lemma reacts_to_on_line parsed a :
  reacts_to a (on_line parsed a).1.1 (on_line parsed a).1.2.
Proof.
  unfold on_line. destruct parsed as [msg|]; [|apply reacts_to_nil].
  repeat case_match; simplify_eq; cbn; try apply reacts_to_nil.
  - match goal with
    | H : entry_reject ?p ?e ?b = _ |- _ =>
        pose proof (reacts_to_entry_reject p e b) as Hr; rewrite H in Hr
    end.
    eapply reacts_to_pre; [apply transport_le_delete|exact Hr].
  - match goal with
    | H : entry_resolve ?p ?e ?b = _ |- _ =>
        pose proof (reacts_to_entry_resolve p e b) as Hr; rewrite H in Hr
    end.
    eapply reacts_to_pre; [apply transport_le_delete|exact Hr].
Qed.

(** The loop of [reject_all], with its reactions. *)
Lemma reject_all_ind2 (P : AgentProcess → list (waiter * outcome) → Prop) err a :
  P a [] →
  (∀ p b rs, P b rs →
     P (entry_reject p err b).1 (rs ++ (entry_reject p err b).2)) →
  (∀ b rs, P b rs → P (set_pending (λ _, ∅) b) rs) →
  P (reject_all err a).1 (reject_all err a).2.
Proof.
  intros Ha Hstep Hclear. unfold reject_all.
  generalize (map_to_list (pending a)). intros l.
  assert (∀ acc : AgentProcess * list (waiter * outcome),
            P acc.1 acc.2 →
            let r := foldl (λ (acc : AgentProcess * list (waiter * outcome)) kp,
                              let '(a', rs') := entry_reject kp.2 err acc.1 in
                              (a', acc.2 ++ rs')) acc l in
            P r.1 r.2) as Hfold.
  { induction l as [|kp l IH]; intros acc Hacc; cbn; [done|].
    apply IH. specialize (Hstep kp.2 _ _ Hacc).
    by destruct (entry_reject kp.2 err acc.1). }
  specialize (Hfold (a, []) Ha). cbn zeta in Hfold.
  destruct (foldl _ _ _) as [b rs]. cbn in *. by apply Hclear.
Qed.

Lemma reacts_to_reject_all err a :
  reacts_to a (reject_all err a).1 (reject_all err a).2 ∧
  transport_le a (reject_all err a).1.
Proof.
  apply (reject_all_ind2 (λ b rs, reacts_to a b rs ∧ transport_le a b)).
  - split; [apply reacts_to_nil|apply transport_le_refl].
  - intros p b rs [Hr Hle]. split.
    + eapply reacts_to_app; [done|apply transport_le_entry_reject|done|].
      apply reacts_to_entry_reject.
    + eapply transport_le_trans; [done|apply transport_le_entry_reject].
  - intros b rs [Hr Hle]. split.
    + intros k o Hin.
      destruct (Hr _ _ Hin) as (id & r & r' & ? & ? & ? & ? & ?).
      by exists id, r, r'.
    + eapply transport_le_trans; [done|apply transport_le_clear].
Qed.

(** The reactions of a rejection are rejections. *)
Lemma settle_rejected id err a k o :
  (k, o) ∈ (settle id (Rejected err) a).2 → o = Rejected err.
Proof.
  rewrite settle_reactions. repeat case_match; intros Hin;
    try (by apply elem_of_nil in Hin).
  apply list_elem_of_singleton in Hin. by simplify_eq.
Qed.

Lemma reject_all_rejected err a k o :
  (k, o) ∈ (reject_all err a).2 → o = Rejected err.
Proof.
  revert k o.
  apply (reject_all_ind2 (λ _ rs, ∀ k o, (k, o) ∈ rs → o = Rejected err)).
  - intros k o Hin. by apply elem_of_nil in Hin.
  - intros p b rs IH k o [Hin|Hin]%elem_of_app; [by eapply IH|].
    unfold entry_reject in Hin. by eapply settle_rejected.
  - done.
Qed.

Lemma neutral_refl w : neutral w w.
Proof. split_and!; [done|by left|]. intros ref a Ha. by exists a. Qed.

Lemma neutral_trans w1 w2 w3 : neutral w1 w2 → neutral w2 w3 → neutral w1 w3.
Proof.
  intros (Hi1 & Ha1 & Hh1) (Hi2 & Ha2 & Hh2). split_and!; [congruence| |].
  - intros key. destruct (Ha2 key) as [-> | ?]; [apply Ha1|by right].
  - intros ref a3 H3. destruct (Hh2 _ _ H3) as (a2 & H2 & Hs2).
    destruct (Hh1 _ _ H2) as (a1 & H1 & Hs1). exists a1. split; [done|].
    intros id key ?. by apply Hs1, Hs2.
Qed.

Lemma neutral_inv w w' : registry_inv w → neutral w w' → registry_inv w'.
Proof.
  intros Hinv (Hi & Ha & Hh) ref a' id key Ha' Hu.
  destruct (Hh _ _ Ha') as (a & Haw & Hsub).
  destruct (Hinv _ _ _ _ Haw (Hsub _ _ Hu)) as (H1 & H2 & H3).
  split_and!; [by rewrite Hi| |].
  - destruct (Ha key) as [-> | ->]; [done|by left].
  - intros id' key' Hu'. by eapply H3, Hsub.
Qed.

Lemma neutral_same w w' :
  initializing w' = initializing w → agents w' = agents w → heap w' = heap w →
  neutral w w'.
Proof.
  intros Hi Ha Hh. split_and!; [done|by left; rewrite Ha|].
  intros ref a'. rewrite Hh. intros ?. by exists a'.
Qed.

Lemma neutral_update_agent ref f w :
  (∀ a id key, unsettled_init (f a) id key → unsettled_init a id key) →
  neutral w (update_agent ref f w).
Proof.
  intros Hf. split_and!; [done|by left|].
  intros r a'. cbn. rewrite list_lookup_alter. case_decide; simplify_eq.
  - destruct (heap w !! r) as [a|]; [|done]. intros [= <-]. exists a.
    split; [done|]. apply Hf.
  - intros ?. by exists a'.
Qed.

Lemma neutral_update_agent_requests ref f w :
  (∀ a, requests (f a) = requests a) → neutral w (update_agent ref f w).
Proof.
  intros Hf. apply neutral_update_agent. intros a id key (r & Hr & ?).
  rewrite Hf in Hr. by exists r.
Qed.

Lemma neutral_kill ref w : neutral w (update_agent ref (kill "SIGTERM") w).
Proof. by apply neutral_update_agent_requests. Qed.

Lemma neutral_send ref method params k w :
  init_key k = None →
  neutral w (update_agent ref (sendRequest method params k) w).
Proof.
  intros Hk. apply neutral_update_agent. intros a id key (r & Hr & Hs & Hi).
  unfold sendRequest in Hr. cbn in Hr.
  destruct (decide (nextId a = id)) as [<-|Hne].
  - rewrite lookup_insert_eq in Hr. simplify_eq. cbn in Hi. congruence.
  - rewrite lookup_insert_ne in Hr by done. by exists r.
Qed.

Lemma transport_le_unsettled a b id key :
  transport_le a b → unsettled_init b id key → unsettled_init a id key.
Proof.
  intros (_ & _ & Hle & _) (r' & Hr' & Hs & Hi).
  specialize (Hle id). rewrite Hr' in Hle.
  inversion Hle as [r ? (_ & Hw & Hst & _) Heq1 Heq2|]; simplify_eq.
  exists r. split_and!; [done| |by rewrite <- Hw].
  destruct (req_state r) eqn:E; [|done]. rewrite (Hst _ eq_refl) in Hs. done.
Qed.

Lemma neutral_handler ref a a' w :
  heap w !! ref = Some a → transport_le a a' →
  neutral w (update_agent ref (λ _, a') w).
Proof.
  intros Ha Hle. split_and!; [done|by left|].
  intros r b. cbn. rewrite list_lookup_alter. case_decide; simplify_eq.
  - rewrite Ha. intros [= <-]. exists a. split; [done|].
    intros id key. by apply transport_le_unsettled.
  - intros ?. by exists b.
Qed.

Lemma neutral_delete key w : neutral w (set_agents (delete key) w).
Proof.
  split_and!; [done| |].
  - intros k. cbn. destruct (decide (key = k)) as [<-|Hne].
    + right. apply lookup_delete_eq.
    + left. by apply lookup_delete_ne.
  - intros ref a ?. by exists a.
Qed.

Lemma neutral_unregister key ref w : neutral w (unregister_if_same key ref w).
Proof.
  unfold unregister_if_same. case_match; [apply neutral_delete|apply neutral_refl].
Qed.

Lemma neutral_cancel h k w : init_key k = None → neutral w (cancel h k w).
Proof.
  intros Hk. unfold cancel. repeat case_match;
    [by apply neutral_send|apply neutral_refl].
Qed.

Lemma neutral_setMode h mode w : neutral w (setMode h mode w).
Proof.
  unfold setMode. repeat case_match; [by apply neutral_send|apply neutral_refl].
Qed.

Lemma neutral_close h w : neutral w (close h w).
Proof.
  unfold close. repeat case_match; [|apply neutral_refl].
  eapply neutral_trans; [apply neutral_kill|apply neutral_delete].
Qed.

Lemma neutral_closeAll w : neutral w (closeAll w).
Proof.
  unfold closeAll.
  assert (∀ w', neutral w w' → neutral w (set_agents (λ _, ∅) w')) as Hclear.
  { intros w' Hw'. eapply neutral_trans; [exact Hw'|].
    split_and!; [done|by right|]. intros ref a ?. by exists a. }
  apply Hclear.
  apply (map_fold_weak_ind (λ w' _, neutral w w')); [apply neutral_refl|].
  intros key ref m w' _ IH. eapply neutral_trans; [exact IH|apply neutral_kill].
Qed.

Lemma neutral_then_turn w w1 i f :
  neutral w w1 → neutral w (update_turn i f w1).
Proof. intros H. eapply neutral_trans; [exact H|by apply neutral_same]. Qed.

Lemma neutral_then_agent w w1 ref f :
  (∀ a, requests (f a) = requests a) →
  neutral w w1 → neutral w (update_agent ref f w1).
Proof.
  intros Hf H. eapply neutral_trans; [exact H|].
  by apply neutral_update_agent_requests.
Qed.

Lemma neutral_then_send w w1 ref method params k :
  init_key k = None →
  neutral w w1 → neutral w (update_agent ref (sendRequest method params k) w1).
Proof.
  intros Hk H. eapply neutral_trans; [exact H|by apply neutral_send].
Qed.

Lemma neutral_runTurn_start i t w : neutral w (runTurn_start i t w).
Proof.
  unfold runTurn_start.
  destruct (signal t) as [[|]|];
    try (apply neutral_then_turn, neutral_refl);
    (destruct (lookup_agent w _) as [[ref agent]|];
     [|apply neutral_then_turn, neutral_refl]);
    apply neutral_then_turn, neutral_then_send; [done| |done|];
    apply neutral_then_turn, neutral_then_agent; try done; apply neutral_refl.
Qed.

Lemma neutral_next i w : neutral w (next i w).
Proof.
  unfold next. destruct (turns w !! i) as [t|]; [|apply neutral_refl].
  destruct (pc t) as [| | |e| |]; try apply neutral_refl.
  - apply neutral_runTurn_start.
  - apply neutral_then_turn, neutral_refl.
  - destruct (pc (resume e t)), (turn_agent (resume e t));
      try (apply neutral_then_turn, neutral_refl).
    apply neutral_then_agent; [done|]. apply neutral_then_turn, neutral_refl.
Qed.

Lemma neutral_abort i w : neutral w (abort i w).
Proof.
  unfold abort. destruct (turns w !! i) as [t|]; [|apply neutral_refl].
  destruct (signal t) as [[|]|]; try apply neutral_refl.
  destruct (on_abort t); [|apply neutral_then_turn, neutral_refl].
  apply neutral_then_turn. eapply neutral_trans; [|by apply neutral_cancel].
  apply neutral_then_turn, neutral_then_turn, neutral_refl.
Qed.

(** A fresh initialization under a key that has none in flight. *)
Lemma fresh_init_inv key input w :
  registry_inv w → initializing w !! key = None →
  registry_inv (fresh_init key input w).1.
Proof.
  intros Hinv Hnone. rewrite fresh_init_eq. cbn [fst].
  intros ref a id key' Ha Hu. cbn [heap initializing agents] in *.
  destruct (decide (ref < length (heap w))) as [Hlt|Hge].
  - rewrite lookup_app_l in Ha by done.
    destruct (Hinv _ _ _ _ Ha Hu) as (H1 & H2 & H3).
    assert (key' ≠ key) as Hne by (intros ->; congruence).
    rewrite !lookup_insert_ne by done. done.
  - rewrite lookup_app_r in Ha by lia.
    destruct (ref - length (heap w)) as [|n] eqn:E; [|by destruct n].
    assert (ref = length (heap w)) as -> by lia.
    cbn in Ha. injection Ha as <-.
    assert (∀ id' key'',
              unsettled_init
                (sendRequest "initialize" initialize_params
                   (AwaitInitialize key input) (new_agent (config w) key))
                id' key'' → id' = 1%Z ∧ key'' = key) as Hone.
    { intros id' key'' (r & Hr & _ & Hk). unfold sendRequest in Hr. cbn in Hr.
      destruct (decide (1%Z = id')) as [<-|Hne].
      - rewrite lookup_insert_eq in Hr. simplify_eq. cbn in Hk. by simplify_eq.
      - by rewrite lookup_insert_ne, lookup_empty in Hr. }
    destruct (Hone _ _ Hu) as [-> ->].
    rewrite !lookup_insert_eq. split_and!; [done|by right|].
    intros id' key'' Hu'. by destruct (Hone _ _ Hu').
Qed.

Lemma ensureSession_inv input w :
  registry_inv w → registry_inv (ensureSession input w).1.
Proof.
  intros Hinv. unfold ensureSession.
  destruct (initializing w !! sessionKey input) eqn:Hi; [done|].
  destruct (lookup_agent w (sessionKey input)) as [[ref agent]|];
    [|by apply fresh_init_inv].
  case_bool_decide; [|done].
  apply fresh_init_inv; [|done].
  eapply neutral_inv; [exact Hinv|].
  eapply neutral_trans; [apply neutral_kill|apply neutral_delete].
Qed.

(** The end of a handshake, failed or completed. *)
Lemma init_end_inv key ref (f : AgentProcess → AgentProcess) w w' :
  registry_inv w →
  (∀ ref' a' id, heap w !! ref' = Some a' → ¬ unsettled_init a' id key) →
  (∀ a, requests (f a) = requests a) →
  heap w' = alter f ref (heap w) →
  (∀ k, k ≠ key → initializing w' !! k = initializing w !! k) →
  (∀ k, agents w' !! k = agents w !! k ∨ agents w' !! k = None) →
  registry_inv w'.
Proof.
  intros Hinv Hno Hf Hh Hi Ha r a' id key' Ha' Hu.
  assert (∃ a, heap w !! r = Some a ∧ requests a' = requests a) as (a & Haw & Hreq).
  { rewrite Hh, list_lookup_alter in Ha'. case_decide; simplify_eq.
    - destruct (heap w !! r) as [a|]; [|done]. cbn in Ha'. simplify_eq.
      exists a. by rewrite Hf.
    - by exists a'. }
  assert (∀ id key, unsettled_init a' id key → unsettled_init a id key) as Hsub.
  { intros id0 key0 (r0 & Hr0 & ?). rewrite Hreq in Hr0. by exists r0. }
  destruct (Hinv _ _ _ _ Haw (Hsub _ _ Hu)) as (H1 & H2 & H3).
  assert (key' ≠ key) as Hne.
  { intros ->. by eapply Hno, Hsub. }
  split_and!; [by rewrite Hi| |].
  - destruct (Ha key') as [-> | ->]; [done|by left].
  - intros id' key'' Hu'. by eapply H3, Hsub.
Qed.

Lemma ready_no_unsettled w ref k o key :
  registry_inv w → reaction_ready w ref k o → init_key k = Some key →
  ∀ ref' a' id, heap w !! ref' = Some a' → ¬ unsettled_init a' id key.
Proof.
  intros Hinv Hready Hk ref' a' id Ha' Hu.
  destruct (Hready _ Hk) as (Hno & _ & Hi).
  destruct (Hinv _ _ _ _ Ha' Hu) as (H1 & _).
  destruct Hi as [Hi|[Hi _]]; [|congruence].
  assert (ref' = ref) as -> by congruence. by eapply Hno.
Qed.

Lemma init_failed_inv key ref err w :
  registry_inv w →
  (∀ ref' a' id, heap w !! ref' = Some a' → ¬ unsettled_init a' id key) →
  registry_inv (init_failed key ref err w).
Proof.
  intros Hinv Hno.
  apply (init_end_inv key ref (kill "SIGTERM") w); try done.
  - intros k Hne. cbn. by rewrite lookup_delete_ne.
  - intros k. cbn. destruct (decide (key = k)) as [<-|Hne].
    + right. apply lookup_delete_eq.
    + left. by apply lookup_delete_ne.
Qed.

Lemma init_done_inv key input ref result w :
  registry_inv w →
  (∀ ref' a' id, heap w !! ref' = Some a' → ¬ unsettled_init a' id key) →
  registry_inv (init_done key input ref result w).
Proof.
  intros Hinv Hno.
  apply (init_end_inv key ref
           (set_session (nullish (get result "sessionId") (JStr key))
              (effectiveCwd w input)) w); try done.
  - intros k Hne. cbn. by rewrite lookup_delete_ne.
  - intros k. by left.
Qed.

Lemma init_session_new_inv key input ref w :
  registry_inv w → no_init w ref →
  initializing w !! key = Some ref →
  (agents w !! key = None ∨ agents w !! key = Some ref) →
  registry_inv (init_session_new key input ref w).
Proof.
  intros Hinv Hno Hi Hag r a' id key' Ha' Hu.
  unfold init_session_new in Ha'. cbn in Ha'. rewrite list_lookup_alter in Ha'.
  case_decide; simplify_eq.
  - destruct (heap w !! r) as [a|] eqn:Ha; [|done]. cbn in Ha'. simplify_eq.
    assert (∀ id' key'',
              unsettled_init
                (sendRequest "session/new"
                   (session_new_params (effectiveCwd w input))
                   (AwaitSessionNew key input) a) id' key'' →
              id' = nextId a ∧ key'' = key) as Hone.
    { intros id' key'' (r0 & Hr0 & Hs0 & Hk0). unfold sendRequest in Hr0.
      cbn in Hr0. destruct (decide (nextId a = id')) as [<-|Hne].
      - rewrite lookup_insert_eq in Hr0. simplify_eq. cbn in Hk0.
        by simplify_eq.
      - rewrite lookup_insert_ne in Hr0 by done. exfalso.
        eapply Hno; [exact Ha|]. by exists r0. }
    destruct (Hone _ _ Hu) as [-> ->]. split_and!; [done|done|].
    intros id' key'' Hu'. by destruct (Hone _ _ Hu').
  - by apply Hinv.
Qed.

(** One reaction. *)
Lemma react_inv ref k o w :
  registry_inv w → reaction_ready w ref k o → registry_inv (react ref k o w).
Proof.
  intros Hinv Hready.
  destruct k as [key input|key input|t| |], o as [v|err]; cbn [react];
    try done; try (eapply neutral_inv; [exact Hinv|by apply neutral_same]).
  - destruct (Hready key eq_refl) as (Hno & Hag & [Hi|[_ [? ?]]]); [|done].
    by apply init_session_new_inv.
  - apply init_failed_inv; [done|]. by eapply ready_no_unsettled.
  - apply init_done_inv; [done|]. by eapply ready_no_unsettled.
  - apply init_failed_inv; [done|]. by eapply ready_no_unsettled.
Qed.

Lemma settle_short id o a : length (settle id o a).2 ≤ 1.
Proof. rewrite settle_reactions. repeat case_match; cbn; lia. Qed.

Lemma on_timeout_short id a : length (on_timeout id a).2 ≤ 1.
Proof.
  unfold on_timeout. destruct (requests a !! id) as [r|]; [|cbn; lia].
  destruct (req_timer r); try (cbn; lia). apply settle_short.
Qed.

Lemma on_write_error_short id err a : length (on_write_error id err a).2 ≤ 1.
Proof.
  unfold on_write_error. destruct (requests a !! id); [|cbn; lia].
  apply settle_short.
Qed.

Lemma on_line_short parsed a : length (on_line parsed a).1.2 ≤ 1.
Proof.
  unfold on_line. destruct parsed as [msg|]; [|cbn; lia].
  repeat case_match; simplify_eq; cbn; try lia.
  - match goal with
    | H : entry_reject ?p ?e ?b = _ |- _ =>
        pose proof (settle_short (settles p) (Rejected e)
                      (clear_timer (settles p) b)) as Hs;
        unfold entry_reject in H; rewrite H in Hs
    end. done.
  - match goal with
    | H : entry_resolve ?p ?v ?b = _ |- _ =>
        pose proof (settle_short (settles p) (Fulfilled v)
                      (clear_timer (settles p) b)) as Hs;
        unfold entry_resolve in H; rewrite H in Hs
    end. done.
Qed.

Lemma ready_of_reacts w S ref a a' rs k o :
  registry_inv w → heap w !! ref = Some a →
  transport_le a a' → reacts_to a a' rs → (k, o) ∈ rs →
  heap S !! ref = Some a' → initializing S = initializing w →
  (∀ key, agents S !! key = agents w !! key ∨ agents S !! key = None) →
  reaction_ready S ref k o.
Proof.
  intros Hinv Ha Hle Hr Hin HS Hi Hag key Hk.
  destruct (Hr _ _ Hin) as (id & r & r' & Hreq & Hst & Hw & Hreq' & Hst').
  assert (unsettled_init a id key) as Hu.
  { exists r. by subst k. }
  destruct (Hinv _ _ _ _ Ha Hu) as (H1 & H2 & H3).
  split_and!.
  - intros b id' key' Hb Hu'. rewrite HS in Hb. simplify_eq.
    pose proof (transport_le_unsettled _ _ _ _ Hle Hu') as Hu0.
    apply H3 in Hu0 as ->. destruct Hu' as (r0 & Hr0 & Hs0 & _). congruence.
  - destruct (Hag key) as [-> | ->]; [done|by left].
  - left. by rewrite Hi.
Qed.

Lemma ready_mono S S' ref k err :
  reaction_ready S ref k (Rejected err) →
  (∀ a', heap S' !! ref = Some a' →
         ∃ a, heap S !! ref = Some a ∧ requests a' = requests a) →
  (∀ key, agents S' !! key = agents S !! key ∨ agents S' !! key = None) →
  (∀ key, initializing S' !! key = initializing S !! key ∨
          initializing S' !! key = None) →
  reaction_ready S' ref k (Rejected err).
Proof.
  intros Hready Hh Hag Hi key Hk.
  destruct (Hready key Hk) as (Hno & Ha & Hin). split_and!.
  - intros a' id key' Ha' (r & Hr & ?).
    destruct (Hh _ Ha') as (a & HaS & Hreq).
    eapply Hno; [exact HaS|]. exists r. by rewrite <- Hreq.
  - destruct (Hag key) as [-> | ->]; [done|by left].
  - destruct (Hi key) as [-> | ->]; [done|]. right. eauto.
Qed.

Lemma ready_after_rejection ref k err k2 e2 S :
  reaction_ready S ref k2 (Rejected e2) →
  reaction_ready (react ref k (Rejected err) S) ref k2 (Rejected e2).
Proof.
  intros Hready.
  assert (reaction_ready (init_failed (default "" (init_key k)) ref err S) ref
            k2 (Rejected e2)) as Hfailed.
  { eapply ready_mono; [exact Hready| | |].
    - intros a'. cbn. rewrite list_lookup_alter_eq.
      destruct (heap S !! ref) as [a|]; [|done]. intros [= <-]. by exists a.
    - intros key. cbn. destruct (decide (default "" (init_key k) = key)) as [<-|?].
      + right. apply lookup_delete_eq.
      + left. by apply lookup_delete_ne.
    - intros key. cbn. destruct (decide (default "" (init_key k) = key)) as [<-|?].
      + right. apply lookup_delete_eq.
      + left. by apply lookup_delete_ne. }
  destruct k; cbn [react]; try done;
    (eapply ready_mono; [exact Hready| | |]; cbn; eauto).
Qed.

Lemma reactions_rejected_inv ref rs S :
  registry_inv S →
  (∀ k o, (k, o) ∈ rs → (∃ err, o = Rejected err) ∧ reaction_ready S ref k o) →
  registry_inv (run_reactions ref rs S).
Proof.
  revert S. induction rs as [|[k o] rs IH]; intros S Hinv Hall; [done|].
  change (registry_inv (run_reactions ref rs (react ref k o S))).
  destruct (Hall k o) as [[e ->] Hr]; [left|].
  apply IH.
  - by apply react_inv.
  - intros k2 o2 Hin. destruct (Hall k2 o2) as [[e2 ->] Hr2]; [by right|].
    split; [eauto|]. by apply ready_after_rejection.
Qed.

(** The reactions to one callback of agent [ref]. *)
Lemma handler_inv w S ref a a' rs :
  registry_inv w → heap w !! ref = Some a →
  transport_le a a' → reacts_to a a' rs →
  neutral w S → heap S !! ref = Some a' →
  (length rs ≤ 1 ∨ ∀ k o, (k, o) ∈ rs → ∃ err, o = Rejected err) →
  registry_inv (run_reactions ref rs S).
Proof.
  intros Hinv Ha Hle Hr Hn HS Hshape.
  assert (registry_inv S) as HinvS by (by eapply neutral_inv).
  assert (∀ k o, (k, o) ∈ rs → reaction_ready S ref k o) as Hready.
  { intros k o Hin. destruct Hn as (Hi & Hag & _).
    exact (ready_of_reacts w S ref a a' rs k o Hinv Ha Hle Hr Hin HS Hi Hag). }
  destruct Hshape as [Hshort|Hrej].
  - destruct rs as [|[k o] [|]]; [done| |cbn in Hshort; lia].
    cbn. apply react_inv; [done|]. apply Hready. left.
  - apply reactions_rejected_inv; [done|]. intros k o Hin. split; eauto.
Qed.

Lemma new_runtime_registry_inv cfg : registry_inv (new_runtime cfg).
Proof. intros ref a id key Ha. cbn in Ha. by rewrite lookup_nil in Ha. Qed.

Lemma heap_unregister key ref w : heap (unregister_if_same key ref w) = heap w.
Proof. unfold unregister_if_same. by case_match. Qed.

Lemma step_registry_inv w ev : registry_inv w → registry_inv (step w ev).
Proof.
  intros Hinv.
  destruct ev as [input|h text sig|i|h|h mode|h| |i|ref parsed|ref id
                 |ref id err|ref|ref err]; cbn [step].
  - by apply ensureSession_inv.
  - eapply neutral_inv; [done|by apply neutral_same].
  - eapply neutral_inv; [done|apply neutral_next].
  - eapply neutral_inv; [done|by apply neutral_cancel].
  - eapply neutral_inv; [done|apply neutral_setMode].
  - eapply neutral_inv; [done|apply neutral_close].
  - eapply neutral_inv; [done|apply neutral_closeAll].
  - eapply neutral_inv; [done|apply neutral_abort].
  - unfold stdout_line. destruct (heap w !! ref) as [a|] eqn:Ha; [|done].
    pose proof (transport_le_on_line parsed a) as Hle.
    pose proof (reacts_to_on_line parsed a) as Hr.
    pose proof (on_line_short parsed a) as Hs.
    destruct (on_line parsed a) as [[a' rs] e]. cbn in Hle, Hr, Hs.
    eapply handler_inv; [done|done|done|done| | |by left].
    + destruct e, (notifications a); try apply neutral_then_turn;
        by eapply neutral_handler.
    + destruct e, (notifications a); cbn;
        by rewrite list_lookup_alter_eq, Ha.
  - unfold timeout. destruct (heap w !! ref) as [a|] eqn:Ha; [|done].
    pose proof (transport_le_on_timeout id a) as Hle.
    pose proof (reacts_to_on_timeout id a) as Hr.
    pose proof (on_timeout_short id a) as Hs.
    destruct (on_timeout id a) as [a' rs]. cbn in Hle, Hr, Hs.
    eapply handler_inv; [done|done|done|done| | |by left].
    + by eapply neutral_handler.
    + cbn. by rewrite list_lookup_alter_eq, Ha.
  - unfold write_error. destruct (heap w !! ref) as [a|] eqn:Ha; [|done].
    pose proof (transport_le_on_write_error id (SystemError err) a) as Hle.
    pose proof (reacts_to_on_write_error id (SystemError err) a) as Hr.
    pose proof (on_write_error_short id (SystemError err) a) as Hs.
    destruct (on_write_error id (SystemError err) a) as [a' rs].
    cbn in Hle, Hr, Hs.
    eapply handler_inv; [done|done|done|done| | |by left].
    + by eapply neutral_handler.
    + cbn. by rewrite list_lookup_alter_eq, Ha.
  - unfold child_close. destruct (heap w !! ref) as [a|] eqn:Ha; [|done].
    pose proof (reacts_to_reject_all ExitedError a) as [Hr Hle].
    pose proof (reject_all_rejected ExitedError a) as Hrej.
    destruct (reject_all ExitedError a) as [a' rs]. cbn in Hle, Hr, Hrej.
    eapply handler_inv; [done|done|done|done| | |right; eauto].
    + eapply neutral_trans; [|by apply neutral_same].
      eapply neutral_trans; [|apply neutral_unregister].
      by eapply neutral_handler.
    + cbn. rewrite heap_unregister. cbn. by rewrite list_lookup_alter_eq, Ha.
  - unfold child_error. destruct (heap w !! ref) as [a|] eqn:Ha; [|done].
    pose proof (reacts_to_reject_all (SystemError err) a) as [Hr Hle].
    pose proof (reject_all_rejected (SystemError err) a) as Hrej.
    destruct (reject_all (SystemError err) a) as [a' rs]. cbn in Hle, Hr, Hrej.
    eapply handler_inv; [done|done|done|done| | |right; eauto].
    + eapply neutral_trans; [|apply neutral_unregister].
      eapply neutral_trans; [|by eapply neutral_handler].
      by apply neutral_same.
    + rewrite heap_unregister. cbn. by rewrite list_lookup_alter_eq, Ha.
Qed.

Lemma run_registry_inv cfg tr : registry_inv (run (new_runtime cfg) tr).
Proof.
  induction tr as [|ev tr IH] using rev_ind; [apply new_runtime_registry_inv|].
  rewrite run_snoc. by apply step_registry_inv.
Qed.

(** *** The completions of a dead child *)

Lemma entry_reject_state p err b id :
  request_state (entry_reject p err b).1 id =
    (if decide (id = settles p) then rejected_with err else λ s, s)
      <$> request_state b id.
Proof.
  unfold request_state, entry_reject. destruct (decide (id = settles p)) as [->|Hne].
  - pose proof (clear_timer_state (settles p) b (settles p)) as Hc.
    destruct (requests (clear_timer (settles p) b) !! settles p) as [r|] eqn:Hr.
    + destruct (settle_state (settles p) (Rejected err) _ _ Hr) as (r' & -> & Hs).
      destruct (requests b !! settles p) as [r0|]; [|done].
      cbn in *. simplify_eq. rewrite Hs. unfold rejected_with. congruence.
    + unfold settle. rewrite Hr. cbn. rewrite Hr.
      destruct (requests b !! settles p); [done|done].
  - rewrite settle_other by done. rewrite clear_timer_state.
    by destruct (requests b !! id).
Qed.

Lemma reject_all_state err a id :
  request_state (reject_all err a).1 id =
    (if bool_decide (id ∈ (λ kp : Z * PendingEntry, settles kp.2)
                            <$> map_to_list (pending a))
     then rejected_with err else λ s, s) <$> request_state a id.
Proof.
  unfold reject_all. generalize (map_to_list (pending a)). intros l.
  assert (∀ acc : AgentProcess * list (waiter * outcome),
            request_state
              (foldl (λ (acc : AgentProcess * list (waiter * outcome)) kp,
                        let '(a', rs') := entry_reject kp.2 err acc.1 in
                        (a', acc.2 ++ rs')) acc l).1 id =
            (if bool_decide (id ∈ (λ kp : Z * PendingEntry, settles kp.2) <$> l)
             then rejected_with err else λ s, s) <$> request_state acc.1 id)
    as Hfold.
  { induction l as [|kp l IH]; intros acc.
    - cbn. by destruct (request_state acc.1 id).
    - cbn [foldl]. rewrite IH.
      pose proof (entry_reject_state kp.2 err acc.1 id) as Hstep.
      destruct (entry_reject kp.2 err acc.1) as [b rs]. cbn [fst] in *.
      rewrite Hstep. rewrite fmap_cons. cbn [snd].
      destruct (request_state acc.1 id) as [s|]; [|done]. cbn. f_equal.
      destruct (decide (id = settles kp.2)) as [->|Hne].
      + rewrite (bool_decide_eq_true_2 (_ ∈ _ :: _)) by left.
        by case_bool_decide.
      + case_bool_decide as H1; case_bool_decide as H2; try done.
        * exfalso. apply H2. by right.
        * exfalso. apply elem_of_cons in H2 as [?|?]; done. }
  specialize (Hfold (a, [])). destruct (foldl _ _ _) as [b rs]. exact Hfold.
Qed.

Lemma reject_all_pending err a : pending (reject_all err a).1 = ∅.
Proof. unfold reject_all. by destruct (foldl _ _ _). Qed.

Lemma live_same a b :
  pending b = pending a → requests b = requests a → live a → live b.
Proof. intros Hp Hr Hl id p. unfold request_state. rewrite Hp, Hr. apply Hl. Qed.

Lemma live_delete id a b :
  pending b = delete id (pending a) →
  (∀ id', id ≠ id' → requests b !! id' = requests a !! id') →
  live a → live b.
Proof.
  intros Hp Hr Hl id' p. rewrite Hp. unfold request_state.
  destruct (decide (id = id')) as [<-|Hne].
  - by rewrite lookup_delete_eq.
  - rewrite lookup_delete_ne by done. rewrite Hr by done. apply Hl.
Qed.

Lemma live_on_line parsed a : agent_wf a → live a → live (on_line parsed a).1.1.
Proof.
  intros [Hw _] Hl. unfold on_line. destruct parsed as [msg|]; [|done].
  repeat case_match; simplify_eq; cbn; try done.
  - match goal with
    | H : entry_reject ?p ?e ?b = _, Hp : pending a !! ?i = Some _ |- _ =>
        pose proof (entry_reject_pending p e b) as Hpe;
        pose proof (entry_reject_other p e b) as Hre;
        rewrite H in Hpe, Hre; destruct (Hw _ _ Hp) as [Hid _]
    end.
    cbn in *. eapply live_delete; [exact Hpe| |done].
    intros id' Hne. apply Hre. congruence.
  - match goal with
    | H : entry_resolve ?p ?e ?b = _, Hp : pending a !! ?i = Some _ |- _ =>
        pose proof (entry_resolve_pending p e b) as Hpe;
        pose proof (entry_resolve_other p e b) as Hre;
        rewrite H in Hpe, Hre; destruct (Hw _ _ Hp) as [Hid _]
    end.
    cbn in *. eapply live_delete; [exact Hpe| |done].
    intros id' Hne. apply Hre. congruence.
Qed.

Lemma live_on_timeout id a : live a → live (on_timeout id a).1.
Proof.
  intros Hl. unfold on_timeout. destruct (requests a !! id) as [r|]; [|done].
  destruct (req_timer r); try done.
  eapply live_delete; [|intros id' Hne|exact Hl].
  - by destruct (settle_fields id (Rejected (TimeoutError (req_method r)))
                   (set_pending (delete id)
                      (set_requests
                         <[id := {| req_method := req_method r;
                                    req_timer := Fired;
                                    req_state := req_state r;
                                    req_waiter := req_waiter r |}]> a)))
      as (_ & -> & _).
  - rewrite settle_other by done. cbn. by rewrite lookup_insert_ne.
Qed.

Lemma live_on_write_error id err a : live a → live (on_write_error id err a).1.
Proof.
  intros Hl. unfold on_write_error. destruct (requests a !! id) as [r|]; [|done].
  eapply live_delete; [|intros id' Hne|exact Hl].
  - destruct (settle_fields id (Rejected err)
                (set_pending (delete id) (clear_timer id a))) as (_ & -> & _).
    cbn. by destruct (clear_timer_fields id a) as (_ & -> & _).
  - rewrite settle_other by done. cbn. by apply clear_timer_other.
Qed.

Lemma live_reject_all err a : live (reject_all err a).1.
Proof. intros id p. by rewrite reject_all_pending, lookup_empty. Qed.

Lemma live_effect ev ref a :
  agent_wf a → live a → live (transport_effect ev ref a).
Proof.
  intros Hw Hl. destruct ev; cbn; try done; case_bool_decide; try done.
  - by apply live_on_line.
  - by apply live_on_timeout.
  - by apply live_on_write_error.
  - apply live_reject_all.
  - apply live_reject_all.
Qed.

Lemma live_benign a b : benign a b → agent_wf a → live a → live b.
Proof.
  intros Hb [Hw1 Hw2] Hl.
  destruct Hb as [sig a|method params k a|sid dir a|n a];
    try (by eapply live_same; [| |exact Hl]).
  intros id p. unfold request_state, sendRequest. cbn.
  destruct (decide (nextId a = id)) as [<-|Hne].
  - by rewrite !lookup_insert_eq.
  - rewrite !lookup_insert_ne by done. apply Hl.
Qed.

Lemma live_benign_rtc a b : rtc benign a b → agent_wf a → live a → live b.
Proof.
  induction 1 as [a|a b c Hab Hbc IH]; intros Hw Hl; [done|].
  apply IH; [by apply (benign_wf _ _ Hab)|by eapply live_benign].
Qed.

Lemma step_heap_live w ev : heap_wf w → heap_live w → heap_live (step w ev).
Proof.
  intros Hw Hl ref a' Ha'. destruct (step_evolves w ev) as (_ & _ & H).
  specialize (H _ _ Ha'). destruct (heap w !! ref) as [a|] eqn:Ha.
  - eapply live_benign_rtc; [exact H| |].
    + eapply transport_le_wf; [apply transport_le_effect|]. by eapply Hw.
    + apply live_effect; [by eapply Hw|by eapply Hl].
  - destruct H as [key H]. eapply live_benign_rtc; [exact H| |].
    + apply agent_wf_new.
    + intros id p. cbn. by rewrite lookup_empty.
Qed.

Lemma run_heap_live cfg tr : heap_live (run (new_runtime cfg) tr).
Proof.
  induction tr as [|ev tr IH] using rev_ind.
  - intros ref a Ha. cbn in Ha. by rewrite lookup_nil in Ha.
  - rewrite run_snoc. apply step_heap_live; [|done].
    apply run_heap_wf, new_runtime_heap_wf.
Qed.

Lemma rejections_agents ref rs S :
  (∀ k o, (k, o) ∈ rs → (∃ err, o = Rejected err) ∧ reaction_ready S ref k o) →
  ∀ key,
    (agents S !! key = None → agents (run_reactions ref rs S) !! key = None) ∧
    (∀ r, agents S !! key = Some r → r ≠ ref →
          agents (run_reactions ref rs S) !! key = Some r).
Proof.
  revert S. induction rs as [|[k o] rs IH]; intros S Hall key; [done|].
  change (run_reactions ref ((k, o) :: rs) S)
    with (run_reactions ref rs (react ref k o S)).
  destruct (Hall k o) as [[e ->] Hr]; [left|].
  assert ((agents S !! key = None →
           agents (react ref k (Rejected e) S) !! key = None) ∧
          (∀ r, agents S !! key = Some r → r ≠ ref →
                agents (react ref k (Rejected e) S) !! key = Some r))
    as [Hstep1 Hstep2].
  { assert (∀ k0, init_key k = Some k0 →
              (agents S !! key = None →
               agents (init_failed k0 ref e S) !! key = None) ∧
              (∀ r, agents S !! key = Some r → r ≠ ref →
                    agents (init_failed k0 ref e S) !! key = Some r)) as Hfailed.
    { intros k0 Hk0. destruct (Hr k0 Hk0) as (_ & Hag & _). cbn.
      destruct (decide (k0 = key)) as [->|Hne].
      - rewrite lookup_delete_eq. split; [done|].
        intros r Hs Hne. destruct Hag; congruence.
      - by rewrite lookup_delete_ne. }
    destruct k; cbn [react]; try done; by apply Hfailed. }
  destruct (IH (react ref k (Rejected e) S)) with (key := key) as [IH1 IH2].
  { intros k2 o2 Hin. destruct (Hall k2 o2) as [[e2 ->] Hr2]; [by right|].
    split; [eauto|]. by apply ready_after_rejection. }
  split; [auto|]. intros r ? ?. apply IH2; auto.
Qed.

Lemma rejections_heap ref rs S a :
  heap S !! ref = Some a →
  (∀ k o, (k, o) ∈ rs → ∃ err, o = Rejected err) →
  ∃ a', heap (run_reactions ref rs S) !! ref = Some a' ∧
        pending a' = pending a ∧ requests a' = requests a.
Proof.
  revert S a. induction rs as [|[k o] rs IH]; intros S a Ha Hall; [by exists a|].
  change (run_reactions ref ((k, o) :: rs) S)
    with (run_reactions ref rs (react ref k o S)).
  destruct (Hall k o) as [e ->]; [left|].
  assert (∃ a1, heap (react ref k (Rejected e) S) !! ref = Some a1 ∧
                pending a1 = pending a ∧ requests a1 = requests a)
    as (a1 & Ha1 & Hp1 & Hr1).
  { assert (∀ k0, ∃ a1, heap (init_failed k0 ref e S) !! ref = Some a1 ∧
                        pending a1 = pending a ∧ requests a1 = requests a)
      as Hfailed.
    { intros k0. exists (kill "SIGTERM" a). cbn.
      by rewrite list_lookup_alter_eq, Ha. }
    destruct k; cbn [react]; try (by exists a); apply Hfailed. }
  destruct (IH _ _ Ha1) as (a' & ? & Hp & Hq).
  { intros k2 o2 ?. apply (Hall k2 o2). by right. }
  exists a'. split_and!; congruence.
Qed.

Lemma child_exit_shape w ref a ev :
  heap w !! ref = Some a →
  ev = ChildClose ref ∨ (∃ err, ev = ChildError ref err) →
  ∃ S, step w ev = run_reactions ref (reject_all (exit_error ev) a).2 S ∧
       heap S !! ref = Some (reject_all (exit_error ev) a).1 ∧
       agents S = agents (unregister_if_same (agent_key a) ref w) ∧
       neutral w S.
Proof.
  intros Ha [->|[err ->]]; cbn [step exit_error].
  - unfold child_close. rewrite Ha.
    pose proof (transport_le_reject_all ExitedError a) as Hle.
    destruct (reject_all ExitedError a) as [a' rs]. cbn [fst snd] in *.
    eexists. split; [reflexivity|]. split_and!.
    + cbn. rewrite heap_unregister. cbn. by rewrite list_lookup_alter_eq, Ha.
    + cbn. unfold unregister_if_same. cbn. by case_bool_decide.
    + eapply neutral_trans; [|by apply neutral_same].
      eapply neutral_trans; [|apply neutral_unregister].
      by eapply neutral_handler.
  - unfold child_error. rewrite Ha.
    pose proof (transport_le_reject_all (SystemError err) a) as Hle.
    destruct (reject_all (SystemError err) a) as [a' rs]. cbn [fst snd] in *.
    eexists. split; [reflexivity|]. split_and!.
    + rewrite heap_unregister. cbn. by rewrite list_lookup_alter_eq, Ha.
    + unfold unregister_if_same. cbn. by case_bool_decide.
    + eapply neutral_trans; [|apply neutral_unregister].
      eapply neutral_trans; [|by eapply neutral_handler].
      by apply neutral_same.
Qed.

(** C10: when the [close] event or the [error] event of a child fires in a
    reachable state, a registry entry that maps its key to another agent
    stays as it is, so a replacement registered under the key of the dead
    child survives; the entry is deleted when it still maps the key to the
    dead child; no entry appears; and, whatever the registry holds, the
    pending map of the dead child ends empty and the promise of each of its
    entries, unsettled until then, is rejected with the error of the event. *)
Theorem dead_child_spares_replacement (cfg : ResolvedStandardAcpConfig)
    (tr : list event) (ref : nat) (a : AgentProcess) (ev : event) :
  let w := run (new_runtime cfg) tr in
  let w' := step w ev in
  heap w !! ref = Some a →
  ev = ChildClose ref ∨ (∃ err, ev = ChildError ref err) →
  (∀ key r, agents w !! key = Some r → r ≠ ref → agents w' !! key = Some r) ∧
  (agents w !! agent_key a = Some ref → agents w' !! agent_key a = None) ∧
  (∀ key, agents w !! key = None → agents w' !! key = None) ∧
  ∃ a', heap w' !! ref = Some a' ∧ pending a' = ∅ ∧
        ∀ id p, pending a !! id = Some p →
          request_state a id = Some None ∧
          settled w' ref id = Some (Rejected (exit_error ev)).
Proof.
  intros w w' Ha Hev.
  pose proof (run_registry_inv cfg tr) as Hinv.
  pose proof (run_heap_live cfg tr _ _ Ha) as Hlive.
  pose proof (run_heap_wf _ tr (new_runtime_heap_wf cfg) _ _ Ha) as [Hwf _].
  fold w in Hinv.
  destruct (child_exit_shape w ref a ev Ha Hev) as (S & Hstep & HS & Hag & Hn).
  pose proof (reacts_to_reject_all (exit_error ev) a) as [Hr Hle].
  pose proof (reject_all_rejected (exit_error ev) a) as Hrej.
  pose proof (reject_all_pending (exit_error ev) a) as Hempty.
  pose proof (reject_all_state (exit_error ev) a) as Hstate.
  destruct (reject_all (exit_error ev) a) as [a1 rs]. cbn [fst snd] in *.
  assert (∀ k o, (k, o) ∈ rs →
            (∃ err, o = Rejected err) ∧ reaction_ready S ref k o) as Hall.
  { intros k o Hin. split; [eauto|]. destruct Hn as (Hi & Hag' & _).
    exact (ready_of_reacts w S ref a a1 rs k o Hinv Ha Hle Hr Hin HS Hi Hag'). }
  pose proof (rejections_agents ref rs S Hall) as Hagents.
  destruct (rejections_heap ref rs S a1 HS) as (a' & Ha' & Hp' & Hq'); [eauto|].
  unfold w'. rewrite Hstep. unfold unregister_if_same in Hag.
  split_and!.
  - intros key r Hkey Hne. apply Hagents; [|done]. rewrite Hag.
    case_bool_decide as Hsame; cbn; [|done].
    rewrite lookup_delete_ne; [done|]. intros <-. congruence.
  - intros Hsame. apply Hagents. rewrite Hag.
    rewrite bool_decide_eq_true_2 by done. cbn. apply lookup_delete_eq.
  - intros key Hnone. apply Hagents. rewrite Hag.
    case_bool_decide; cbn; [|done].
    destruct (decide (agent_key a = key)) as [<-|?];
      [apply lookup_delete_eq|by rewrite lookup_delete_ne].
  - exists a'. split_and!; [done|congruence|].
    intros id p Hp. pose proof (Hlive _ _ Hp) as Hs. split; [done|].
    destruct (Hwf _ _ Hp) as [Hid _].
    specialize (Hstate id). rewrite Hs in Hstate.
    rewrite bool_decide_eq_true_2 in Hstate.
    2:{ apply list_elem_of_fmap. exists (id, p). split; [done|].
        by apply elem_of_map_to_list. }
    unfold settled. rewrite Ha'. cbn. rewrite Hq'.
    unfold request_state in Hstate.
    destruct (requests a1 !! id) as [r1|]; [|done]. cbn in *.
    unfold rejected_with in Hstate. cbn in Hstate. congruence.
Qed.

(** The turn of the first agent is still awaiting its prompt when the agent
    is replaced; the [close] event of the first child leaves the second agent
    registered and rejects the prompt. *)
Lemma dead_child_spares_replacement_witness :
  let w := run (new_runtime example_config) example_replacement in
  let w' := step w (ChildClose 0) in
  agents w !! "s1" = Some 1 ∧
  agents w' !! "s1" = Some 1 ∧
  settled w 0 3 = None ∧
  settled w' 0 3 = Some (Rejected ExitedError).
Proof.
  cbv zeta.
  set (a := default (new_agent example_config "")
              (heap (run (new_runtime example_config) example_replacement) !! 0)).
  destruct (dead_child_spares_replacement example_config example_replacement
              0 a (ChildClose 0))
    as (Hkeeps & _ & _ & a' & _ & _ & Hrejects);
    [vm_compute; reflexivity|by left|].
  split_and!.
  - vm_compute; reflexivity.
  - apply Hkeeps; [vm_compute; reflexivity|done].
  - vm_compute; reflexivity.
  - apply (Hrejects 3%Z {| settles := 3 |}). vm_compute; reflexivity.
Defined.

(** ** The plugin configuration *)

Lemma forallb_is_string_mapM items :
  forallb is_string items = true →
  ∃ l, mapM as_string items = Some l ∧ items = JStr <$> l.
Proof.
  induction items as [|v items IH]; cbn; [by exists []|].
  intros [Hv Hrest]%andb_prop. destruct (IH Hrest) as (l & Hl & ->).
  destruct v; try discriminate Hv. exists (s :: l). cbn. by rewrite Hl.
Qed.

Lemma forallb_is_string_record fields :
  forallb is_string fields.*2 = true →
  ∃ e, mapM (λ kv : string * jsval, s ← as_string kv.2; Some (kv.1, s)) fields
         = Some e ∧
       fields = prod_map id JStr <$> e.
Proof.
  induction fields as [|[k v] fields IH]; cbn; [by exists []|].
  intros [Hv Hrest]%andb_prop. destruct (IH Hrest) as (e & He & ->).
  destruct v; try discriminate Hv. exists ((k, s) :: e). cbn.
  cbn in He. by rewrite He.
Qed.

Lemma mapM_as_string_JStr l : mapM as_string (JStr <$> l) = Some l.
Proof. induction l as [|s l IH]; cbn; [done|]. by rewrite IH. Qed.

Lemma mapM_as_string_record e :
  mapM (λ kv : string * jsval, s ← as_string kv.2; Some (kv.1, s))
    (prod_map id JStr <$> e) = Some e.
Proof. induction e as [|[k s] e IH]; cbn; [done|]. by rewrite IH. Qed.

Lemma forallb_is_string_JStr l : forallb is_string (JStr <$> l) = true.
Proof. by induction l. Qed.

(** What [safeParse] lets a field of the raw configuration be. *)
Lemma safeParse_fields fields data :
  safeParse (JObj fields) = Success data →
  data = JObj fields ∧
  (get (JObj fields) "command" = JUndef ∨
   ∃ s, get (JObj fields) "command" = JStr s) ∧
  (get (JObj fields) "args" = JUndef ∨
   ∃ l, get (JObj fields) "args" = JArr (JStr <$> l)) ∧
  (get (JObj fields) "cwd" = JUndef ∨
   ∃ s, get (JObj fields) "cwd" = JStr s) ∧
  (get (JObj fields) "env" = JUndef ∨
   ∃ e, get (JObj fields) "env" = JObj (prod_map id JStr <$> e)).
Proof.
  unfold safeParse. cbn [defined isRecord typeof not_null Array_isArray negb
                         String.eqb andb].
  change (String.eqb "object" "object") with true. cbn [andb negb].
  generalize (get (JObj fields) "command") (get (JObj fields) "args")
             (get (JObj fields) "cwd") (get (JObj fields) "env").
  intros c a d e.
  destruct c as [| | | |s| |]; cbn; try discriminate; (
  destruct a as [| | | | |items|]; cbn; try discriminate;
    [|destruct (forallb is_string items) eqn:Hitems; cbn; try discriminate];
  (destruct d as [| | | |s'| |]; cbn; try discriminate;
   (destruct e as [| | | | | |env]; cbn; try discriminate;
      [|destruct (forallb is_string env.*2) eqn:Henv; cbn; try discriminate];
    intros [= <-]; split_and!; eauto;
    try (right; destruct (forallb_is_string_mapM _ Hitems) as (l & _ & ->);
         by eexists);
    try (right; destruct (forallb_is_string_record _ Henv) as (l & _ & ->);
         by eexists)))).
Qed.

(** A raw configuration that [safeParse] accepts resolves to a well-typed
    configuration: each field is the one given, or its default when the key
    is missing ([kiro-cli], [["acp"]], the workspace directory or else the
    current directory of the process, no environment); the data handed back
    is the value itself. *)
Theorem safeParse_resolves_typed (value : jsval) (workspaceDir : option string)
    (process_cwd : string) (data : jsval) :
  safeParse value = Success data →
  data = value ∧
  ∃ cfg, typed (resolveStandardAcpConfig value workspaceDir process_cwd)
           = Some cfg ∧
         command cfg = default "kiro-cli" (as_string (get value "command")) ∧
         args cfg = default ["acp"] (as_strings (get value "args")) ∧
         cfg_cwd cfg = default (default process_cwd workspaceDir)
                         (as_string (get value "cwd")) ∧
         env cfg = default [] (as_string_record (get value "env")).
Proof.
  intros Hparse.
  assert (typed (resolveStandardAcpConfig JUndef workspaceDir process_cwd)
          = Some {| command := "kiro-cli"; args := ["acp"];
                    cfg_cwd := default process_cwd workspaceDir; env := [] |})
    as Hundef by (by destruct workspaceDir).
  destruct value as [| | | | | |fields]; try discriminate Hparse.
  { injection Hparse as <-. split; [done|]. eexists. split; [exact Hundef|done]. }
  destruct (safeParse_fields _ _ Hparse) as (-> & Hc & Ha & Hd & He).
  split; [done|].
  unfold typed, resolveStandardAcpConfig.
  cbn [nullish non_nullish resolved_command resolved_args resolved_cwd
       resolved_env].
  destruct Hc as [-> | [c ->]], Ha as [-> | [a ->]], Hd as [-> | [d ->]],
           He as [-> | [e ->]];
    cbn [nullish non_nullish as_string as_strings as_string_record mbind
         option_bind default];
    rewrite ?mapM_as_string_JStr, ?mapM_as_string_record;
    destruct workspaceDir; cbn; eexists; (split; [reflexivity|done]).
Qed.

Lemma safeParse_resolves_typed_witness :
  ∃ cfg, typed (resolveStandardAcpConfig
                  (JObj [("command", JStr "copilot");
                         ("args", JArr [JStr "--acp"; JStr "--stdio"])])
                  (Some "/work") "/") = Some cfg ∧
         command cfg = "copilot" ∧ args cfg = ["--acp"; "--stdio"] ∧
         cfg_cwd cfg = "/work" ∧ env cfg = [].
Proof.
  destruct (safeParse_resolves_typed
              (JObj [("command", JStr "copilot");
                     ("args", JArr [JStr "--acp"; JStr "--stdio"])])
              (Some "/work") "/" _ eq_refl) as (_ & cfg & H).
  by exists cfg.
Defined.

(** A key that is none of [command], [args], [cwd], [env] changes neither
    the verdict of [safeParse] nor what [resolveStandardAcpConfig] returns:
    unknown keys are let through and never read. *)
Theorem config_ignores_unknown_keys (k : string) (v : jsval)
    (fields : list (string * jsval)) (workspaceDir : option string)
    (process_cwd : string) :
  k ∉ config_keys →
  issues_of (safeParse (JObj ((k, v) :: fields)))
    = issues_of (safeParse (JObj fields)) ∧
  resolveStandardAcpConfig (JObj ((k, v) :: fields)) workspaceDir process_cwd
    = resolveStandardAcpConfig (JObj fields) workspaceDir process_cwd.
Proof.
  intros Hk.
  assert (∀ k', k' ∈ config_keys →
            get (JObj ((k, v) :: fields)) k' = get (JObj fields) k') as Hget.
  { intros k' Hk'. cbn. destruct (String.eqb_spec k' k) as [->|]; [done|done]. }
  assert (∀ f, isRecord (JObj f) = true) as Hrecord by done.
  unfold safeParse, resolveStandardAcpConfig.
  cbn [defined negb nullish non_nullish].
  rewrite !Hget by (unfold config_keys; set_solver).
  split; [|done]. rewrite !Hrecord. cbn [negb].
  repeat match goal with
         | |- context [if ?b then _ else _] => destruct b
         end; reflexivity.
Qed.

Lemma config_ignores_unknown_keys_witness :
  issues_of (safeParse (JObj [("timeout", JNum 5); ("cwd", JNum 1)]))
    = issues_of (safeParse (JObj [("cwd", JNum 1)])).
Proof.
  apply (config_ignores_unknown_keys "timeout" (JNum 5) [("cwd", JNum 1)]
           None "/").
  unfold config_keys. intros H.
  repeat (apply elem_of_cons in H as [H|H]; [discriminate H|]).
  by apply elem_of_nil in H.
Defined.

(** A configuration with every key given goes through unchanged: [safeParse]
    accepts its raw form and [resolveStandardAcpConfig] gives it back,
    whatever the workspace directory and the current directory are. *)
Theorem resolve_raw_of (cfg : ResolvedStandardAcpConfig)
    (workspaceDir : option string) (process_cwd : string) :
  safeParse (raw_of cfg) = Success (raw_of cfg) ∧
  typed (resolveStandardAcpConfig (raw_of cfg) workspaceDir process_cwd)
    = Some cfg.
Proof.
  destruct cfg as [c a d e]. split.
  - unfold safeParse, raw_of. cbn.
    rewrite forallb_is_string_JStr. cbn.
    assert (forallb is_string (prod_map id JStr <$> e).*2 = true) as ->; [|done].
    by induction e as [|[??] ? IH].
  - unfold typed, resolveStandardAcpConfig, raw_of. cbn.
    rewrite mapM_as_string_JStr. cbn.
    pose proof (mapM_as_string_record e) as He. cbn in He. by rewrite He.
Qed.

(** ** Lines that carry no response *)

Lemma stdout_line_quiet w ref a parsed ev :
  heap w !! ref = Some a → on_line parsed a = (a, [], ev) →
  stdout_line ref parsed w =
    match ev, notifications a with
    | Some e, Some t => update_turn t (sink e) w
    | _, _ => w
    end.
Proof.
  intros Ha Hline. unfold stdout_line. rewrite Ha, Hline.
  rewrite (update_agent_same _ _ _ Ha). by destruct ev, (notifications a).
Qed.

(** A line that does not parse, or parses to anything but an object (a
    number, a string, [null], an array), is dropped: the state stays as it
    was. *)
Theorem non_object_line_ignored (w : Runtime) (ref : nat)
    (parsed : option jsval) :
  (∀ fields, parsed ≠ Some (JObj fields)) →
  step w (StdoutLine ref parsed) = w.
Proof.
  intros Hno. cbn [step].
  destruct (heap w !! ref) as [a|] eqn:Ha;
    [|by unfold stdout_line; rewrite Ha].
  rewrite (stdout_line_quiet w ref a parsed None Ha); [done|].
  destruct parsed as [[| | | | | |fields]|]; try done.
  by destruct (Hno fields).
Qed.

Lemma non_object_line_ignored_witness :
  let w := run (new_runtime example_config) (example_handshake example_input) in
  step w (StdoutLine 0 (Some (JArr [JNum 1; JStr "id"]))) = w ∧
  step w (StdoutLine 0 None) = w.
Proof.
  cbv zeta. split; apply non_object_line_ignored; intros fields; discriminate.
Defined.

(** A line without an [id], or with a null one, is at most a notification:
    it never touches the agents, the registry, the initializations in
    flight or the log; the only generator it can reach is the one whose sink
    the agent holds, and with no sink installed the state stays as it was. *)
Theorem notification_only_feeds_sink (w : Runtime) (ref : nat)
    (a : AgentProcess) (msg : jsval) :
  heap w !! ref = Some a →
  non_nullish (get msg "id") = false →
  let w' := step w (StdoutLine ref (Some msg)) in
  heap w' = heap w ∧ agents w' = agents w ∧
  initializing w' = initializing w ∧ inits w' = inits w ∧
  warnings w' = warnings w ∧
  (∀ i, notifications a ≠ Some i → turns w' !! i = turns w !! i) ∧
  (notifications a = None → w' = w).
Proof.
  intros Ha Hid w'.
  assert (∃ ev, on_line (Some msg) a = (a, [], ev)) as [ev Hline].
  { unfold on_line.
    destruct (has "id" msg), (has "method" msg), (has "error" msg);
      try (by eexists).
    rewrite Hid, andb_false_r.
    destruct (_ && _); [|by eexists].
    destruct (negb _); by eexists. }
  unfold w'. cbn [step]. rewrite (stdout_line_quiet w ref a _ ev Ha Hline).
  destruct ev as [e|], (notifications a) as [t|]; try done.
  split_and!; try done.
  intros i Hi. cbn. rewrite list_lookup_alter_ne; [done|]. congruence.
Qed.

Lemma notification_only_feeds_sink_witness :
  let w := run (new_runtime example_config) (example_handshake example_input) in
  step w (StdoutLine 0
            (Some (JObj [("method", JStr "session/update");
                         ("params",
                          JObj [("update",
                                 JObj [("sessionUpdate", JStr "tool_call")])])])))
  = w.
Proof.
  cbv zeta.
  set (a := default (new_agent example_config "")
              (heap (run (new_runtime example_config)
                       (example_handshake example_input)) !! 0)).
  apply (notification_only_feeds_sink _ 0 a); vm_compute; reflexivity.
Defined.

(** ** [close] *)

(** After [close], no agent answers to the key of the handle: the status is
    [no process], [cancel], [setMode] and a second [close] do nothing, and a
    turn started on the key throws [ACP_TURN_FAILED] unless its signal is
    already aborted.  The agent that was registered has been sent SIGTERM;
    its pending requests, the initializations in flight, the other keys and
    the generators are left as they were. *)
Theorem close_unregisters (w : Runtime) (h : AcpRuntimeHandle) :
  let key := handle_sessionKey h in
  let w' := step w (CallClose h) in
  lookup_agent w' key = None ∧
  getStatus h w' = "no process" ∧
  (∀ h', handle_sessionKey h' = key →
     step w' (CallCancel h') = w' ∧
     (∀ mode, step w' (CallSetMode h' mode) = w') ∧
     step w' (CallClose h') = w') ∧
  (∀ i t, turns w' !! i = Some t → pc t = NotStarted →
     handle_sessionKey (turn_handle t) = key → signal t ≠ Some true →
     pc <$> turns (step w' (CallNext i)) !! i =
       Some (Threw (AcpRuntimeError "ACP_TURN_FAILED"
                      "No agent process for session."))) ∧
  (∀ ref a, lookup_agent w key = Some (ref, a) →
     heap w' !! ref = Some (kill "SIGTERM" a)) ∧
  (∀ ref, (∀ a, lookup_agent w key ≠ Some (ref, a)) →
     heap w' !! ref = heap w !! ref) ∧
  (∀ key', key' ≠ key → agents w' !! key' = agents w !! key') ∧
  initializing w' = initializing w ∧ turns w' = turns w.
Proof.
  intros key w'.
  assert (lookup_agent w' key = None) as Hnone.
  { unfold w', key. cbn [step]. unfold close.
    destruct (lookup_agent w (handle_sessionKey h)) as [[ref a]|] eqn:Hl;
      [|done].
    unfold lookup_agent. cbn. by rewrite lookup_delete_eq. }
  split_and!.
  - done.
  - unfold getStatus. fold key. by rewrite Hnone.
  - intros h' Hh'. cbn [step]. unfold cancel, setMode, close.
    rewrite Hh', Hnone. done.
  - intros i t Ht Hpc Hkey Hsig. cbn [step]. unfold next.
    fold w'. rewrite Ht, Hpc.
    rewrite runTurn_start_throw by (by rewrite ?Hkey).
    unfold update_turn, set_turns. cbn [turns].
    rewrite list_lookup_alter_eq, Ht. done.
  - intros ref a Hl. unfold w', key. cbn [step]. unfold close. fold key.
    rewrite Hl. cbn. apply lookup_agent_Some in Hl as [_ Ha].
    by rewrite list_lookup_alter_eq, Ha.
  - intros ref Hne. unfold w'. cbn [step]. unfold close. fold key.
    destruct (lookup_agent w key) as [[r a]|] eqn:Hl; [|done].
    cbn. rewrite list_lookup_alter_ne; [done|]. intros ->. by eapply Hne.
  - intros key' Hne. unfold w'. cbn [step]. unfold close. fold key.
    destruct (lookup_agent w key) as [[r a]|]; [|done].
    cbn. by rewrite lookup_delete_ne.
  - unfold w'. cbn [step]. unfold close.
    by destruct (lookup_agent w _) as [[r a]|].
  - unfold w'. cbn [step]. unfold close.
    by destruct (lookup_agent w _) as [[r a]|].
Qed.

(** ** The registry against the heap *)

Lemma shrinks_refl w : shrinks w w.
Proof. by split. Qed.

Lemma shrinks_trans w1 w2 w3 : shrinks w1 w2 → shrinks w2 w3 → shrinks w1 w3.
Proof. intros [H1 H2] [H3 H4]. split; eauto. Qed.

Lemma neutral_shrinks w w' : neutral w w' → shrinks w w'.
Proof.
  intros (Hi & Ha & _). split.
  - intros key ref H. destruct (Ha key) as [<-|?]; [done|congruence].
  - intros key ref. by rewrite Hi.
Qed.

Lemma shrinks_delete w w' :
  (∀ k, agents w' !! k = agents w !! k ∨ agents w' !! k = None) →
  (∀ k, initializing w' !! k = initializing w !! k ∨
        initializing w' !! k = None) →
  shrinks w w'.
Proof.
  intros Ha Hi. split; intros k ref H.
  - destruct (Ha k) as [<-|?]; [done|congruence].
  - destruct (Hi k) as [<-|?]; [done|congruence].
Qed.

Lemma lookup_delete_or {V} (m : gmap string V) key k :
  delete key m !! k = m !! k ∨ delete key m !! k = None.
Proof.
  destruct (decide (key = k)) as [<-|?];
    [right; apply lookup_delete_eq|left; by apply lookup_delete_ne].
Qed.

Lemma react_shrinks ref k o w : shrinks w (react ref k o w).
Proof.
  destruct k, o; cbn [react]; try apply shrinks_refl;
    try (by apply neutral_shrinks, neutral_same);
    apply shrinks_delete; intros k'; cbn;
    first [apply lookup_delete_or | by left].
Qed.

Lemma run_reactions_shrinks ref rs w : shrinks w (run_reactions ref rs w).
Proof.
  revert w. induction rs as [|[k o] rs IH]; intros w; [apply shrinks_refl|].
  change (run_reactions ref ((k, o) :: rs) w)
    with (run_reactions ref rs (react ref k o w)).
  eapply shrinks_trans; [apply react_shrinks|apply IH].
Qed.

(** Only [ensureSession] registers an agent or an initialization. *)
Lemma step_shrinks w ev :
  (∀ input, ev ≠ CallEnsureSession input) → shrinks w (step w ev).
Proof.
  intros Hev.
  destruct ev as [input|h text sig|i|h|h mode|h| |i|ref parsed|ref id
                 |ref id err|ref|ref err]; cbn [step].
  - by destruct (Hev input).
  - by apply neutral_shrinks, neutral_same.
  - apply neutral_shrinks, neutral_next.
  - by apply neutral_shrinks, neutral_cancel.
  - apply neutral_shrinks, neutral_setMode.
  - apply neutral_shrinks, neutral_close.
  - apply neutral_shrinks, neutral_closeAll.
  - apply neutral_shrinks, neutral_abort.
  - unfold stdout_line. destruct (heap w !! ref) as [a|]; [|apply shrinks_refl].
    destruct (on_line parsed a) as [[a' rs] e].
    eapply shrinks_trans; [|apply run_reactions_shrinks].
    by destruct e, (notifications a).
  - unfold timeout. destruct (heap w !! ref) as [a|]; [|apply shrinks_refl].
    destruct (on_timeout id a) as [a' rs].
    eapply shrinks_trans; [|apply run_reactions_shrinks]. done.
  - unfold write_error. destruct (heap w !! ref) as [a|]; [|apply shrinks_refl].
    destruct (on_write_error id (SystemError err) a) as [a' rs].
    eapply shrinks_trans; [|apply run_reactions_shrinks]. done.
  - unfold child_close. destruct (heap w !! ref) as [a|]; [|apply shrinks_refl].
    destruct (reject_all ExitedError a) as [a' rs].
    eapply shrinks_trans; [|apply run_reactions_shrinks].
    eapply (shrinks_trans _ (update_agent ref (λ _, a') w)); [by split|].
    apply neutral_shrinks.
    eapply neutral_trans; [apply neutral_unregister|by apply neutral_same].
  - unfold child_error. destruct (heap w !! ref) as [a|]; [|apply shrinks_refl].
    destruct (reject_all (SystemError err) a) as [a' rs].
    eapply shrinks_trans; [|apply run_reactions_shrinks].
    eapply (shrinks_trans _ (update_agent ref (λ _, a') (warn _ w)));
      [by split|].
    apply neutral_shrinks, neutral_unregister.
Qed.

Lemma step_agent_key w ev ref a :
  heap_wf w → heap w !! ref = Some a →
  ∃ a', heap (step w ev) !! ref = Some a' ∧ agent_key a' = agent_key a.
Proof.
  intros Hw Ha. destruct (step_agent w ev ref a Hw Ha) as (a' & Ha' & _ & Hle & _).
  exists a'. split; [done|]. by destruct Hle as (_ & _ & _ & _ & ?).
Qed.

Lemma ensureSession_registry_valid input w :
  registry_valid w → registry_valid (ensureSession input w).1.
Proof.
  intros Hv.
  assert (∀ w0, registry_valid w0 →
                registry_valid (fresh_init (sessionKey input) input w0).1)
    as Hfresh.
  { intros w0 [Hva Hvi]. rewrite fresh_init_eq. cbn [fst].
    assert (∀ (m : gmap string nat) key ref,
              (∀ key ref, m !! key = Some ref →
                 ∃ a, heap w0 !! ref = Some a ∧ agent_key a = key) →
              <[sessionKey input := length (heap w0)]> m !! key = Some ref →
              ∃ a, (heap w0 ++
                      [sendRequest "initialize" initialize_params
                         (AwaitInitialize (sessionKey input) input)
                         (new_agent (config w0) (sessionKey input))]) !! ref
                     = Some a ∧ agent_key a = key) as Hins.
    { intros m key ref Hm.
      destruct (decide (sessionKey input = key)) as [<-|Hne].
      - rewrite lookup_insert_eq. intros [= <-].
        eexists. split; [apply list_lookup_middle; done|done].
      - rewrite lookup_insert_ne by done. intros H.
        destruct (Hm _ _ H) as (a & Ha & Hk). exists a. split; [|done].
        by apply lookup_app_l_Some. }
    split; intros key ref; cbn; by apply Hins. }
  unfold ensureSession.
  destruct (initializing w !! sessionKey input); [done|].
  destruct (lookup_agent w (sessionKey input)) as [[ref agent]|];
    [|by apply Hfresh].
  case_bool_decide; [|done]. apply Hfresh.
  destruct Hv as [Hva Hvi]. split; intros key r; cbn.
  - intros Hd. apply lookup_delete_Some in Hd as [_ Hr].
    destruct (Hva _ _ Hr) as (a & Ha & Hk).
    rewrite list_lookup_alter. case_decide; simplify_eq.
    + rewrite Ha. by eexists.
    + by exists a.
  - intros Hr. destruct (Hvi _ _ Hr) as (a & Ha & Hk).
    rewrite list_lookup_alter. case_decide; simplify_eq.
    + rewrite Ha. by eexists.
    + by exists a.
Qed.

Lemma step_registry_valid w ev :
  heap_wf w → registry_valid w → registry_valid (step w ev).
Proof.
  intros Hw Hv.
  assert ((∃ input, ev = CallEnsureSession input) ∨
          (∀ input, ev ≠ CallEnsureSession input)) as [[input ->]|Hne].
  { destruct ev; try (by right); left; by eexists. }
  { by apply ensureSession_registry_valid. }
  destruct (step_shrinks w ev Hne) as [Hsa Hsi].
  destruct Hv as [Hva Hvi]. split; intros key ref H.
  - destruct (Hva _ _ (Hsa _ _ H)) as (a & Ha & <-).
    by apply step_agent_key.
  - destruct (Hvi _ _ (Hsi _ _ H)) as (a & Ha & <-).
    by apply step_agent_key.
Qed.

Lemma run_registry_valid cfg tr : registry_valid (run (new_runtime cfg) tr).
Proof.
  induction tr as [|ev tr IH] using rev_ind; [by split|].
  rewrite run_snoc. apply step_registry_valid; [|done].
  apply run_heap_wf, new_runtime_heap_wf.
Qed.

(** In every reachable state the registry and the in-flight map hold agents
    of the heap, each filed under the key its handlers captured when it was
    spawned; so no agent is registered under two keys. *)
Theorem registry_holds_agents_under_their_key
    (cfg : ResolvedStandardAcpConfig) (tr : list event) :
  let w := run (new_runtime cfg) tr in
  (∀ key ref, agents w !! key = Some ref →
     ∃ a, heap w !! ref = Some a ∧ agent_key a = key) ∧
  (∀ key ref, initializing w !! key = Some ref →
     ∃ a, heap w !! ref = Some a ∧ agent_key a = key) ∧
  (∀ key key' ref, agents w !! key = Some ref → agents w !! key' = Some ref →
     key = key').
Proof.
  intros w. destruct (run_registry_valid cfg tr) as [Hva Hvi]. fold w in Hva, Hvi.
  split_and!; [done|done|].
  intros key key' ref H1 H2.
  destruct (Hva _ _ H1) as (a & Ha & <-), (Hva _ _ H2) as (a' & Ha' & <-).
  congruence.
Qed.

(** [closeAll] in a reachable state: the registry ends empty, every agent
    it held has been sent one SIGTERM, the other agents of the heap are as
    they were, and neither the initializations in flight nor the generators
    are touched. *)
Theorem closeAll_kills_registered
    (cfg : ResolvedStandardAcpConfig) (tr : list event) :
  let w := run (new_runtime cfg) tr in
  let w' := step w CallCloseAll in
  agents w' = ∅ ∧
  (∀ ref a, heap w !! ref = Some a →
     heap w' !! ref =
       Some (if bool_decide (agents w !! agent_key a = Some ref)
             then kill "SIGTERM" a else a)) ∧
  initializing w' = initializing w ∧ turns w' = turns w ∧
  (∀ h, getStatus h w' = "no process").
Proof.
  intros w w'. destruct (run_registry_valid cfg tr) as [Hva _]. fold w in Hva.
  unfold w'. cbn [step]. unfold closeAll.
  assert (∀ ref a, heap w !! ref = Some a →
            heap (map_fold (λ _ ref w, update_agent ref (kill "SIGTERM") w)
                    w (agents w)) !! ref =
              Some (if bool_decide (agents w !! agent_key a = Some ref)
                    then kill "SIGTERM" a else a)) as Hheap.
  { set (P := λ (r : Runtime) (m : gmap string nat),
                (∀ key ref, m !! key = Some ref →
                   ∃ a, heap w !! ref = Some a ∧ agent_key a = key) →
                ∀ ref a, heap w !! ref = Some a →
                  heap r !! ref =
                    Some (if bool_decide (m !! agent_key a = Some ref)
                          then kill "SIGTERM" a else a)).
    assert (P (map_fold (λ _ ref w, update_agent ref (kill "SIGTERM") w)
                 w (agents w)) (agents w)) as HP; [|by apply HP].
    apply (map_fold_weak_ind P); unfold P.
    - intros _ ref a Ha. by rewrite lookup_empty, bool_decide_eq_false_2.
    - intros i x m r Hi IH Hv ref a Ha.
      assert (∀ key ref, m !! key = Some ref →
                ∃ a, heap w !! ref = Some a ∧ agent_key a = key) as Hvm.
      { intros key r' Hm. apply Hv. rewrite lookup_insert_ne; [done|].
        intros <-. congruence. }
      destruct (Hv i x) as (ax & Hax & Hkx); [apply lookup_insert_eq|].
      specialize (IH Hvm). cbn. rewrite list_lookup_alter.
      case_decide as Hx.
      + subst x. assert (ax = a) as -> by congruence.
        rewrite (IH _ _ Ha), Hkx, Hi. cbn.
        rewrite (bool_decide_eq_false_2 (None = Some ref)) by done.
        by rewrite lookup_insert_eq, bool_decide_eq_true_2.
      + rewrite (IH _ _ Ha). f_equal.
        destruct (decide (i = agent_key a)) as [->|Hne].
        * rewrite lookup_insert_eq, Hi.
          rewrite (bool_decide_eq_false_2 (None = Some ref)) by done.
          rewrite (bool_decide_eq_false_2 (Some x = Some ref)) by congruence.
          done.
        * by rewrite lookup_insert_ne. }
  split_and!.
  - done.
  - exact Hheap.
  - cbn. by apply (map_fold_weak_ind (λ r _, initializing r = initializing w)).
  - cbn. by apply (map_fold_weak_ind (λ r _, turns r = turns w)).
  - intros h. unfold getStatus, lookup_agent. cbn. by rewrite lookup_empty.
Qed.

(** ** The transport at rest *)

Lemma tidy_same a b :
  nextId b = nextId a → pending b = pending a → requests b = requests a →
  tidy a → tidy b.
Proof.
  intros Hn Hp Hr ([H0 H1] & H2 & H3). split_and!.
  - split; [by rewrite Hn|]. intros id. rewrite Hr, Hn. apply H1.
  - intros id. unfold request_state. rewrite Hr, Hp. apply H2.
  - intros id r. rewrite Hr. apply H3.
Qed.

(** One entry leaves the pending map and its promise is settled, its timer
    no longer live; everything else stays. *)
Lemma tidy_handled id a b :
  tidy a →
  nextId b = nextId a → pending b = delete id (pending a) →
  (∀ id', id ≠ id' → requests b !! id' = requests a !! id') →
  (∀ r, requests a !! id = Some r →
     ∃ r', requests b !! id = Some r' ∧ is_Some (req_state r') ∧
           ∀ ms, req_timer r' ≠ Armed ms) →
  (requests a !! id = None → requests b !! id = None) →
  tidy b.
Proof.
  intros ([H0 H1] & H2 & H3) Hn Hp Hother Hsome Hnone. split_and!.
  - split; [by rewrite Hn|]. intros id'. rewrite Hn.
    etrans; [|apply H1]. destruct (decide (id = id')) as [<-|Hne].
    + destruct (requests a !! id) as [r|] eqn:Hr.
      * destruct (Hsome r eq_refl) as (r' & -> & _). by split; eauto.
      * by rewrite Hnone.
    + by rewrite Hother.
  - intros id'. unfold request_state. rewrite Hp.
    destruct (decide (id = id')) as [<-|Hne].
    + destruct (requests a !! id) as [r|] eqn:Hr.
      * destruct (Hsome r eq_refl) as (r' & -> & [o Ho] & _). cbn.
        rewrite Ho. done.
      * by rewrite Hnone.
    + rewrite Hother, lookup_delete_ne by done. apply H2.
  - intros id' r'. destruct (decide (id = id')) as [<-|Hne].
    + destruct (requests a !! id) as [r|] eqn:Hr.
      * destruct (Hsome r eq_refl) as (r1 & -> & [o Ho] & Ht).
        intros [= <-]. by rewrite Ho.
      * by rewrite Hnone.
    + rewrite Hother by done. apply H3.
Qed.

Lemma settle_keeps_pending id o f a :
  requests (settle id o (set_pending f a)).1 = requests (settle id o a).1.
Proof. unfold settle. cbn. by repeat case_match. Qed.

(** What [resolve], [reject] and the write callback make of their request. *)
Lemma cleared_settled id o a r :
  requests a !! id = Some r →
  ∃ r', requests (settle id o (clear_timer id a)).1 !! id = Some r' ∧
        is_Some (req_state r') ∧ ∀ ms, req_timer r' ≠ Armed ms.
Proof.
  intros Hr.
  assert (∃ r1, requests (clear_timer id a) !! id = Some r1 ∧
                ∀ ms, req_timer r1 ≠ Armed ms) as (r1 & Hr1 & Ht).
  { unfold clear_timer. rewrite Hr. destruct (req_timer r) eqn:Ht.
    - exists r. split; [done|]. congruence.
    - cbn. rewrite lookup_insert_eq. by eexists.
    - exists r. split; [done|]. congruence.
    - exists r. split; [done|]. congruence. }
  unfold settle. rewrite Hr1. destruct (req_state r1) eqn:Hs; cbn.
  - exists r1. rewrite Hr1, Hs. by eauto.
  - rewrite lookup_insert_eq. eexists. split; [done|]. cbn. by eauto.
Qed.

Lemma cleared_settled_none id o a :
  requests a !! id = None →
  requests (settle id o (clear_timer id a)).1 !! id = None.
Proof.
  intros Hr. unfold clear_timer. rewrite Hr. unfold settle. by rewrite Hr.
Qed.

Lemma cleared_settled_other id id' o a :
  id ≠ id' →
  requests (settle id o (clear_timer id a)).1 !! id' = requests a !! id'.
Proof. intros Hne. by rewrite settle_other, clear_timer_other. Qed.

Lemma cleared_settled_fields id o a :
  nextId (settle id o (clear_timer id a)).1 = nextId a ∧
  pending (settle id o (clear_timer id a)).1 = pending a.
Proof.
  destruct (settle_fields id o (clear_timer id a)) as (-> & -> & _).
  by destruct (clear_timer_fields id a) as (-> & -> & _).
Qed.

Lemma tidy_entry p o a :
  agent_wf a → tidy a → ∀ id, pending a !! id = Some p →
  tidy (settle (settles p) o (clear_timer (settles p)
                                (set_pending (delete id) a))).1.
Proof.
  intros [Hw _] Ht id Hp. destruct (Hw _ _ Hp) as [Hid _].
  destruct (cleared_settled_fields (settles p) o (set_pending (delete id) a))
    as [Hn Hpe].
  eapply (tidy_handled id a); [done|by rewrite Hn|by rewrite Hpe| | |].
  - intros id' Hne. rewrite cleared_settled_other by congruence. done.
  - intros r Hr. rewrite Hid. by apply (cleared_settled _ _ _ r).
  - intros Hr. rewrite Hid. by apply cleared_settled_none.
Qed.

Lemma tidy_on_line parsed a : agent_wf a → tidy a → tidy (on_line parsed a).1.1.
Proof.
  intros Hw Ht. unfold on_line. destruct parsed as [msg|]; [|done].
  repeat case_match; simplify_eq; cbn;
    try done; try (by eapply tidy_same; [| | |exact Ht]).
  - match goal with
    | H : entry_reject ?p ?e ?b = _, Hp : pending a !! ?i = Some _ |- _ =>
        pose proof (tidy_entry p (Rejected e) a Hw Ht _ Hp) as Hte;
        unfold entry_reject in H; rewrite H in Hte
    end. done.
  - match goal with
    | H : entry_resolve ?p ?v ?b = _, Hp : pending a !! ?i = Some _ |- _ =>
        pose proof (tidy_entry p (Fulfilled v) a Hw Ht _ Hp) as Hte;
        unfold entry_resolve in H; rewrite H in Hte
    end. done.
Qed.

Lemma tidy_on_timeout id a : tidy a → tidy (on_timeout id a).1.
Proof.
  intros Ht. unfold on_timeout. destruct (requests a !! id) as [r|] eqn:Hr; [|done].
  destruct (req_timer r) eqn:Htimer; try done.
  set (a1 := set_requests _ a).
  destruct (settle_fields id (Rejected (TimeoutError (req_method r)))
              (set_pending (delete id) a1)) as (Hn & Hp & _).
  eapply (tidy_handled id a); [done|by rewrite Hn|by rewrite Hp| | |].
  - intros id' Hne. rewrite settle_other by done. cbn.
    by rewrite lookup_insert_ne.
  - intros r0 Hr0. rewrite settle_keeps_pending.
    assert (requests a1 !! id
            = Some {| req_method := req_method r; req_timer := Fired;
                      req_state := req_state r; req_waiter := req_waiter r |})
      as Hr1 by (cbn; by rewrite lookup_insert_eq).
    unfold settle. rewrite Hr1. cbn [req_state].
    destruct (req_state r) eqn:Hs; cbn;
      rewrite lookup_insert_eq; eexists; (split; [done|]); cbn; by eauto.
  - intros Hnone. congruence.
Qed.

Lemma tidy_on_write_error id err a : tidy a → tidy (on_write_error id err a).1.
Proof.
  intros Ht. unfold on_write_error.
  destruct (requests a !! id) as [r|] eqn:Hr; [|done].
  destruct (settle_fields id (Rejected err)
              (set_pending (delete id) (clear_timer id a))) as (Hn & Hp & _).
  destruct (clear_timer_fields id a) as (Hn' & Hp' & _).
  eapply (tidy_handled id a);
    [done|by rewrite Hn|by rewrite Hp; cbn; rewrite Hp'| | |].
  - intros id' Hne. rewrite settle_keeps_pending.
    by apply cleared_settled_other.
  - intros r0 Hr0. rewrite settle_keeps_pending.
    by apply (cleared_settled _ _ _ r0).
  - intros Hnone. congruence.
Qed.

Lemma timers_match_entry_reject p err a :
  timers_match a → timers_match (entry_reject p err a).1.
Proof.
  intros Ht id r'. unfold entry_reject.
  destruct (decide (settles p = id)) as [<-|Hne].
  - destruct (requests a !! settles p) as [r|] eqn:Hr.
    + destruct (cleared_settled _ (Rejected err) _ _ Hr)
        as (r1 & -> & [o Ho] & Hno).
      intros [= <-]. by rewrite Ho.
    + by rewrite cleared_settled_none.
  - rewrite cleared_settled_other by done. apply Ht.
Qed.

Lemma tidy_reject_all err a : agent_wf a → tidy a → tidy (reject_all err a).1.
Proof.
  intros [Hw _] ([H0 H1] & H2 & H3).
  pose proof (transport_le_reject_all err a) as (Hn & _ & Hle & _).
  split_and!.
  - split; [by rewrite Hn|]. intros id. rewrite Hn.
    etrans; [|apply H1]. specialize (Hle id).
    inversion Hle; split; intros [? ?]; by eauto || congruence.
  - intros id Hs. exfalso. rewrite reject_all_state in Hs.
    destruct (request_state a id) as [s|] eqn:Ha; [|done].
    case_bool_decide as Hin; [done|]. cbn in Hs. simplify_eq.
    apply Hin. apply list_elem_of_fmap. exists (id, {| settles := id |}).
    split; [done|]. apply elem_of_map_to_list. by apply H2.
  - apply (reject_all_ind timers_match); [done| |done].
    intros p b Hb. by apply timers_match_entry_reject.
Qed.

Lemma tidy_effect ev ref a : agent_wf a → tidy a → tidy (transport_effect ev ref a).
Proof.
  intros Hw Ht. destruct ev; cbn; try done; case_bool_decide; try done.
  - by apply tidy_on_line.
  - by apply tidy_on_timeout.
  - by apply tidy_on_write_error.
  - by apply tidy_reject_all.
  - by apply tidy_reject_all.
Qed.

Lemma tidy_benign a b : benign a b → agent_wf a → tidy a → tidy b.
Proof.
  intros Hb [Hw1 Hw2] Ht.
  destruct Hb as [sig a|method params k a|sid dir a|n a];
    try (by eapply tidy_same; [| | |exact Ht]).
  destruct Ht as ([H0 H1] & H2 & H3). split_and!.
  - split; [unfold sendRequest; cbn; lia|].
    intros id. unfold sendRequest. cbn.
    destruct (decide (nextId a = id)) as [<-|Hne].
    + rewrite lookup_insert_eq. split; [intros _; lia|by eauto].
    + rewrite lookup_insert_ne by done. etrans; [apply H1|]. lia.
  - intros id. unfold request_state, sendRequest. cbn.
    destruct (decide (nextId a = id)) as [<-|Hne].
    + by rewrite !lookup_insert_eq.
    + rewrite !lookup_insert_ne by done. apply H2.
  - intros id r. unfold sendRequest. cbn.
    destruct (decide (nextId a = id)) as [<-|Hne].
    + rewrite lookup_insert_eq. intros [= <-]. cbn. by case_bool_decide.
    + rewrite lookup_insert_ne by done. apply H3.
Qed.

Lemma tidy_benign_rtc a b : rtc benign a b → agent_wf a → tidy a → tidy b.
Proof.
  induction 1 as [a|a b c Hab Hbc IH]; intros Hw Ht; [done|].
  apply IH; [by apply (benign_wf _ _ Hab)|by eapply tidy_benign].
Qed.

Lemma tidy_new cfg key : tidy (new_agent cfg key).
Proof.
  split_and!.
  - split; [done|]. intros id. cbn. rewrite lookup_empty. split.
    + by intros [? ?].
    + lia.
  - intros id. unfold request_state. cbn. by rewrite lookup_empty.
  - intros id r. cbn. by rewrite lookup_empty.
Qed.

Lemma step_heap_tidy w ev : heap_wf w → heap_tidy w → heap_tidy (step w ev).
Proof.
  intros Hw Ht ref a' Ha'. destruct (step_evolves w ev) as (_ & _ & H).
  specialize (H _ _ Ha'). destruct (heap w !! ref) as [a|] eqn:Ha.
  - eapply tidy_benign_rtc; [exact H| |].
    + eapply transport_le_wf; [apply transport_le_effect|]. by eapply Hw.
    + apply tidy_effect; [by eapply Hw|by eapply Ht].
  - destruct H as [key H]. eapply tidy_benign_rtc; [exact H| |].
    + apply agent_wf_new.
    + apply tidy_new.
Qed.

Lemma run_heap_tidy cfg tr : heap_tidy (run (new_runtime cfg) tr).
Proof.
  induction tr as [|ev tr IH] using rev_ind.
  - intros ref a Ha. cbn in Ha. by rewrite lookup_nil in Ha.
  - rewrite run_snoc. apply step_heap_tidy; [|done].
    apply run_heap_wf, new_runtime_heap_wf.
Qed.

(** The ids of an agent's requests are handed out in order from 1: in every
    reachable state the requests sent so far are exactly those with an id
    from 1 to [nextId - 1]; and whatever happens next, [nextId] never
    decreases and a request keeps its id, its method and its waiter, so no
    id is ever used for a second request. *)
Theorem request_ids_are_consecutive
    (cfg : ResolvedStandardAcpConfig) (tr : list event) (ref : nat)
    (a : AgentProcess) :
  let w := run (new_runtime cfg) tr in
  heap w !! ref = Some a →
  (1 ≤ nextId a)%Z ∧
  (∀ id, is_Some (requests a !! id) ↔ (1 ≤ id < nextId a)%Z) ∧
  (∀ tr', ∃ a', heap (run w tr') !! ref = Some a' ∧
                (nextId a ≤ nextId a')%Z ∧
                ∀ id r, requests a !! id = Some r →
                  ∃ r', requests a' !! id = Some r' ∧
                        req_method r' = req_method r ∧
                        req_waiter r' = req_waiter r).
Proof.
  intros w Ha.
  destruct (run_heap_tidy cfg tr _ _ Ha) as ([H0 H1] & _ & _).
  split_and!; [done|done|].
  intros tr'.
  destruct (run_agent w tr' ref a) as (a' & Ha' & Hle);
    [apply run_heap_wf, new_runtime_heap_wf|done|].
  exists a'. destruct Hle as (Hn & _ & Hr & _). split_and!; [done|done|].
  intros id r Hid. destruct (Hr _ _ Hid) as (r' & Hr' & Hm & Hk & _).
  by exists r'.
Qed.

Lemma request_ids_are_consecutive_witness :
  let w := run (new_runtime example_config) (example_handshake example_input) in
  ∃ a, heap w !! 0 = Some a ∧ nextId a = 3%Z ∧
       is_Some (requests a !! 1%Z) ∧ is_Some (requests a !! 2%Z) ∧
       requests a !! 3%Z = None.
Proof.
  cbv zeta.
  set (w := run (new_runtime example_config) (example_handshake example_input)).
  set (a := default (new_agent example_config "") (heap w !! 0)).
  assert (heap w !! 0 = Some a) as Ha by (vm_compute; reflexivity).
  assert (nextId a = 3%Z) as Hn by (vm_compute; reflexivity).
  destruct (request_ids_are_consecutive example_config
              (example_handshake example_input) 0 a Ha) as (_ & Hd & _).
  exists a. split_and!; [done|done| | |].
  - apply Hd. lia.
  - apply Hd. lia.
  - apply eq_None_not_Some. rewrite Hd. lia.
Defined.

(** In every reachable state the pending map of an agent holds exactly the
    entries of its unsettled promises, each under the id of its request; and
    a timer is live exactly for the unsettled control requests, set to 30
    seconds: no promise is left without the entry that can settle it, and no
    timer outlives its promise. *)
Theorem pending_holds_the_unsettled
    (cfg : ResolvedStandardAcpConfig) (tr : list event) (ref : nat)
    (a : AgentProcess) :
  let w := run (new_runtime cfg) tr in
  heap w !! ref = Some a →
  (∀ id, is_Some (pending a !! id) ↔ request_state a id = Some None) ∧
  (∀ id p, pending a !! id = Some p → settles p = id) ∧
  (∀ id r, requests a !! id = Some r →
     ((∃ ms, req_timer r = Armed ms) ↔
      (req_state r = None ∧ req_method r ∈ CONTROL_METHODS)) ∧
     (∀ ms, req_timer r = Armed ms → ms = 30000%Z)).
Proof.
  intros w Ha.
  destruct (run_heap_tidy cfg tr _ _ Ha) as (_ & H2 & H3).
  pose proof (run_heap_live cfg tr _ _ Ha) as Hlive.
  pose proof (run_heap_wf _ tr (new_runtime_heap_wf cfg) _ _ Ha) as [Hwf _].
  split_and!.
  - intros id. split.
    + intros [p Hp]. by eapply Hlive.
    + intros Hs. rewrite (H2 _ Hs). by eexists.
  - intros id p Hp. by destruct (Hwf _ _ Hp).
  - intros id r Hr. specialize (H3 _ _ Hr).
    destruct (req_state r) as [o|] eqn:Hs.
    + split.
      * split; [intros [ms Hms]; by destruct (H3 ms)|by intros [? _]].
      * intros ms Hms. by destruct (H3 ms).
    + rewrite H3. case_bool_decide as Hc.
      * split; [split; [done|by eexists]|]. intros ms [= <-]. done.
      * split; [|done]. split; [by intros [? ?]|by intros [_ ?]].
Qed.

Lemma pending_holds_the_unsettled_witness :
  let w := run (new_runtime example_config) [CallEnsureSession example_input] in
  ∃ a r, heap w !! 0 = Some a ∧ requests a !! 1%Z = Some r ∧
         is_Some (pending a !! 1%Z) ∧ req_timer r = Armed 30000.
Proof.
  cbv zeta.
  set (w := run (new_runtime example_config) [CallEnsureSession example_input]).
  set (a := default (new_agent example_config "") (heap w !! 0)).
  set (r := default {| req_method := ""; req_timer := NoTimer;
                       req_state := None; req_waiter := HostCall |}
              (requests a !! 1%Z)).
  assert (heap w !! 0 = Some a) as Ha by (vm_compute; reflexivity).
  assert (requests a !! 1%Z = Some r) as Hr by (vm_compute; reflexivity).
  destruct (pending_holds_the_unsettled example_config
              [CallEnsureSession example_input] 0 a Ha) as (Hp & _ & Ht).
  exists a, r. split_and!; [done|done| |].
  - apply Hp. vm_compute. reflexivity.
  - destruct (Ht _ _ Hr) as [[_ Harmed] H30].
    destruct Harmed as [ms Hms].
    + split; [vm_compute; reflexivity|].
      unfold CONTROL_METHODS. vm_compute req_method. left.
    + by rewrite Hms, (H30 _ Hms).
Defined.

(** ** A response against the timeout *)

(** What [on_line] does with a response: an object with [id], without
    [method]. *)
Lemma on_line_response msg id a :
  is_response_for msg id = true →
  ∃ has_error,
    has "error" msg = Some has_error ∧
    on_line (Some msg) a =
      match pending a !! id with
      | Some p =>
          let '(a', rs) :=
            if has_error
            then entry_reject p (RpcError (get msg "error"))
                   (set_pending (delete id) a)
            else entry_resolve p (get msg "result")
                   (set_pending (delete id) a) in
          (a', rs, None)
      | None => (a, [], None)
      end.
Proof.
  unfold is_response_for, on_line. intros H.
  destruct msg as [| | | | | |fields]; try discriminate H.
  destruct (has "id" (JObj fields)) as [[|]|] eqn:Hid; try discriminate H.
  destruct (has "method" (JObj fields)) as [[|]|] eqn:Hm; try discriminate H.
  destruct (get (JObj fields) "id") as [| | |n| | |] eqn:Hg; try discriminate H.
  apply bool_decide_eq_true in H as ->.
  destruct (has_obj "error" fields) as [b Hb]. exists b. split; [done|].
  rewrite Hb. cbn [non_nullish andb]. done.
Qed.

Lemma on_line_response_pending msg id a p :
  is_response_for msg id = true → pending a !! id = Some p →
  pending (on_line (Some msg) a).1.1 !! id = None.
Proof.
  intros Hmsg Hp. destruct (on_line_response msg id a Hmsg) as (b & _ & ->).
  rewrite Hp. destruct b.
  - pose proof (entry_reject_pending p (RpcError (get msg "error"))
                  (set_pending (delete id) a)) as Hpe.
    destruct (entry_reject _ _ _) as [a' rs]. cbn in *.
    by rewrite Hpe, lookup_delete_eq.
  - pose proof (entry_resolve_pending p (get msg "result")
                  (set_pending (delete id) a)) as Hpe.
    destruct (entry_resolve _ _ _) as [a' rs]. cbn in *.
    by rewrite Hpe, lookup_delete_eq.
Qed.

(** Over a step, the agent keeps what the callback left of the entries and
    requests it had. *)
Lemma step_frame w ev ref a id :
  heap_wf w → heap w !! ref = Some a → (id < nextId a)%Z →
  ∃ a', heap (step w ev) !! ref = Some a' ∧
        pending a' !! id = pending (transport_effect ev ref a) !! id ∧
        requests a' !! id = requests (transport_effect ev ref a) !! id.
Proof.
  intros Hw Ha Hid. destruct (step_agent w ev ref a Hw Ha) as (a' & Ha' & _ & _ & Hf).
  exists a'. split; [done|]. apply Hf.
  by destruct (transport_le_effect ev ref a) as (-> & _).
Qed.

Lemma timeout_unarmed w ref a id :
  heap w !! ref = Some a → pending a !! id = None → tidy a →
  step w (TimerExpired ref id) = w.
Proof.
  intros Ha Hp (_ & H2 & H3). cbn [step]. unfold timeout. rewrite Ha.
  assert (on_timeout id a = (a, [])) as ->.
  { unfold on_timeout. destruct (requests a !! id) as [r|] eqn:Hr; [|done].
    specialize (H3 _ _ Hr). destruct (req_state r) eqn:Hs.
    - destruct (req_timer r) eqn:Ht; try done. by destruct (H3 ms).
    - specialize (H2 id). unfold request_state in H2. rewrite Hr in H2.
      cbn in H2. rewrite Hs in H2. specialize (H2 eq_refl). congruence. }
  cbn. by apply update_agent_same.
Qed.

(** Of a response and the timeout of the same request, the first to come
    settles the promise and the other is then ignored: after the response the
    expiry of the timer changes nothing; after the expiry of the timer of a
    control request the promise is rejected with the timeout error and the
    late response changes nothing.  The expiry does nothing to a request that
    is no control request. *)
Theorem response_or_timeout_first_wins
    (cfg : ResolvedStandardAcpConfig) (tr : list event) (ref : nat)
    (a : AgentProcess) (id : Z) (p : PendingEntry) (msg : jsval) :
  let w := run (new_runtime cfg) tr in
  let w1 := step w (StdoutLine ref (Some msg)) in
  let w2 := step w (TimerExpired ref id) in
  heap w !! ref = Some a → pending a !! id = Some p →
  is_response_for msg id = true →
  step w1 (TimerExpired ref id) = w1 ∧
  (∀ r, requests a !! id = Some r → req_method r ∈ CONTROL_METHODS →
     settled w2 ref id = Some (Rejected (TimeoutError (req_method r))) ∧
     step w2 (StdoutLine ref (Some msg)) = w2) ∧
  (∀ r, requests a !! id = Some r → req_method r ∉ CONTROL_METHODS → w2 = w).
Proof.
  intros w w1 w2 Ha Hp Hmsg.
  pose proof (run_heap_wf _ tr (new_runtime_heap_wf cfg)) as Hwf. fold w in Hwf.
  pose proof (run_heap_tidy cfg tr _ _ Ha) as Htidy.
  pose proof (run_heap_live cfg tr _ _ Ha _ _ Hp) as Hlive.
  assert (id < nextId a)%Z as Hid by (eapply pending_lt; eauto).
  split_and!.
  - destruct (step_frame w (StdoutLine ref (Some msg)) ref a id Hwf Ha Hid)
      as (a1 & Ha1 & Hp1 & _).
    cbn [transport_effect] in Hp1.
    rewrite bool_decide_eq_true_2 in Hp1 by done.
    rewrite (on_line_response_pending _ _ _ _ Hmsg Hp) in Hp1.
    apply (timeout_unarmed w1 ref a1 id Ha1 Hp1).
    apply (run_heap_tidy cfg (tr ++ [StdoutLine ref (Some msg)]) ref).
    by rewrite run_snoc.
  - intros r Hr Hcontrol.
    destruct Htidy as (_ & _ & H3). specialize (H3 _ _ Hr).
    unfold request_state in Hlive. rewrite Hr in Hlive. cbn in Hlive.
    injection Hlive as Hstate. rewrite Hstate in H3.
    rewrite bool_decide_eq_true_2 in H3 by done.
    destruct (step_frame w (TimerExpired ref id) ref a id Hwf Ha Hid)
      as (a2 & Ha2 & Hp2 & Hr2).
    cbn [transport_effect] in Hp2, Hr2.
    rewrite bool_decide_eq_true_2 in Hp2, Hr2 by done.
    unfold on_timeout in Hp2, Hr2. rewrite Hr, H3 in Hp2, Hr2.
    set (a' := set_pending (delete id) (set_requests _ a)) in Hp2, Hr2.
    destruct (settle_fields id (Rejected (TimeoutError (req_method r))) a')
      as (_ & Hpe & _).
    rewrite Hpe in Hp2. cbn in Hp2. rewrite lookup_delete_eq in Hp2.
    assert (requests a' !! id
            = Some {| req_method := req_method r; req_timer := Fired;
                      req_state := req_state r; req_waiter := req_waiter r |})
      as Hra' by (cbn; by rewrite lookup_insert_eq).
    destruct (settle_state id (Rejected (TimeoutError (req_method r))) a' _ Hra')
      as (r' & Hr' & Hs').
    cbn [req_state] in Hs'. rewrite Hstate in Hs'. cbn in Hs'.
    rewrite Hr' in Hr2. split.
    + unfold settled, w2. rewrite Ha2. cbn. rewrite Hr2. done.
    + cbn [step].
      rewrite (stdout_line_quiet w2 ref a2 _ None Ha2); [done|].
      destruct (on_line_response msg id a2 Hmsg) as (b & _ & ->).
      by rewrite Hp2.
  - intros r Hr Hcontrol. unfold w2. cbn [step]. unfold timeout. rewrite Ha.
    destruct Htidy as (_ & _ & H3). specialize (H3 _ _ Hr).
    unfold request_state in Hlive. rewrite Hr in Hlive. cbn in Hlive.
    injection Hlive as Hstate. rewrite Hstate in H3.
    rewrite bool_decide_eq_false_2 in H3 by done.
    unfold on_timeout. rewrite Hr, H3. cbn. by apply update_agent_same.
Qed.

Lemma response_or_timeout_first_wins_witness :
  let w := run (new_runtime example_config) [CallEnsureSession example_input] in
  let w1 := step w (StdoutLine 0 (response 1 JNull)) in
  let w2 := step w (TimerExpired 0 1) in
  step w1 (TimerExpired 0 1) = w1 ∧
  settled w2 0 1 = Some (Rejected (TimeoutError "initialize")) ∧
  step w2 (StdoutLine 0 (response 1 JNull)) = w2.
Proof.
  cbv zeta.
  set (w := run (new_runtime example_config) [CallEnsureSession example_input]).
  set (a := default (new_agent example_config "") (heap w !! 0)).
  set (r := default {| req_method := ""; req_timer := NoTimer;
                       req_state := None; req_waiter := HostCall |}
              (requests a !! 1%Z)).
  destruct (response_or_timeout_first_wins example_config
              [CallEnsureSession example_input] 0 a 1 {| settles := 1 |}
              (JObj [("jsonrpc", JStr "2.0"); ("id", JNum 1);
                     ("result", JNull)]))
    as (H1 & H2 & _); try (vm_compute; reflexivity).
  destruct (H2 r) as [H3 H4]; [vm_compute; reflexivity| |].
  { unfold CONTROL_METHODS. vm_compute req_method. left. }
  split_and!; [exact H1|exact H3|exact H4].
Defined.

(** ** What ends a turn that awaits *)

(** A turn at the [await] of its loop is handed an event: it yields it at
    once. *)
Lemma awaiting_push e t :
  turn_inv t → pc t = Awaiting →
  pc (push_unless_done e t) = LoopYield e ∧
  yielded (push_unless_done e t) = yielded t ++ [e] ∧
  done_ (push_unless_done e t) = false ∧
  turn_agent (push_unless_done e t) = turn_agent t ∧
  signal (push_unless_done e t) = signal t ∧
  on_abort (push_unless_done e t) = on_abort t ∧
  on_close (push_unless_done e t) = on_close t.
Proof.
  intros (_ & _ & Hpc) Ht. rewrite Ht in Hpc.
  destruct Hpc as (Hev & Hdone & _).
  destruct t. cbn in *. subst. done.
Qed.

(** A consumer that pulls at the [yield] of a terminal event makes the
    generator return. *)
Lemma pull_terminal e t :
  pc t = LoopYield e → terminal e = true →
  pc (pull t) = Finished ∧ yielded (pull t) = yielded t.
Proof.
  intros Ht He. unfold pull, resume, loop. rewrite Ht, He. done.
Qed.

(** What a turn at a [yield] keeps through the reactions of a callback. *)
Lemma reactions_at_yield ref rs i t e w :
  turns w !! i = Some t → pc t = LoopYield e →
  ∃ t', turns (run_reactions ref rs w) !! i = Some t' ∧
        pc t' = LoopYield e ∧ yielded t' = yielded t.
Proof.
  revert w t. induction rs as [|[k o] rs IH]; intros w t Ht Hpc;
    [by exists t|].
  change (run_reactions ref ((k, o) :: rs) w)
    with (run_reactions ref rs (react ref k o w)).
  assert (∃ t1, turns (react ref k o w) !! i = Some t1 ∧
                pc t1 = LoopYield e ∧ yielded t1 = yielded t)
    as (t1 & Ht1 & Hpc1 & Hy1).
  { assert (∀ x j,
              ∃ t1, turns (update_turn j (push_unless_done x) w) !! i = Some t1 ∧
                    pc t1 = LoopYield e ∧ yielded t1 = yielded t) as Hpush.
    { intros x j. cbn. rewrite list_lookup_alter. case_decide; simplify_eq.
      - rewrite Ht. eexists. split; [done|].
        unfold push_unless_done, wake, push. destruct (done_ t); [done|].
        cbn. by rewrite Hpc.
      - by exists t. }
    destruct k, o; cbn [react]; try (by exists t); apply Hpush. }
  destruct (IH _ _ Ht1 Hpc1) as (t' & ? & ? & ?).
  exists t'. split_and!; congruence.
Qed.

(** The signal of a turn that awaits aborts: the turn yields
    [done] with stop reason [cancelled] at once and returns at the next pull;
    [session/cancel] is sent to the agent registered under the key of the
    handle, and to none when the key has no agent. *)
Theorem abort_ends_awaiting_turn
    (cfg : ResolvedStandardAcpConfig) (tr : list event) (i : nat) (t : Turn) :
  let w := run (new_runtime cfg) tr in
  let w1 := step w (SignalAbort i) in
  let key := handle_sessionKey (turn_handle t) in
  turns w !! i = Some t → pc t = Awaiting → signal t = Some false →
  (∃ t1, turns w1 !! i = Some t1 ∧
         pc t1 = LoopYield (Done (JStr "cancelled")) ∧
         yielded t1 = yielded t ++ [Done (JStr "cancelled")] ∧
         ∃ t2, turns (step w1 (CallNext i)) !! i = Some t2 ∧
               pc t2 = Finished ∧ yielded t2 = yielded t1) ∧
  (∀ ref a, lookup_agent w key = Some (ref, a) →
     heap w1 !! ref =
       Some (sendRequest "session/cancel"
               (JObj [("sessionId", sessionId a)]) AbortCancel a)) ∧
  (lookup_agent w key = None → heap w1 = heap w) ∧
  agents w1 = agents w.
Proof.
  intros w w1 key Ht Hpc Hsig.
  pose proof (run_turn_inv cfg tr i t Ht) as Hinv.
  assert (on_abort t = true) as Hon.
  { destruct Hinv as (_ & _ & H). rewrite Hpc in H.
    destruct H as (_ & _ & _ & _ & _ & H). by apply H. }
  set (t0 := set_on_abort false (set_signal (Some true) t)).
  assert (turn_inv t0 ∧ pc t0 = Awaiting) as [Hinv0 Hpc0].
  { split; [|done]. destruct Hinv as (H1 & H2 & H3). split_and!; try done.
    cbn. rewrite Hpc in *. destruct H3 as (? & ? & ? & ? & ? & ?).
    split_and!; try done. }
  set (wb := update_turn i (set_on_abort false)
               (update_turn i (set_signal (Some true)) w)).
  assert (w1 = update_turn i (push_unless_done (Done (JStr "cancelled")))
                 (cancel (turn_handle t) AbortCancel wb)) as Hw1.
  { unfold w1. cbn [step]. unfold abort. by rewrite Ht, Hsig, Hon. }
  assert (lookup_agent wb key = lookup_agent w key) as Hlook by done.
  assert (turns (cancel (turn_handle t) AbortCancel wb) !! i = Some t0) as Ht0.
  { unfold cancel. fold key. rewrite Hlook.
    assert (turns wb !! i = Some t0) as Hwb.
    { unfold wb. cbn. by rewrite !list_lookup_alter_eq, Ht. }
    by destruct (lookup_agent w key) as [[ref a]|]. }
  destruct (awaiting_push (Done (JStr "cancelled")) t0 Hinv0 Hpc0)
    as (Hpc1 & Hy1 & _).
  assert (turns w1 !! i = Some (push_unless_done (Done (JStr "cancelled")) t0))
    as Ht1.
  { rewrite Hw1. unfold update_turn, set_turns. cbn [turns].
    by rewrite list_lookup_alter_eq, Ht0. }
  split_and!.
  - eexists. split_and!; [exact Ht1|done|done|].
    destruct (pull_terminal _ _ Hpc1 eq_refl) as [Hp2 Hy2].
    eexists. split_and!; [|exact Hp2|exact Hy2].
    cbn [step]. apply next_pull; [done|by rewrite Hpc1..].
  - intros ref a Hl. rewrite Hw1. unfold cancel. fold key. rewrite Hlook, Hl.
    cbn. apply lookup_agent_Some in Hl as [_ Ha].
    by rewrite list_lookup_alter_eq, Ha.
  - intros Hl. rewrite Hw1. unfold cancel. fold key. by rewrite Hlook, Hl.
  - rewrite Hw1. unfold cancel. fold key. rewrite Hlook.
    by destruct (lookup_agent w key) as [[ref a]|].
Qed.

Lemma heap_unregister_turns key ref w :
  turns (unregister_if_same key ref w) = turns w.
Proof. unfold unregister_if_same. by case_match. Qed.

Lemma abort_ends_awaiting_turn_witness :
  let w := run (new_runtime example_config) example_awaiting_turn in
  ∃ t1, turns (step w (SignalAbort 0)) !! 0 = Some t1 ∧
        pc t1 = LoopYield (Done (JStr "cancelled")) ∧
        yielded t1 = [Done (JStr "cancelled")].
Proof.
  cbv zeta.
  set (w := run (new_runtime example_config) example_awaiting_turn).
  set (t := default (new_turn example_handle "" None) (turns w !! 0)).
  destruct (abort_ends_awaiting_turn example_config example_awaiting_turn 0 t)
    as ((t1 & Ht1 & Hpc1 & Hy1 & _) & _); try (vm_compute; reflexivity).
  exists t1. split_and!; [exact Ht1|exact Hpc1|exact Hy1].
Defined.

(** The child of the agent of a turn that awaits closes: the turn yields
    the error [agent process exited unexpectedly] at once, and returns at the
    next pull.  The rejection of its prompt, which the same event brings
    about, comes after the listener and is never yielded. *)
Theorem close_ends_awaiting_turn
    (cfg : ResolvedStandardAcpConfig) (tr : list event) (i : nat) (t : Turn)
    (ref : nat) (a : AgentProcess) :
  let w := run (new_runtime cfg) tr in
  let w1 := step w (ChildClose ref) in
  turns w !! i = Some t → pc t = Awaiting → turn_agent t = Some ref →
  heap w !! ref = Some a →
  ∃ t1, turns w1 !! i = Some t1 ∧
        pc t1 = LoopYield (Error "agent process exited unexpectedly") ∧
        yielded t1 = yielded t ++ [Error "agent process exited unexpectedly"] ∧
        ∃ t2, turns (step w1 (CallNext i)) !! i = Some t2 ∧
              pc t2 = Finished ∧ yielded t2 = yielded t1.
Proof.
  intros w w1 Ht Hpc Hagent Ha.
  pose proof (run_turn_inv cfg tr i t Ht) as Hinv.
  assert (on_close t = true) as Hon.
  { destruct Hinv as (_ & _ & H). rewrite Hpc in H.
    by destruct H as (_ & _ & _ & _ & ? & _). }
  destruct (awaiting_push (Error "agent process exited unexpectedly") t Hinv Hpc)
    as (Hpc0 & Hy0 & _).
  unfold w1. cbn [step]. unfold child_close. rewrite Ha.
  destruct (reject_all ExitedError a) as [a' rs].
  set (S := set_turns _ _).
  assert (turns S !! i
          = Some (push_unless_done (Error "agent process exited unexpectedly") t))
    as HS.
  { unfold S. cbn [turns set_turns]. rewrite heap_unregister_turns.
    cbn [turns update_agent set_heap]. rewrite list_lookup_fmap, Ht. cbn.
    unfold onClose. rewrite Hon, Hagent. by rewrite bool_decide_eq_true_2. }
  destruct (reactions_at_yield ref rs i _ _ S HS Hpc0) as (t1 & Ht1 & Hpc1 & Hy1).
  exists t1. split_and!; [done|done|congruence|].
  destruct (pull_terminal _ _ Hpc1 eq_refl) as [Hp2 Hy2].
  eexists. split_and!; [|exact Hp2|exact Hy2].
  cbn [step]. apply next_pull; [done|by rewrite Hpc1..].
Qed.

Lemma close_ends_awaiting_turn_witness :
  let w := run (new_runtime example_config) example_awaiting_turn in
  ∃ t1, turns (step w (ChildClose 0)) !! 0 = Some t1 ∧
        yielded t1 = [Error "agent process exited unexpectedly"].
Proof.
  cbv zeta.
  set (w := run (new_runtime example_config) example_awaiting_turn).
  set (t := default (new_turn example_handle "" None) (turns w !! 0)).
  set (a := default (new_agent example_config "") (heap w !! 0)).
  destruct (close_ends_awaiting_turn example_config example_awaiting_turn 0 t
              0 a)
    as (t1 & Ht1 & _ & Hy1 & _); try (vm_compute; reflexivity).
  by exists t1.
Defined.

Lemma entry_reactions id o f a r :
  requests a !! id = Some r → req_state r = None →
  (settle id o (clear_timer id (set_pending f a))).2 = [(req_waiter r, o)].
Proof.
  intros Hr Hs. rewrite settle_reactions. unfold clear_timer. cbn [requests set_pending].
  rewrite Hr. destruct (req_timer r); cbn; rewrite ?lookup_insert_eq, ?Hr; cbn;
    by rewrite Hs.
Qed.

(** The answer to the prompt of a turn that awaits: on a result the turn
    yields [done] with the [stopReason] of the result, [end_turn] when it has
    none; on an error it yields [error] with the text of the rejection; in
    both cases at once, and the next pull returns. *)
Theorem prompt_response_ends_awaiting_turn
    (cfg : ResolvedStandardAcpConfig) (tr : list event) (i : nat) (t : Turn)
    (ref : nat) (a : AgentProcess) (id : Z) (r : request) (p : PendingEntry)
    (msg : jsval) :
  let w := run (new_runtime cfg) tr in
  let w1 := step w (StdoutLine ref (Some msg)) in
  let e := prompt_event
             (if has "error" msg is Some true
              then Rejected (RpcError (get msg "error"))
              else Fulfilled (get msg "result")) in
  turns w !! i = Some t → pc t = Awaiting →
  heap w !! ref = Some a → pending a !! id = Some p →
  requests a !! id = Some r → req_waiter r = TurnPrompt i →
  is_response_for msg id = true →
  ∃ t1, turns w1 !! i = Some t1 ∧ pc t1 = LoopYield e ∧
        yielded t1 = yielded t ++ [e] ∧
        ∃ t2, turns (step w1 (CallNext i)) !! i = Some t2 ∧
              pc t2 = Finished ∧ yielded t2 = yielded t1.
Proof.
  intros w w1 e Ht Hpc Ha Hp Hr Hwaiter Hmsg.
  pose proof (run_turn_inv cfg tr i t Ht) as Hinv.
  pose proof (run_heap_live cfg tr _ _ Ha _ _ Hp) as Hlive.
  pose proof (run_heap_wf _ tr (new_runtime_heap_wf cfg) _ _ Ha) as [Hwf _].
  destruct (Hwf _ _ Hp) as [Hid _].
  unfold request_state in Hlive. rewrite Hr in Hlive. injection Hlive as Hstate.
  destruct (on_line_response msg id a Hmsg) as (b & Hb & Hline).
  rewrite Hp in Hline.
  set (o := if b then Rejected (RpcError (get msg "error"))
            else Fulfilled (get msg "result")).
  assert (e = prompt_event o) as He.
  { unfold e, o. rewrite Hb. by destruct b. }
  assert (∃ a', on_line (Some msg) a = (a', [(TurnPrompt i, o)], None))
    as [a' Hline'].
  { rewrite Hline. unfold entry_reject, entry_resolve, o. rewrite Hid.
    destruct b.
    - pose proof (entry_reactions id (Rejected (RpcError (get msg "error")))
                    (delete id) a r Hr Hstate) as Hrs.
      destruct (settle _ _ _) as [a' rs]. cbn in Hrs. subst rs.
      rewrite Hwaiter. by eexists.
    - pose proof (entry_reactions id (Fulfilled (get msg "result"))
                    (delete id) a r Hr Hstate) as Hrs.
      destruct (settle _ _ _) as [a' rs]. cbn in Hrs. subst rs.
      rewrite Hwaiter. by eexists. }
  assert (terminal e = true) as Hterm by (rewrite He; by destruct o).
  destruct (awaiting_push e t Hinv Hpc) as (Hpc1 & Hy1 & _).
  assert (turns w1 !! i = Some (push_unless_done e t)) as Ht1.
  { unfold w1. cbn [step]. unfold stdout_line. rewrite Ha, Hline'.
    cbn [run_reactions foldl fst snd]. rewrite He.
    destruct o; cbn [react prompt_event]; unfold update_turn, set_turns;
      cbn [turns update_agent set_heap];
      by rewrite list_lookup_alter_eq, Ht. }
  eexists. split_and!; [exact Ht1|done|done|].
  destruct (pull_terminal _ _ Hpc1 Hterm) as [Hp2 Hy2].
  eexists. split_and!; [|exact Hp2|exact Hy2].
  cbn [step]. apply next_pull; [done|by rewrite Hpc1..].
Qed.

Lemma prompt_response_ends_awaiting_turn_witness :
  let w := run (new_runtime example_config) example_awaiting_turn in
  let msg := JObj [("jsonrpc", JStr "2.0"); ("id", JNum 3);
                   ("result", JObj [("stopReason", JStr "max_tokens")])] in
  ∃ t1, turns (step w (StdoutLine 0 (Some msg))) !! 0 = Some t1 ∧
        yielded t1 = [Done (JStr "max_tokens")].
Proof.
  cbv zeta.
  set (w := run (new_runtime example_config) example_awaiting_turn).
  set (t := default (new_turn example_handle "" None) (turns w !! 0)).
  set (a := default (new_agent example_config "") (heap w !! 0)).
  set (r := default {| req_method := ""; req_timer := NoTimer;
                       req_state := None; req_waiter := HostCall |}
              (requests a !! 3%Z)).
  destruct (prompt_response_ends_awaiting_turn example_config
              example_awaiting_turn 0 t 0 a 3 r {| settles := 3 |}
              (JObj [("jsonrpc", JStr "2.0"); ("id", JNum 3);
                     ("result", JObj [("stopReason", JStr "max_tokens")])]))
    as (t1 & Ht1 & _ & Hy1 & _); try (vm_compute; reflexivity).
  by exists t1.
Defined.

(** ** The handshake *)

Lemma resolved_fields id v a :
  nextId (resolved id v a) = nextId a ∧
  pending (resolved id v a) = delete id (pending a) ∧
  stdin (resolved id v a) = stdin a ∧
  child (resolved id v a) = child a ∧
  agent_key (resolved id v a) = agent_key a ∧
  sessionId (resolved id v a) = sessionId a ∧
  cwd (resolved id v a) = cwd a ∧
  notifications (resolved id v a) = notifications a.
Proof.
  unfold resolved, entry_resolve, settle, clear_timer. cbn.
  by repeat case_match.
Qed.

Lemma is_response_for_result id v :
  is_response_for
    (JObj [("jsonrpc", JStr "2.0"); ("id", JNum id); ("result", v)]) id = true.
Proof.
  unfold is_response_for.
  rewrite (has_obj_true "id" _ (JNum id)) by done.
  rewrite (has_obj_false "method") by done.
  cbn. by apply bool_decide_eq_true_2.
Qed.

(** A result for a pending request: its entry is resolved and the reaction
    of its waiter runs. *)
Lemma result_step w ref a id r v :
  heap w !! ref = Some a →
  pending a !! id = Some {| settles := id |} →
  requests a !! id = Some r → req_state r = None →
  stdout_line ref (response id v) w =
    react ref (req_waiter r) (Fulfilled v)
      (update_agent ref (λ _, resolved id v a) w).
Proof.
  intros Ha Hp Hr Hs. unfold stdout_line, response. rewrite Ha.
  destruct (on_line_response _ id a (is_response_for_result id v))
    as (b & Hb & ->).
  rewrite (has_obj_false "error") in Hb by done. injection Hb as <-.
  rewrite Hp.
  pose proof (entry_reactions id (Fulfilled v) (delete id) a r Hr Hs) as Hrs.
  change (get (JObj [("jsonrpc", JStr "2.0"); ("id", JNum id); ("result", v)])
            "result") with v.
  unfold resolved, entry_resolve. cbn [settles].
  destruct (settle id (Fulfilled v) _) as [a' rs]. cbn in Hrs. subst rs.
  done.
Qed.

Lemma nullish_idem x y : nullish (nullish x y) y = nullish x y.
Proof.
  unfold nullish. destruct (non_nullish x) eqn:E; [by rewrite E|].
  by destruct (non_nullish y).
Qed.

(** A fresh initialization whose two requests are answered with results. *)
Lemma fresh_handshake w0 input r1 r2 :
  let key := sessionKey input in
  let ref := length (heap w0) in
  let w3 :=
    stdout_line ref (response 2 r2)
      (stdout_line ref (response 1 r1) (fresh_init key input w0).1) in
  agents w3 = <[key := ref]> (agents w0) ∧
  initializing w3 = delete key (<[key := ref]> (initializing w0)) ∧
  inits w3 = <[ref := InitOk (handshake_handle w0 input r2)]> (inits w0) ∧
  turns w3 = turns w0 ∧ config w3 = config w0 ∧
  length (heap w3) = S (length (heap w0)) ∧
  (∀ r, r < ref → heap w3 !! r = heap w0 !! r) ∧
  ∃ a, heap w3 !! ref = Some a ∧
       sessionId a = nullish (get r2 "sessionId") (JStr key) ∧
       cwd a = effectiveCwd w0 input ∧
       spawn_cwd (child a) = cfg_cwd (config w0) ∧
       signals (child a) = [] ∧
       agent_key a = key ∧ nextId a = 3%Z ∧ pending a = ∅ ∧
       notifications a = None ∧
       stdin a =
         [JSON_stringify
            (JObj [("jsonrpc", JStr "2.0"); ("id", JNum 1);
                   ("method", JStr "initialize");
                   ("params", initialize_params)]) +:+ LF;
          JSON_stringify
            (JObj [("jsonrpc", JStr "2.0"); ("id", JNum 2);
                   ("method", JStr "session/new");
                   ("params",
                    session_new_params (effectiveCwd w0 input))]) +:+ LF].
Proof.
  intros key ref w3.
  set (x := sendRequest "initialize" initialize_params
              (AwaitInitialize key input) (new_agent (config w0) key)).
  set (w1 := (fresh_init key input w0).1).
  assert (heap w1 = heap w0 ++ [x] ∧ agents w1 = <[key := ref]> (agents w0) ∧
          initializing w1 = <[key := ref]> (initializing w0) ∧
          inits w1 = inits w0 ∧ turns w1 = turns w0 ∧ config w1 = config w0)
    as (Hh1 & Ha1 & Hi1 & Hn1 & Ht1 & Hc1).
  { unfold w1. by rewrite fresh_init_eq. }
  assert (heap w1 !! ref = Some x) as Hx.
  { rewrite Hh1. by apply list_lookup_middle. }
  subst w3. fold w1. clearbody w1.
  set (w3 := stdout_line ref (response 2 r2)
               (stdout_line ref (response 1 r1) w1)).
  (* the answer to [initialize] *)
  set (y := sendRequest "session/new"
              (session_new_params (effectiveCwd w0 input))
              (AwaitSessionNew key input) (resolved 1 r1 x)).
  set (w2 := stdout_line ref (response 1 r1) w1).
  assert (w2 = update_agent ref (λ _, y) w1) as Hw2.
  { unfold w2.
    rewrite (result_step w1 ref x 1
               {| req_method := "initialize"; req_timer := Armed 30000;
                  req_state := None;
                  req_waiter := AwaitInitialize key input |});
      [|done|done|done|done].
    cbn [react req_waiter]. unfold init_session_new.
    unfold update_agent, set_heap. cbn. f_equal.
    rewrite list_alter_alter_eq. apply list_alter_ext; [|done].
    intros ? _. unfold y, effectiveCwd. cbn. by rewrite Hc1. }
  assert (heap w2 !! ref = Some y) as Hy.
  { rewrite Hw2. cbn. by rewrite list_lookup_alter_eq, Hx. }
  destruct (resolved_fields 1 r1 x)
    as (Hn1x & Hp1x & Hs1x & Hc1x & Hk1x & Hsid1x & Hcwd1x & Hnot1x).
  assert (nextId (resolved 1 r1 x) = 2%Z) as Hnext by (by rewrite Hn1x).
  assert (pending y !! 2%Z = Some {| settles := 2 |}) as Hpy.
  { unfold y, sendRequest. cbn. rewrite Hnext. by rewrite lookup_insert_eq. }
  assert (requests y !! 2%Z
          = Some {| req_method := "session/new"; req_timer := Armed 30000;
                    req_state := None;
                    req_waiter := AwaitSessionNew key input |}) as Hry.
  { unfold y, sendRequest. cbn. rewrite Hnext. by rewrite lookup_insert_eq. }
  (* the answer to [session/new] *)
  assert (w3 = init_done key input ref r2
                 (update_agent ref (λ _, resolved 2 r2 y) w2)) as Hw3.
  { unfold w3. fold w2.
    by rewrite (result_step w2 ref y 2 _ r2 Hy Hpy Hry). }
  destruct (resolved_fields 2 r2 y)
    as (Hn2 & Hp2 & Hs2 & Hc2 & Hk2 & Hsid2 & Hcwd2 & Hnot2).
  rewrite Hw3, Hw2. unfold init_done, handshake_handle, effectiveCwd.
  cbn [agents initializing inits turns config heap update_agent set_heap
       set_inits set_initializing].
  rewrite Ha1, Hi1, Hn1, Ht1, Hc1, Hh1. fold key. rewrite nullish_idem.
  split_and!.
  - done.
  - done.
  - done.
  - done.
  - done.
  - rewrite !length_alter, length_app. cbn. lia.
  - intros r Hr. rewrite !list_lookup_alter_ne by (unfold ref in *; lia).
    by rewrite lookup_app_l.
  - eexists. split.
    { rewrite !list_lookup_alter_eq, list_lookup_middle by done. done. }
    cbn [sessionId cwd child agent_key nextId pending notifications stdin
         set_session].
    rewrite Hc2, Hk2, Hn2, Hp2, Hs2, Hnot2.
    unfold y, sendRequest, write.
    cbn [sessionId cwd child agent_key nextId pending notifications stdin
         set_stdin set_pending set_requests set_nextId].
    rewrite Hnext, Hc1x, Hk1x, Hp1x, Hs1x, Hnot1x.
    by split_and!.
Qed.

(** [ensureSession] with no initialization in flight and no usable session
    for the key (none registered, or one with another working directory),
    followed by results for [initialize] and [session/new]: the call hands
    back the promise of a new agent; once both results are in, the promise
    is fulfilled with a handle whose [runtimeSessionName] is the [sessionId]
    of the second result, or the key when it has none; the agent is
    registered with that session id and the effective working directory,
    nothing is pending, exactly the two requests were written to its stdin,
    the initialization is no longer in flight, and a further [ensureSession]
    with the same input returns the same handle at once and changes
    nothing. *)
Theorem handshake_completes (w : Runtime) (input : AcpRuntimeEnsureInput)
    (r1 r2 : jsval) :
  let key := sessionKey input in
  let ref := length (heap w) in
  let w3 := run w [CallEnsureSession input;
                   StdoutLine ref (response 1 r1);
                   StdoutLine ref (response 2 r2)] in
  let h := handshake_handle w input r2 in
  initializing w !! key = None →
  (∀ r a, lookup_agent w key = Some (r, a) → cwd a ≠ effectiveCwd w input) →
  (ensureSession input w).2 = ReturnsPromise ref ∧
  inits w3 !! ref = Some (InitOk h) ∧
  agents w3 !! key = Some ref ∧ initializing w3 !! key = None ∧
  (∃ a, heap w3 !! ref = Some a ∧
        sessionId a = runtimeSessionName h ∧
        cwd a = effectiveCwd w input ∧
        pending a = ∅ ∧
        stdin a =
          [JSON_stringify
             (JObj [("jsonrpc", JStr "2.0"); ("id", JNum 1);
                    ("method", JStr "initialize");
                    ("params", initialize_params)]) +:+ LF;
           JSON_stringify
             (JObj [("jsonrpc", JStr "2.0"); ("id", JNum 2);
                    ("method", JStr "session/new");
                    ("params",
                     session_new_params (effectiveCwd w input))]) +:+ LF]) ∧
  ensureSession input w3 = (w3, ReturnsHandle h) ∧
  getStatus h w3 = "running, sessionId=" +:+ ToString (runtimeSessionName h).
Proof.
  intros key ref w3 h Hnone Hcwd.
  assert (∃ w0, ensureSession input w = fresh_init key input w0 ∧
                length (heap w0) = ref ∧ config w0 = config w)
    as (w0 & Hens & Hlen & Hcfg).
  { unfold ensureSession. fold key. rewrite Hnone.
    destruct (lookup_agent w key) as [[r a]|] eqn:Hl; [|by exists w].
    rewrite bool_decide_eq_true_2 by (by eapply Hcwd).
    eexists. split; [done|]. split; [|done]. cbn. by rewrite length_alter. }
  assert (effectiveCwd w0 input = effectiveCwd w input) as Heff.
  { unfold effectiveCwd. by rewrite Hcfg. }
  assert (handshake_handle w0 input r2 = h) as Hh.
  { unfold h, handshake_handle. by rewrite Heff. }
  assert (w3 = stdout_line ref (response 2 r2)
                 (stdout_line ref (response 1 r1)
                    (fresh_init key input w0).1)) as Hw3.
  { unfold w3. cbn [run foldl step]. by rewrite Hens. }
  destruct (fresh_handshake w0 input r1 r2)
    as (Hag & Hin & Hinits & _ & Hc3 & _ & _ & a & Ha & Hsid & Hacwd & _ & _
        & _ & _ & Hp & _ & Hstdin).
  fold key in Hag, Hin, Hinits, Hc3, Ha, Hsid.
  rewrite Hlen in Hag, Hin, Hinits, Hc3, Ha.
  rewrite <- Hw3 in Hag, Hin, Hinits, Hc3, Ha.
  rewrite Hh in Hinits. rewrite Heff in Hacwd, Hstdin.
  assert (lookup_agent w3 key = Some (ref, a)) as Hlook.
  { apply lookup_agent_Some. split; [|done]. by rewrite Hag, lookup_insert_eq. }
  split_and!.
  - rewrite Hens, fresh_init_eq. cbn. by rewrite Hlen.
  - by rewrite Hinits, lookup_insert_eq.
  - by rewrite Hag, lookup_insert_eq.
  - by rewrite Hin, lookup_delete_eq.
  - exists a. by split_and!.
  - unfold ensureSession. fold key.
    rewrite Hin, lookup_delete_eq, Hlook.
    assert (effectiveCwd w3 input = effectiveCwd w input) as Heff3.
    { unfold effectiveCwd. by rewrite Hc3, Hcfg. }
    rewrite Heff3, bool_decide_eq_false_2 by (by intros []).
    do 2 f_equal. unfold handle_of, h, handshake_handle. fold key.
    by rewrite Hsid, nullish_idem.
  - unfold getStatus. change (handle_sessionKey h) with key.
    rewrite Hlook. by rewrite Hsid.
Qed.

Lemma handshake_completes_witness :
  let w3 := run (new_runtime example_config) (example_handshake example_input) in
  inits w3 !! 0 = Some (InitOk example_handle) ∧
  ensureSession example_input w3 = (w3, ReturnsHandle example_handle).
Proof.
  cbv zeta.
  destruct (handshake_completes (new_runtime example_config) example_input
              (JObj [("protocolVersion", JNum 1)])
              (JObj [("sessionId", JStr "mock-session-1")]))
    as (_ & H1 & _ & _ & _ & H2 & _).
  - reflexivity.
  - intros r a Hl. vm_compute in Hl. discriminate Hl.
  - split; [exact H1|exact H2].
Defined.

(** ** Initializations in flight *)

Lemma kor_refl a rs : keeps_or_reacts a a rs.
Proof. intros id r Hr _. by left. Qed.

Lemma kor_same a b rs :
  requests b = requests a → keeps_or_reacts a b rs.
Proof. intros Heq id r Hr _. left. by rewrite Heq. Qed.

Lemma entry_reactions_plain id o a r :
  requests a !! id = Some r → req_state r = None →
  (settle id o (clear_timer id a)).2 = [(req_waiter r, o)].
Proof.
  intros Hr Hs. rewrite settle_reactions. unfold clear_timer.
  rewrite Hr. destruct (req_timer r); cbn; rewrite ?lookup_insert_eq, ?Hr; cbn;
    by rewrite Hs.
Qed.

Lemma kor_entry p o a :
  keeps_or_reacts a
    (settle (settles p) o (clear_timer (settles p) a)).1
    (settle (settles p) o (clear_timer (settles p) a)).2.
Proof.
  intros id r Hr Hs. destruct (decide (settles p = id)) as [<-|Hne].
  - right. exists o. rewrite (entry_reactions_plain _ o a r Hr Hs). by left.
  - left. by rewrite cleared_settled_other.
Qed.

Lemma kor_on_line parsed a :
  keeps_or_reacts a (on_line parsed a).1.1 (on_line parsed a).1.2.
Proof.
  unfold on_line. destruct parsed as [msg|]; [|apply kor_refl].
  repeat case_match; simplify_eq; cbn; try apply kor_refl;
    try (by apply kor_same).
  - match goal with
    | H : entry_reject ?p ?e ?b = _ |- _ =>
        pose proof (kor_entry p (Rejected e) b) as Hk;
        unfold entry_reject in H; rewrite H in Hk
    end. exact Hk.
  - match goal with
    | H : entry_resolve ?p ?v ?b = _ |- _ =>
        pose proof (kor_entry p (Fulfilled v) b) as Hk;
        unfold entry_resolve in H; rewrite H in Hk
    end. exact Hk.
Qed.

Lemma kor_on_timeout id0 a :
  keeps_or_reacts a (on_timeout id0 a).1 (on_timeout id0 a).2.
Proof.
  unfold on_timeout. destruct (requests a !! id0) as [r0|] eqn:Hr0;
    [|apply kor_refl].
  destruct (req_timer r0); try apply kor_refl.
  intros id r Hr Hs. destruct (decide (id0 = id)) as [<-|Hne].
  - right. eexists. rewrite settle_reactions. cbn.
    rewrite lookup_insert_eq. cbn. assert (r = r0) as -> by congruence.
    rewrite Hs. by left.
  - left. rewrite settle_other by done. cbn. by rewrite lookup_insert_ne.
Qed.

Lemma kor_on_write_error id0 err a :
  keeps_or_reacts a (on_write_error id0 err a).1 (on_write_error id0 err a).2.
Proof.
  unfold on_write_error. destruct (requests a !! id0) as [r0|] eqn:Hr0;
    [|apply kor_refl].
  intros id r Hr Hs. destruct (decide (id0 = id)) as [<-|Hne].
  - right. exists (Rejected err).
    pose proof (entry_reactions_plain id0 (Rejected err) a r Hr Hs) as Hrs.
    rewrite settle_reactions in *. cbn [requests set_pending].
    rewrite Hrs. by left.
  - left. rewrite settle_other by done. cbn [requests set_pending].
    by rewrite clear_timer_other.
Qed.

Lemma kor_reject_all err a :
  keeps_or_reacts a (reject_all err a).1 (reject_all err a).2.
Proof.
  apply (reject_all_ind2 (keeps_or_reacts a)).
  - apply kor_refl.
  - intros p b rs IH id r Hr Hs. destruct (IH id r Hr Hs) as [Hb|[o Ho]].
    + destruct (kor_entry p (Rejected err) b id r Hb Hs) as [?|[o Ho]];
        [by left|].
      right. exists o. apply elem_of_app. by right.
    + right. exists o. apply elem_of_app. by left.
  - intros b rs IH id r Hr Hs. by destruct (IH id r Hr Hs); [left|right].
Qed.

Lemma rejection_ends_init ref rs w k e key :
  (k, Rejected e) ∈ rs → init_key k = Some key →
  initializing (run_reactions ref rs w) !! key = None.
Proof.
  intros Hin Hk. revert w. induction rs as [|[k' o'] rs IH]; intros w.
  { by apply elem_of_nil in Hin. }
  change (run_reactions ref ((k', o') :: rs) w)
    with (run_reactions ref rs (react ref k' o' w)).
  apply elem_of_cons in Hin as [Heq|Hin]; [|by apply IH].
  injection Heq as <- <-.
  destruct (initializing (run_reactions ref rs (react ref k (Rejected e) w))
              !! key) as [r|] eqn:Hr; [|done].
  apply (run_reactions_shrinks ref rs) in Hr.
  destruct k; cbn in Hk; simplify_eq; cbn in Hr;
    by rewrite lookup_delete_eq in Hr.
Qed.

Lemma on_timeout_rejected id a k o :
  (k, o) ∈ (on_timeout id a).2 → ∃ e, o = Rejected e.
Proof.
  unfold on_timeout. destruct (requests a !! id) as [r|];
    [|by intros ?%elem_of_nil].
  destruct (req_timer r); try (by intros ?%elem_of_nil).
  intros H%settle_rejected. by eexists.
Qed.

Lemma on_write_error_rejected id err a k o :
  (k, o) ∈ (on_write_error id err a).2 → ∃ e, o = Rejected e.
Proof.
  unfold on_write_error. destruct (requests a !! id) as [r|];
    [|by intros ?%elem_of_nil].
  intros H%settle_rejected. by eexists.
Qed.

Lemma handshake_request_send a id r key method params k :
  agent_wf a → handshake_request a id r key →
  handshake_request (sendRequest method params k a) id r key.
Proof.
  intros [_ Hw] (Hr & ?). split; [|done].
  unfold sendRequest. cbn. rewrite lookup_insert_ne; [done|].
  destruct (Hw _ _ Hr). lia.
Qed.

Lemma ensureSession_inflight_live input w :
  inflight_live w → inflight_live (ensureSession input w).1.
Proof.
  intros Hl.
  assert (∀ w0, inflight_live w0 →
                inflight_live (fresh_init (sessionKey input) input w0).1)
    as Hfresh.
  { intros w0 Hl0 key ref. rewrite fresh_init_eq. cbn [fst initializing heap].
    destruct (decide (sessionKey input = key)) as [<-|Hne].
    - rewrite lookup_insert_eq. intros [= <-].
      eexists _, 1%Z, _. split; [by apply list_lookup_middle|].
      split_and!; [by unfold sendRequest; cbn; rewrite lookup_insert_eq|
                   done|done|].
      cbn. unfold CONTROL_METHODS. left.
    - rewrite lookup_insert_ne by done. intros Hi.
      destruct (Hl0 _ _ Hi) as (a & id & r & Ha & Hh).
      exists a, id, r. split; [by apply lookup_app_l_Some|done]. }
  unfold ensureSession.
  destruct (initializing w !! sessionKey input); [done|].
  destruct (lookup_agent w (sessionKey input)) as [[ref agent]|];
    [|by apply Hfresh].
  case_bool_decide; [|done]. apply Hfresh.
  intros key r Hi. cbn in Hi. destruct (Hl _ _ Hi) as (a & id & rq & Ha & Hh).
  cbn. rewrite list_lookup_alter. case_decide; simplify_eq.
  - rewrite Ha. by eexists _, id, rq.
  - by exists a, id, rq.
Qed.

Lemma step_inflight_live w ev :
  heap_wf w → inflight_live w → inflight_live (step w ev).
Proof.
  intros Hw Hl.
  assert ((∃ input, ev = CallEnsureSession input) ∨
          (∀ input, ev ≠ CallEnsureSession input)) as [[input ->]|Hne].
  { destruct ev; try (by right); left; by eexists. }
  { by apply ensureSession_inflight_live. }
  intros key ref Hi'.
  pose proof (proj2 (step_shrinks w ev Hne) _ _ Hi') as Hi.
  destruct (Hl _ _ Hi) as (a & id & r & Ha & Hr & Hs & Hk & Hm).
  assert (id < nextId a)%Z as Hid.
  { destruct (Hw _ _ Ha) as [_ H2]. by destruct (H2 _ _ Hr). }
  destruct (step_frame w ev ref a id Hw Ha Hid) as (a' & Ha' & _ & Hreq).
  assert (requests (transport_effect ev ref a) !! id = Some r →
          ∃ a' id r, heap (step w ev) !! ref = Some a' ∧
                     handshake_request a' id r key) as Hkeep.
  { intros Heff. exists a', id, r. split; [done|]. split; [congruence|done]. }
  assert (∀ rs S e,
            step w ev = run_reactions ref rs S →
            (req_waiter r, Rejected e) ∈ rs → False) as Hrejected.
  { intros rs S e Hstep Hin.
    rewrite Hstep, (rejection_ends_init ref rs S _ e key Hin Hk) in Hi'.
    discriminate Hi'. }
  destruct ev as [input|h text sig|i|h|h mode|h| |i|r0 parsed|r0 id0
                 |r0 id0 err|r0|r0 err];
    try (by apply Hkeep); cbn [transport_effect] in Hkeep;
    (case_bool_decide as Href; [subst r0|by apply Hkeep]).
  - (* a line *)
    destruct (kor_on_line parsed a id r Hr Hs) as [Hsame|[o Hin]];
      [by apply Hkeep|].
    pose proof (on_line_short parsed a) as Hshort.
    cbn [step] in *. unfold stdout_line in *. rewrite Ha in *.
    destruct (on_line parsed a) as [[a1 rs] e]. cbn [fst snd] in *.
    destruct rs as [|[k1 o1] [|]]; [by apply elem_of_nil in Hin| |cbn in Hshort; lia].
    apply list_elem_of_singleton in Hin. injection Hin as <- <-.
    set (S := match e, notifications a with
              | Some e, Some t => update_turn t (sink e) _
              | _, _ => _
              end) in *.
    assert (heap S !! ref = Some a1) as HS.
    { unfold S. destruct e, (notifications a); cbn;
        by rewrite list_lookup_alter_eq, Ha. }
    cbn [run_reactions foldl fst snd] in *.
    destruct (req_waiter r) as [key0 input0|key0 input0| | |] eqn:Hwaiter;
      cbn in Hk; simplify_eq;
      destruct o as [v|err]; cbn [react] in *;
      try (cbn in Hi'; rewrite lookup_delete_eq in Hi'; discriminate Hi').
    unfold init_session_new. cbn [heap update_agent set_heap].
    rewrite list_lookup_alter_eq, HS. cbn.
    eexists _, (nextId a1), _. split; [done|].
    split_and!; [by unfold sendRequest; cbn; rewrite lookup_insert_eq|
                 done|done|].
    cbn. unfold CONTROL_METHODS. right. left.
  - (* a timeout *)
    destruct (kor_on_timeout id0 a id r Hr Hs) as [Hsame|[o Hin]];
      [by apply Hkeep|]. exfalso.
    pose proof (on_timeout_rejected id0 a) as Hrej.
    destruct (Hrej _ _ Hin) as [e ->].
    eapply (Hrejected (on_timeout id0 a).2
              (update_agent ref (λ _, (on_timeout id0 a).1) w) e); [|done].
    cbn [step]. unfold timeout. rewrite Ha.
    by destruct (on_timeout id0 a).
  - (* a write error *)
    destruct (kor_on_write_error id0 (SystemError err) a id r Hr Hs)
      as [Hsame|[o Hin]]; [by apply Hkeep|]. exfalso.
    pose proof (on_write_error_rejected id0 (SystemError err) a) as Hrej.
    destruct (Hrej _ _ Hin) as [e ->].
    eapply (Hrejected (on_write_error id0 (SystemError err) a).2
              (update_agent ref
                 (λ _, (on_write_error id0 (SystemError err) a).1) w) e);
      [|done].
    cbn [step]. unfold write_error. rewrite Ha.
    by destruct (on_write_error id0 (SystemError err) a).
  - (* the child closed *)
    destruct (kor_reject_all ExitedError a id r Hr Hs) as [Hsame|[o Hin]];
      [by apply Hkeep|]. exfalso.
    pose proof (reject_all_rejected ExitedError a) as Hrej.
    pose proof (Hrej _ _ Hin) as ->.
    eapply (Hrejected (reject_all ExitedError a).2
              (set_turns (fmap (onClose ref))
                 (unregister_if_same (agent_key a) ref
                    (update_agent ref (λ _, (reject_all ExitedError a).1) w)))
              ExitedError); [|done].
    cbn [step]. unfold child_close. rewrite Ha.
    by destruct (reject_all ExitedError a).
  - (* the child failed *)
    destruct (kor_reject_all (SystemError err) a id r Hr Hs)
      as [Hsame|[o Hin]]; [by apply Hkeep|]. exfalso.
    pose proof (reject_all_rejected (SystemError err) a) as Hrej.
    pose proof (Hrej _ _ Hin) as ->.
    eapply (Hrejected (reject_all (SystemError err) a).2
              (unregister_if_same (agent_key a) ref
                 (update_agent ref (λ _, (reject_all (SystemError err) a).1)
                    (warn ("[acp-standard:" +:+ agent_key a +:+
                           "] spawn error: " +:+ err) w)))
              (SystemError err)); [|done].
    cbn [step]. unfold child_error. rewrite Ha.
    by destruct (reject_all (SystemError err) a).
Qed.

Lemma run_inflight_live cfg tr : inflight_live (run (new_runtime cfg) tr).
Proof.
  induction tr as [|ev tr IH] using rev_ind.
  - intros key ref Hi. cbn in Hi. by rewrite lookup_empty in Hi.
  - rewrite run_snoc. apply step_inflight_live; [|done].
    apply run_heap_wf, new_runtime_heap_wf.
Qed.

(** An initialization in flight cannot wait for ever: in every reachable
    state its agent has an unsettled request of the handshake, with a pending
    entry and a live timer of 30 seconds; and when that timer expires, the
    initialization fails with the timeout error of the request: the child is
    sent SIGTERM and the key leaves the registry and the in-flight map. *)
Theorem initialization_in_flight_is_timed
    (cfg : ResolvedStandardAcpConfig) (tr : list event) (key : string)
    (ref : nat) :
  let w := run (new_runtime cfg) tr in
  initializing w !! key = Some ref →
  ∃ a id r,
    heap w !! ref = Some a ∧ requests a !! id = Some r ∧
    req_state r = None ∧ init_key (req_waiter r) = Some key ∧
    req_timer r = Armed 30000 ∧ is_Some (pending a !! id) ∧
    let w' := step w (TimerExpired ref id) in
    initializing w' !! key = None ∧ agents w' !! key = None ∧
    inits w' !! ref = Some (InitFailed (TimeoutError (req_method r))) ∧
    (signals ∘ child <$> heap w' !! ref)
      = Some (signals (child a) ++ ["SIGTERM"]).
Proof.
  intros w Hi.
  destruct (run_inflight_live cfg tr _ _ Hi) as (a & id & r & Ha & Hr & Hs & Hk & Hm).
  fold w in Ha.
  destruct (run_heap_tidy cfg tr _ _ Ha) as (_ & H2 & H3).
  pose proof (H3 _ _ Hr) as Ht. rewrite Hs in Ht.
  rewrite bool_decide_eq_true_2 in Ht by done.
  assert (pending a !! id = Some {| settles := id |}) as Hp.
  { apply H2. unfold request_state. rewrite Hr. cbn. by rewrite Hs. }
  exists a, id, r. split_and!; try done.
  intros w'.
  set (e := TimeoutError (req_method r)).
  assert (∃ a1, on_timeout id a = (a1, [(req_waiter r, Rejected e)]) ∧
                child a1 = child a) as (a1 & Hto & Hchild).
  { unfold on_timeout. rewrite Hr, Ht.
    set (a0 := set_pending _ _).
    pose proof (settle_reactions id (Rejected e) a0) as Hrs.
    destruct (settle_fields id (Rejected e) a0) as (_ & _ & Hc & _).
    assert (requests a0 !! id
            = Some {| req_method := req_method r; req_timer := Fired;
                      req_state := req_state r; req_waiter := req_waiter r |})
      as Hr0 by (cbn; by rewrite lookup_insert_eq).
    rewrite Hr0 in Hrs. cbn in Hrs. rewrite Hs in Hrs.
    fold e. destruct (settle id (Rejected e) a0) as [a1 rs]. cbn in *.
    subst rs. by exists a1. }
  assert (w' = init_failed key ref e (update_agent ref (λ _, a1) w)) as ->.
  { unfold w'. cbn [step]. unfold timeout. rewrite Ha, Hto.
    cbn [run_reactions foldl fst snd].
    destruct (req_waiter r); cbn in Hk; by simplify_eq. }
  unfold init_failed. cbn.
  rewrite !lookup_delete_eq, lookup_insert_eq.
  split_and!; try done.
  rewrite list_lookup_alter_eq, list_lookup_alter_eq, Ha. cbn.
  by rewrite Hchild.
Qed.

Lemma initialization_in_flight_is_timed_witness :
  let w := run (new_runtime example_config) [CallEnsureSession example_input] in
  ∃ id, initializing (step w (TimerExpired 0 id)) !! "s1" = None ∧
        agents (step w (TimerExpired 0 id)) !! "s1" = None.
Proof.
  cbv zeta.
  destruct (initialization_in_flight_is_timed example_config
              [CallEnsureSession example_input] "s1" 0)
    as (a & id & r & _ & _ & _ & _ & _ & _ & H1 & H2 & _);
    [vm_compute; reflexivity|].
  exists id. split; [exact H1|exact H2].
Defined.

Lemma rejection_unregisters ref rs w k e key :
  (k, Rejected e) ∈ rs → init_key k = Some key →
  agents (run_reactions ref rs w) !! key = None.
Proof.
  intros Hin Hk. revert w. induction rs as [|[k' o'] rs IH]; intros w.
  { by apply elem_of_nil in Hin. }
  change (run_reactions ref ((k', o') :: rs) w)
    with (run_reactions ref rs (react ref k' o' w)).
  apply elem_of_cons in Hin as [Heq|Hin]; [|by apply IH].
  injection Heq as <- <-.
  destruct (agents (run_reactions ref rs (react ref k (Rejected e) w)) !! key)
    as [r|] eqn:Hr; [|done].
  apply (proj1 (run_reactions_shrinks ref rs _)) in Hr.
  destruct k; cbn in Hk; simplify_eq; cbn in Hr;
    by rewrite lookup_delete_eq in Hr.
Qed.

Lemma rejections_keep_failure ref rs w err :
  (∀ k o, (k, o) ∈ rs → o = Rejected err) →
  inits w !! ref = Some (InitFailed err) →
  inits (run_reactions ref rs w) !! ref = Some (InitFailed err).
Proof.
  revert w. induction rs as [|[k o] rs IH]; intros w Hall Hw; [done|].
  change (run_reactions ref ((k, o) :: rs) w)
    with (run_reactions ref rs (react ref k o w)).
  rewrite (Hall k o) by left.
  apply IH; [intros k' o' ?; apply (Hall k'); by right|].
  destruct k; cbn [react]; try done; cbn; by rewrite lookup_insert_eq.
Qed.

Lemma rejections_record_failure ref rs w err k key :
  (∀ k o, (k, o) ∈ rs → o = Rejected err) →
  (k, Rejected err) ∈ rs → init_key k = Some key →
  inits (run_reactions ref rs w) !! ref = Some (InitFailed err).
Proof.
  intros Hall Hin Hk. revert w Hall.
  induction rs as [|[k' o'] rs IH]; intros w Hall.
  { by apply elem_of_nil in Hin. }
  change (run_reactions ref ((k', o') :: rs) w)
    with (run_reactions ref rs (react ref k' o' w)).
  apply elem_of_cons in Hin as [Heq|Hin].
  - injection Heq as <- <-.
    apply rejections_keep_failure; [intros k' o' ?; apply (Hall k'); by right|].
    destruct k; cbn in Hk; simplify_eq; cbn; by rewrite lookup_insert_eq.
  - apply IH; [done|]. intros k0 o0 ?. apply (Hall k0). by right.
Qed.

(** The child of an agent whose initialization is in flight closes or
    fails: the initialization fails with the error of the event, [agent
    process exited] for a close and the error of the child otherwise; the key
    leaves the registry and the in-flight map, so the next [ensureSession]
    for the key spawns anew. *)
Theorem child_exit_fails_initialization
    (cfg : ResolvedStandardAcpConfig) (tr : list event) (key : string)
    (ref : nat) (ev : event) :
  let w := run (new_runtime cfg) tr in
  let w' := step w ev in
  initializing w !! key = Some ref →
  ev = ChildClose ref ∨ (∃ err, ev = ChildError ref err) →
  initializing w' !! key = None ∧ agents w' !! key = None ∧
  inits w' !! ref = Some (InitFailed (exit_error ev)) ∧
  ∀ input, sessionKey input = key →
    (ensureSession input w').2 = ReturnsPromise (length (heap w')).
Proof.
  intros w w' Hi Hev.
  destruct (run_inflight_live cfg tr _ _ Hi)
    as (a & id & r & Ha & Hr & Hs & Hk & Hm).
  fold w in Ha.
  destruct (run_heap_tidy cfg tr _ _ Ha) as (_ & H2 & _).
  assert (pending a !! id = Some {| settles := id |}) as Hp.
  { apply H2. unfold request_state. rewrite Hr. cbn. by rewrite Hs. }
  destruct (child_exit_shape w ref a ev Ha Hev) as (S & Hstep & _).
  set (err := exit_error ev) in *.
  pose proof (reject_all_rejected err a) as Hrej.
  assert ((req_waiter r, Rejected err) ∈ (reject_all err a).2) as Hin.
  { destruct (kor_reject_all err a id r Hr Hs) as [Hkept|[o Ho]].
    - exfalso. pose proof (reject_all_state err a id) as Hst.
      unfold request_state in Hst. rewrite Hkept, Hr in Hst. cbn in Hst.
      rewrite Hs in Hst. rewrite bool_decide_eq_true_2 in Hst; [done|].
      apply list_elem_of_fmap. exists (id, {| settles := id |}).
      split; [done|]. by apply elem_of_map_to_list.
    - by rewrite (Hrej _ _ Ho) in Ho. }
  assert (initializing w' !! key = None) as Hi'.
  { unfold w'. rewrite Hstep. by eapply rejection_ends_init. }
  assert (agents w' !! key = None) as Hag'.
  { unfold w'. rewrite Hstep. by eapply rejection_unregisters. }
  split_and!; [done|done| |].
  - unfold w'. rewrite Hstep. by eapply rejections_record_failure.
  - intros input <-. unfold ensureSession. rewrite Hi'.
    assert (lookup_agent w' (sessionKey input) = None) as ->.
    { unfold lookup_agent. by rewrite Hag'. }
    by rewrite fresh_init_eq.
Qed.

Lemma child_exit_fails_initialization_witness :
  let w := run (new_runtime example_config) [CallEnsureSession example_input] in
  let w' := step w (ChildError 0 "spawn kiro-cli ENOENT") in
  inits w' !! 0 = Some (InitFailed (SystemError "spawn kiro-cli ENOENT")) ∧
  (ensureSession example_input w').2 = ReturnsPromise 1.
Proof.
  cbv zeta.
  destruct (child_exit_fails_initialization example_config
              [CallEnsureSession example_input] "s1" 0
              (ChildError 0 "spawn kiro-cli ENOENT"))
    as (_ & _ & H1 & H2); [vm_compute; reflexivity|right; by eexists|].
  split; [exact H1|]. by rewrite (H2 example_input eq_refl).
Defined.

(** ** Streaming *)

Lemma awaiting_sink e t :
  turn_inv t → pc t = Awaiting →
  pc (sink e t) = LoopYield e ∧ yielded (sink e t) = yielded t ++ [e] ∧
  events (sink e t) = [] ∧ done_ (sink e t) = false.
Proof.
  intros (_ & _ & Hpc) Ht. rewrite Ht in Hpc.
  destruct Hpc as (Hev & Hdone & _).
  destruct t. cbn in *. subst. done.
Qed.

(** A [session/update] notification the mapper knows reaches a turn that
    awaits, through the sink its agent holds: the turn yields the mapped event
    at once, and goes back to waiting at the next pull. *)
Theorem notification_streams_to_awaiting_turn
    (cfg : ResolvedStandardAcpConfig) (tr : list event) (ref : nat)
    (a : AgentProcess) (i : nat) (t : Turn)
    (fields : list (string * jsval)) (e : AcpRuntimeEvent) :
  let w := run (new_runtime cfg) tr in
  let w1 := step w (StdoutLine ref (Some (JObj fields))) in
  heap w !! ref = Some a → notifications a = Some i →
  turns w !! i = Some t → pc t = Awaiting →
  non_nullish (get (JObj fields) "id") = false →
  assoc "method" fields = Some (JStr "session/update") →
  mapNotificationToEvent (get (JObj fields) "params") = Some e →
  ∃ t1, turns w1 !! i = Some t1 ∧ pc t1 = LoopYield e ∧
        yielded t1 = yielded t ++ [e] ∧
        ∃ t2, turns (step w1 (CallNext i)) !! i = Some t2 ∧
              pc t2 = Awaiting ∧ yielded t2 = yielded t1.
Proof.
  intros w w1 Ha Hsink Ht Hpc Hid Hmethod Hmap.
  pose proof (run_turn_inv cfg tr i t Ht) as Hinv.
  assert (on_line (Some (JObj fields)) a = (a, [], Some e)) as Hline.
  { unfold on_line.
    destruct (has_obj "id" fields) as [b1 ->].
    rewrite (has_obj_true _ _ _ Hmethod).
    destruct (has_obj "error" fields) as [b3 ->].
    rewrite Hid, andb_false_r. rewrite (get_obj _ _ _ Hmethod). cbn [andb is_str].
    change (String.eqb "session/update" "session/update") with true. cbn iota.
    destruct (truthy (get (JObj fields) "params")) eqn:Htruthy; cbn [negb].
    - by rewrite Hmap.
    - exfalso. unfold mapNotificationToEvent in Hmap.
      destruct (get (JObj fields) "params"); try discriminate Htruthy;
        cbn in Hmap; discriminate Hmap. }
  destruct (awaiting_sink e t Hinv Hpc) as (Hpc1 & Hy1 & Hev1 & Hd1).
  assert (turns w1 !! i = Some (sink e t)) as Ht1.
  { unfold w1. cbn [step]. rewrite (stdout_line_quiet w ref a _ _ Ha Hline).
    rewrite Hsink. unfold update_turn, set_turns. cbn [turns].
    by rewrite list_lookup_alter_eq, Ht. }
  eexists. split_and!; [exact Ht1|done|done|].
  pose proof (mapNotificationToEvent_not_terminal _ _ Hmap) as Hterm.
  exists (pull (sink e t)). split.
  { cbn [step]. apply next_pull; [done|by rewrite Hpc1..]. }
  unfold pull, resume, loop. rewrite Hpc1, Hterm, Hd1, Hev1. done.
Qed.

Lemma notification_streams_to_awaiting_turn_witness :
  let w := run (new_runtime example_config) example_awaiting_turn in
  let line :=
    JObj [("jsonrpc", JStr "2.0"); ("method", JStr "session/update");
          ("params",
           JObj [("update",
                  JObj [("sessionUpdate", JStr "agent_message_chunk");
                        ("content", JObj [("text", JStr "hello")])])])] in
  ∃ t1, turns (step w (StdoutLine 0 (Some line))) !! 0 = Some t1 ∧
        yielded t1 = [TextDelta (JStr "hello") "output"].
Proof.
  cbv zeta.
  set (w := run (new_runtime example_config) example_awaiting_turn).
  set (t := default (new_turn example_handle "" None) (turns w !! 0)).
  set (a := default (new_agent example_config "") (heap w !! 0)).
  destruct (notification_streams_to_awaiting_turn example_config
              example_awaiting_turn 0 a 0 t
              [("jsonrpc", JStr "2.0"); ("method", JStr "session/update");
               ("params",
                JObj [("update",
                       JObj [("sessionUpdate", JStr "agent_message_chunk");
                             ("content", JObj [("text", JStr "hello")])])])]
              (TextDelta (JStr "hello") "output"))
    as (t1 & Ht1 & _ & Hy1 & _); try (vm_compute; reflexivity).
  by exists t1.
Defined.

(** ** Sessions do not interfere *)

Lemma react_heap_other ref ref' k o w :
  ref' ≠ ref → heap (react ref k o w) !! ref' = heap w !! ref'.
Proof.
  intros Hne. destruct k, o; cbn [react]; try done; cbn;
    by rewrite list_lookup_alter_ne.
Qed.

Lemma run_reactions_heap_other ref ref' rs w :
  ref' ≠ ref → heap (run_reactions ref rs w) !! ref' = heap w !! ref'.
Proof.
  intros Hne. revert w. induction rs as [|[k o] rs IH]; intros w; [done|].
  change (run_reactions ref ((k, o) :: rs) w)
    with (run_reactions ref rs (react ref k o w)).
  by rewrite IH, react_heap_other.
Qed.

(** A reaction of agent [ref] leaves the entries of the other agents. *)
Lemma react_isolated ref k o w :
  reaction_ready w ref k o →
  (∀ key r, agents w !! key = Some r → r ≠ ref →
            agents (react ref k o w) !! key = Some r) ∧
  (∀ key r, initializing w !! key = Some r → r ≠ ref →
            initializing (react ref k o w) !! key = Some r).
Proof.
  intros Hready.
  assert (∀ key0, init_key k = Some key0 →
            (∀ key r, agents w !! key = Some r → r ≠ ref → key ≠ key0) ∧
            (∀ key r, initializing w !! key = Some r → r ≠ ref → key ≠ key0))
    as Hkeys.
  { intros key0 Hk. destruct (Hready key0 Hk) as (_ & Hag & Hin).
    split; intros key r Hr Hne ->.
    - destruct Hag; congruence.
    - destruct Hin as [?|[? _]]; congruence. }
  assert (∀ key0, init_key k = Some key0 →
            ∀ w', (∀ key, key ≠ key0 → agents w' !! key = agents w !! key) →
                  (∀ key, key ≠ key0 →
                     initializing w' !! key = initializing w !! key) →
            (∀ key r, agents w !! key = Some r → r ≠ ref →
                      agents w' !! key = Some r) ∧
            (∀ key r, initializing w !! key = Some r → r ≠ ref →
                      initializing w' !! key = Some r)) as Hdel.
  { intros key0 Hk w' Ha Hi. destruct (Hkeys key0 Hk) as [Hka Hki].
    split; intros key r Hr Hne.
    - rewrite Ha; [done|]. by eapply Hka.
    - rewrite Hi; [done|]. by eapply Hki. }
  destruct k as [key0 input|key0 input|t| |], o as [v|err]; cbn [react];
    try done;
    apply (Hdel key0 eq_refl); intros key Hne; cbn;
    by rewrite ?lookup_delete_ne.
Qed.

Lemma reactions_isolated ref rs w :
  (∀ k o, (k, o) ∈ rs → reaction_ready w ref k o) →
  (length rs ≤ 1 ∨ ∀ k o, (k, o) ∈ rs → ∃ err, o = Rejected err) →
  (∀ key r, agents w !! key = Some r → r ≠ ref →
            agents (run_reactions ref rs w) !! key = Some r) ∧
  (∀ key r, initializing w !! key = Some r → r ≠ ref →
            initializing (run_reactions ref rs w) !! key = Some r).
Proof.
  intros Hready [Hshort|Hrej].
  - destruct rs as [|[k o] [|]]; [done| |cbn in Hshort; lia].
    apply react_isolated, Hready. left.
  - revert w Hready. induction rs as [|[k o] rs IH]; intros w Hready; [done|].
    change (run_reactions ref ((k, o) :: rs) w)
      with (run_reactions ref rs (react ref k o w)).
    destruct (react_isolated ref k o w) as [Ha Hi]; [apply Hready; left|].
    destruct (Hrej k o) as [e ->]; [left|].
    destruct (IH (λ k' o' H, Hrej k' o' (list_elem_of_further _ _ _ H))
                (react ref k (Rejected e) w)) as [Ha' Hi'].
    { intros k2 o2 Hin. destruct (Hrej k2 o2) as [e2 ->]; [by right|].
      apply ready_after_rejection, Hready. by right. }
    split; intros key r Hr Hne; [apply Ha'|apply Hi']; eauto.
Qed.

(** What an event of the child of agent [ref] amounts to: the callback on
    the agent, then the reactions. *)
Lemma child_event_shape w ev ref a :
  event_agent ev = Some ref → heap w !! ref = Some a →
  ∃ a' rs S,
    step w ev = run_reactions ref rs S ∧
    transport_le a a' ∧ reacts_to a a' rs ∧ neutral w S ∧
    heap S = alter (λ _, a') ref (heap w) ∧
    (∀ key r, agents w !! key = Some r → r ≠ ref → agents S !! key = Some r) ∧
    (length rs ≤ 1 ∨ ∀ k o, (k, o) ∈ rs → ∃ err, o = Rejected err).
Proof.
  intros Hev Ha.
  destruct ev as [input|h text sig|i|h|h mode|h| |i|r0 parsed|r0 id
                 |r0 id err|r0|r0 err]; cbn in Hev; simplify_eq; cbn [step].
  - unfold stdout_line. rewrite Ha.
    pose proof (transport_le_on_line parsed a) as Hle.
    pose proof (reacts_to_on_line parsed a) as Hr.
    pose proof (on_line_short parsed a) as Hs.
    destruct (on_line parsed a) as [[a' rs] e]. cbn in Hle, Hr, Hs.
    eexists a', rs, _. split; [reflexivity|].
    split_and!; [done|done| | | |by left].
    + destruct e, (notifications a); try apply neutral_then_turn;
        by eapply neutral_handler.
    + by destruct e, (notifications a).
    + by destruct e, (notifications a).
  - unfold timeout. rewrite Ha.
    pose proof (transport_le_on_timeout id a) as Hle.
    pose proof (reacts_to_on_timeout id a) as Hr.
    pose proof (on_timeout_short id a) as Hs.
    destruct (on_timeout id a) as [a' rs]. cbn in Hle, Hr, Hs.
    eexists a', rs, _. split; [reflexivity|].
    split_and!; [done|done|by eapply neutral_handler|done|done|by left].
  - unfold write_error. rewrite Ha.
    pose proof (transport_le_on_write_error id (SystemError err) a) as Hle.
    pose proof (reacts_to_on_write_error id (SystemError err) a) as Hr.
    pose proof (on_write_error_short id (SystemError err) a) as Hs.
    destruct (on_write_error id (SystemError err) a) as [a' rs].
    cbn in Hle, Hr, Hs.
    eexists a', rs, _. split; [reflexivity|].
    split_and!; [done|done|by eapply neutral_handler|done|done|by left].
  - unfold child_close. rewrite Ha.
    pose proof (reacts_to_reject_all ExitedError a) as [Hr Hle].
    pose proof (reject_all_rejected ExitedError a) as Hrej.
    destruct (reject_all ExitedError a) as [a' rs]. cbn in Hle, Hr, Hrej.
    eexists a', rs, _. split; [reflexivity|].
    split_and!; [done|done| | | |right; eauto].
    + eapply neutral_trans; [|by apply neutral_same].
      eapply neutral_trans; [|apply neutral_unregister].
      by eapply neutral_handler.
    + cbn. by rewrite heap_unregister.
    + intros key r Hkey Hne. cbn. unfold unregister_if_same. cbn.
      case_bool_decide as Hsame; cbn; [|done].
      rewrite lookup_delete_ne; [done|]. intros <-. congruence.
  - unfold child_error. rewrite Ha.
    pose proof (reacts_to_reject_all (SystemError err) a) as [Hr Hle].
    pose proof (reject_all_rejected (SystemError err) a) as Hrej.
    destruct (reject_all (SystemError err) a) as [a' rs]. cbn in Hle, Hr, Hrej.
    eexists a', rs, _. split; [reflexivity|].
    split_and!; [done|done| | | |right; eauto].
    + eapply neutral_trans; [|apply neutral_unregister].
      eapply neutral_trans; [|by eapply neutral_handler].
      by apply neutral_same.
    + by rewrite heap_unregister.
    + intros key r Hkey Hne. unfold unregister_if_same. cbn.
      case_bool_decide as Hsame; cbn; [|done].
      rewrite lookup_delete_ne; [done|]. intros <-. congruence.
Qed.

(** Whatever the child of one agent does (a line on its stdout, the expiry
    of a timer, a failed write, its exit or an error), in a reachable state
    the other agents stay as they are, and so do the registry entries and
    the initializations in flight that belong to other agents; nothing is
    added to the registry or to the in-flight map. *)
Theorem child_events_leave_other_sessions
    (cfg : ResolvedStandardAcpConfig) (tr : list event) (ev : event)
    (ref : nat) :
  let w := run (new_runtime cfg) tr in
  let w' := step w ev in
  event_agent ev = Some ref →
  (∀ ref', ref' ≠ ref → heap w' !! ref' = heap w !! ref') ∧
  (∀ key r, agents w !! key = Some r → r ≠ ref → agents w' !! key = Some r) ∧
  (∀ key r, initializing w !! key = Some r → r ≠ ref →
            initializing w' !! key = Some r) ∧
  (∀ key, agents w !! key = None → agents w' !! key = None) ∧
  (∀ key, initializing w !! key = None → initializing w' !! key = None).
Proof.
  intros w w' Hev.
  pose proof (run_registry_inv cfg tr) as Hinv. fold w in Hinv.
  assert (shrinks w w') as [Hsa Hsi].
  { apply step_shrinks. intros input ->. discriminate Hev. }
  assert (∀ key, agents w !! key = None → agents w' !! key = None) as Hna.
  { intros key Hn. destruct (agents w' !! key) as [r|] eqn:Hr; [|done].
    apply Hsa in Hr. congruence. }
  assert (∀ key, initializing w !! key = None → initializing w' !! key = None)
    as Hni.
  { intros key Hn. destruct (initializing w' !! key) as [r|] eqn:Hr; [|done].
    apply Hsi in Hr. congruence. }
  destruct (heap w !! ref) as [a|] eqn:Ha.
  - destruct (child_event_shape w ev ref a Hev Ha)
      as (a' & rs & S & Hstep & Hle & Hr & Hn & HS & HagS & Hshape).
    assert (heap S !! ref = Some a') as HSref.
    { by rewrite HS, list_lookup_alter_eq, Ha. }
    assert (∀ k o, (k, o) ∈ rs → reaction_ready S ref k o) as Hready.
    { intros k o Hin. destruct Hn as (Hi & Hag & _).
      exact (ready_of_reacts w S ref a a' rs k o Hinv Ha Hle Hr Hin HSref Hi
               Hag). }
    destruct (reactions_isolated ref rs S Hready Hshape) as [Hia Hii].
    unfold w'. rewrite Hstep. split_and!; [| | |by rewrite <- Hstep..].
    + intros ref' Hne. rewrite run_reactions_heap_other by done.
      by rewrite HS, list_lookup_alter_ne.
    + intros key r Hkey Hne. apply Hia; [|done]. by apply HagS.
    + intros key r Hkey Hne. apply Hii; [|done].
      destruct Hn as (-> & _). done.
  - assert (w' = w) as ->; [|done].
    unfold w'.
    destruct ev; cbn in Hev; simplify_eq; cbn [step];
      unfold stdout_line, timeout, write_error, child_close, child_error;
      by rewrite Ha.
Qed.

Lemma child_events_leave_other_sessions_witness :
  let w := run (new_runtime example_config) example_replacement in
  agents (step w (TimerExpired 1 1)) !! "s1" = None ∧
  heap (step w (TimerExpired 1 1)) !! 0 = heap w !! 0.
Proof.
  cbv zeta.
  destruct (child_events_leave_other_sessions example_config
              example_replacement (TimerExpired 1 1) 1 eq_refl)
    as (Hheap & _ & _ & _ & _).
  split; [vm_compute; reflexivity|]. by apply Hheap.
Defined.

(** [ensureSession] for one key leaves the other keys alone: their registry
    entries and initializations in flight, the settled initializations and
    the generators are as before, and so is every agent of the heap except
    the one it replaces, which is only sent SIGTERM. *)
Theorem ensureSession_leaves_other_keys (w : Runtime)
    (input : AcpRuntimeEnsureInput) :
  let w' := (ensureSession input w).1 in
  (∀ key', key' ≠ sessionKey input →
     agents w' !! key' = agents w !! key' ∧
     initializing w' !! key' = initializing w !! key') ∧
  inits w' = inits w ∧ turns w' = turns w ∧ warnings w' = warnings w ∧
  (∀ ref a, heap w !! ref = Some a →
     heap w' !! ref = Some a ∨
     (agents w !! sessionKey input = Some ref ∧
      cwd a ≠ effectiveCwd w input ∧
      heap w' !! ref = Some (kill "SIGTERM" a))).
Proof.
  intros w'.
  assert (∀ w0,
            (∀ key', key' ≠ sessionKey input →
               agents (fresh_init (sessionKey input) input w0).1 !! key'
                 = agents w0 !! key' ∧
               initializing (fresh_init (sessionKey input) input w0).1 !! key'
                 = initializing w0 !! key') ∧
            inits (fresh_init (sessionKey input) input w0).1 = inits w0 ∧
            turns (fresh_init (sessionKey input) input w0).1 = turns w0 ∧
            warnings (fresh_init (sessionKey input) input w0).1 = warnings w0 ∧
            ∀ ref a, heap w0 !! ref = Some a →
              heap (fresh_init (sessionKey input) input w0).1 !! ref = Some a)
    as Hfresh.
  { intros w0. rewrite fresh_init_eq. cbn. split_and!; try done.
    - intros key' Hne. by rewrite !lookup_insert_ne.
    - intros ref a Ha. by apply lookup_app_l_Some. }
  unfold w', ensureSession.
  destruct (initializing w !! sessionKey input) as [inflight|];
    [by split_and!; eauto|].
  destruct (lookup_agent w (sessionKey input)) as [[r agent]|] eqn:Hl.
  - apply lookup_agent_Some in Hl as [Hreg Hheap].
    case_bool_decide as Hcwd; [|by split_and!; eauto].
    destruct (Hfresh (set_agents (delete (sessionKey input))
                        (update_agent r (kill "SIGTERM") w)))
      as (Hk & Hi & Ht & Hw & Hh).
    split_and!; try done.
    + intros key' Hne. destruct (Hk key' Hne) as [-> ->]. cbn.
      by rewrite lookup_delete_ne.
    + intros ref a Ha. destruct (decide (ref = r)) as [->|Hne].
      * right. assert (a = agent) as -> by congruence.
        split_and!; [done|done|]. apply Hh. cbn.
        by rewrite list_lookup_alter_eq, Hheap.
      * left. apply Hh. cbn. by rewrite list_lookup_alter_ne.
  - destruct (Hfresh w) as (Hk & Hi & Ht & Hw & Hh).
    split_and!; eauto.
Qed.

(** ** The start of a turn *)

(** The first pull of a turn whose signal is not aborted, on a key that has
    an agent: one [session/prompt] request is written to the stdin of that
    agent, carrying its session id and the text, under the next id and with
    no timer; the sink of the turn is installed; the turn has yielded nothing
    and awaits.  The registry, the initializations in flight and the other
    agents are as they were. *)
Theorem runTurn_sends_prompt
    (cfg : ResolvedStandardAcpConfig) (tr : list event) (i : nat) (t : Turn)
    (ref : nat) (a : AgentProcess) :
  let w := run (new_runtime cfg) tr in
  let w1 := step w (CallNext i) in
  turns w !! i = Some t → pc t = NotStarted → signal t ≠ Some true →
  lookup_agent w (handle_sessionKey (turn_handle t)) = Some (ref, a) →
  (∃ t1, turns w1 !! i = Some t1 ∧ pc t1 = Awaiting ∧ yielded t1 = [] ∧
         turn_agent t1 = Some ref) ∧
  (∃ a1, heap w1 !! ref = Some a1 ∧ notifications a1 = Some i ∧
         nextId a1 = (nextId a + 1)%Z ∧
         stdin a1 =
           stdin a ++
           [JSON_stringify
              (JObj [("jsonrpc", JStr "2.0"); ("id", JNum (nextId a));
                     ("method", JStr "session/prompt");
                     ("params", prompt_params (sessionId a) (turn_text t))])
            +:+ LF] ∧
         requests a1 !! nextId a =
           Some {| req_method := "session/prompt"; req_timer := NoTimer;
                   req_state := None; req_waiter := TurnPrompt i |} ∧
         pending a1 !! nextId a = Some {| settles := nextId a |}) ∧
  agents w1 = agents w ∧ initializing w1 = initializing w ∧
  (∀ ref', ref' ≠ ref → heap w1 !! ref' = heap w !! ref').
Proof.
  intros w w1 Ht Hpc Hsig Hl.
  pose proof (run_turn_inv cfg tr i t Ht) as (_ & _ & Hinv).
  rewrite Hpc in Hinv. destruct Hinv as [Hy _].
  pose proof Hl as [_ Ha]%lookup_agent_Some.
  assert (w1 = runTurn_start i t w) as ->.
  { unfold w1. cbn [step]. unfold next. by rewrite Ht, Hpc. }
  split_and!.
  - rewrite (turns_runTurn_start_begin i t ref a w Hl Hsig).
    rewrite list_lookup_alter_eq, Ht. eexists. split; [done|].
    unfold loop, begin. cbn. by rewrite Hy.
  - assert (heap (runTurn_start i t w) !! ref
            = Some (sendRequest "session/prompt"
                      (prompt_params (sessionId a) (turn_text t))
                      (TurnPrompt i) (set_notifications (Some i) a)))
      as Hheap.
    { unfold runTurn_start. destruct (signal t) as [[|]|]; [done| |];
        rewrite Hl; unfold update_turn, update_agent, set_turns, set_heap;
        cbn [heap]; by rewrite !list_lookup_alter_eq, Ha. }
    eexists. split; [exact Hheap|].
    unfold sendRequest, write, set_stdin, set_pending, set_requests,
      set_nextId, set_notifications.
    cbn [notifications nextId stdin requests pending].
    split_and!; [done|done|done|by rewrite lookup_insert_eq..].
  - unfold runTurn_start. destruct (signal t) as [[|]|]; [done| |];
      by rewrite Hl.
  - unfold runTurn_start. destruct (signal t) as [[|]|]; [done| |];
      by rewrite Hl.
  - intros ref' Hne. unfold runTurn_start.
    destruct (signal t) as [[|]|]; [done| |]; rewrite Hl; cbn;
      by rewrite !list_lookup_alter_ne.
Qed.

Lemma runTurn_sends_prompt_witness :
  let w := run (new_runtime example_config) example_new_turn in
  ∃ t1 a1, turns (step w (CallNext 0)) !! 0 = Some t1 ∧ pc t1 = Awaiting ∧
           heap (step w (CallNext 0)) !! 0 = Some a1 ∧
           notifications a1 = Some 0 ∧ nextId a1 = 4%Z.
Proof.
  cbv zeta.
  set (w := run (new_runtime example_config) example_new_turn).
  set (t := default (new_turn example_handle "" None) (turns w !! 0)).
  set (a := default (new_agent example_config "") (heap w !! 0)).
  destruct (runTurn_sends_prompt example_config example_new_turn 0 t 0 a)
    as ((t1 & Ht1 & Hpc1 & _) & (a1 & Ha1 & Hn1 & Hid1 & _) & _);
    try (vm_compute; reflexivity).
  { intros H. vm_compute in H. discriminate H. }
  exists t1, a1. split_and!; [done|done|done|done|].
  rewrite Hid1. vm_compute. reflexivity.
Defined.

(** The rejections of one callback, all with the same error, among them
    that of the prompt of a turn that awaits: the turn yields the error of
    the rejection. *)
Lemma rejections_reach_awaiting_turn ref rs i t err w :
  turns w !! i = Some t → turn_inv t → pc t = Awaiting →
  (∀ k o, (k, o) ∈ rs → o = Rejected err) →
  (TurnPrompt i, Rejected err) ∈ rs →
  ∃ t', turns (run_reactions ref rs w) !! i = Some t' ∧
        pc t' = LoopYield (Error (String_error err)) ∧
        yielded t' = yielded t ++ [Error (String_error err)].
Proof.
  intros Ht Hinv Hpc Hall Hin. revert w Ht Hall.
  induction rs as [|[k o] rs IH]; intros w Ht Hall.
  { by apply elem_of_nil in Hin. }
  change (run_reactions ref ((k, o) :: rs) w)
    with (run_reactions ref rs (react ref k o w)).
  rewrite (Hall k o) by left.
  assert (k = TurnPrompt i ∨ k ≠ TurnPrompt i) as [-> | Hne].
  { destruct k as [| |j| |]; try (by right).
    destruct (decide (j = i)) as [-> | ?]; [by left|right; congruence]. }
  - cbn [react].
    destruct (awaiting_push (Error (String_error err)) t Hinv Hpc)
      as (Hpc1 & Hy1 & _).
    destruct (reactions_at_yield ref rs i
                (push_unless_done (Error (String_error err)) t)
                (Error (String_error err))
                (update_turn i (push_unless_done (Error (String_error err))) w))
      as (t' & Ht' & Hpc' & Hy'); [|done|].
    { cbn. by rewrite list_lookup_alter_eq, Ht. }
    exists t'. split_and!; [done|done|congruence].
  - apply elem_of_cons in Hin as [Heq|Hin]; [congruence|].
    apply IH; [done| |intros k' o' ?; apply (Hall k'); by right].
    destruct k; cbn [react]; try done.
    cbn. rewrite list_lookup_alter_ne; [done|]. congruence.
Qed.

(** The child of the agent of a turn that awaits reports an error while the
    prompt of the turn is pending: the turn yields [error] with the text of
    that error at once, and returns at the next pull. *)
Theorem child_error_ends_awaiting_turn
    (cfg : ResolvedStandardAcpConfig) (tr : list event) (i : nat) (t : Turn)
    (ref : nat) (a : AgentProcess) (id : Z) (r : request) (p : PendingEntry)
    (err : string) :
  let w := run (new_runtime cfg) tr in
  let w1 := step w (ChildError ref err) in
  let e := Error (String_error (SystemError err)) in
  turns w !! i = Some t → pc t = Awaiting →
  heap w !! ref = Some a → pending a !! id = Some p →
  requests a !! id = Some r → req_waiter r = TurnPrompt i →
  ∃ t1, turns w1 !! i = Some t1 ∧ pc t1 = LoopYield e ∧
        yielded t1 = yielded t ++ [e] ∧
        ∃ t2, turns (step w1 (CallNext i)) !! i = Some t2 ∧
              pc t2 = Finished ∧ yielded t2 = yielded t1.
Proof.
  intros w w1 e Ht Hpc Ha Hp Hr Hwaiter.
  pose proof (run_turn_inv cfg tr i t Ht) as Hinv.
  pose proof (run_heap_live cfg tr _ _ Ha _ _ Hp) as Hlive.
  pose proof (run_heap_wf _ tr (new_runtime_heap_wf cfg) _ _ Ha) as [Hwf _].
  destruct (Hwf _ _ Hp) as [Hid _].
  unfold request_state in Hlive. rewrite Hr in Hlive. injection Hlive as Hs.
  pose proof (reject_all_rejected (SystemError err) a) as Hrej.
  assert ((TurnPrompt i, Rejected (SystemError err))
            ∈ (reject_all (SystemError err) a).2) as Hin.
  { rewrite <- Hwaiter.
    destruct (kor_reject_all (SystemError err) a id r Hr Hs) as [Hkept|[o Ho]].
    - exfalso. pose proof (reject_all_state (SystemError err) a id) as Hst.
      unfold request_state in Hst. rewrite Hkept, Hr in Hst. cbn in Hst.
      rewrite Hs in Hst. rewrite bool_decide_eq_true_2 in Hst; [done|].
      apply list_elem_of_fmap. exists (id, p). split; [done|].
      by apply elem_of_map_to_list.
    - by rewrite (Hrej _ _ Ho) in Ho. }
  assert (∃ t1, turns w1 !! i = Some t1 ∧ pc t1 = LoopYield e ∧
                yielded t1 = yielded t ++ [e]) as (t1 & Ht1 & Hpc1 & Hy1).
  { unfold w1. cbn [step]. unfold child_error. rewrite Ha.
    destruct (reject_all (SystemError err) a) as [a' rs]. cbn [snd] in *.
    apply rejections_reach_awaiting_turn; try done.
    by rewrite heap_unregister_turns. }
  exists t1. split_and!; [done|done|done|].
  destruct (pull_terminal _ _ Hpc1 eq_refl) as [Hp2 Hy2].
  eexists. split_and!; [|exact Hp2|exact Hy2].
  cbn [step]. apply next_pull; [done|by rewrite Hpc1..].
Qed.

Lemma child_error_ends_awaiting_turn_witness :
  let w := run (new_runtime example_config) example_awaiting_turn in
  ∃ t1, turns (step w (ChildError 0 "write EPIPE")) !! 0 = Some t1 ∧
        yielded t1 = [Error "Error: write EPIPE"].
Proof.
  cbv zeta.
  set (w := run (new_runtime example_config) example_awaiting_turn).
  set (t := default (new_turn example_handle "" None) (turns w !! 0)).
  set (a := default (new_agent example_config "") (heap w !! 0)).
  set (r := default {| req_method := ""; req_timer := NoTimer;
                       req_state := None; req_waiter := HostCall |}
              (requests a !! 3%Z)).
  destruct (child_error_ends_awaiting_turn example_config
              example_awaiting_turn 0 t 0 a 3 r {| settles := 3 |}
              "write EPIPE")
    as (t1 & Ht1 & _ & Hy1 & _); try (vm_compute; reflexivity).
  by exists t1.
Defined.

(** ** The failure of a handshake *)

Lemma run_config cfg tr : config (run (new_runtime cfg) tr) = cfg.
Proof.
  induction tr as [|ev tr IH] using rev_ind; [done|].
  rewrite run_snoc. destruct (step_evolves (run (new_runtime cfg) tr) ev) as [-> _].
  done.
Qed.

(** Reactions that belong to no handshake leave the heap, the registry, the
    in-flight map and the outcomes of the initializations as they were. *)
Lemma plain_reactions ref rs w :
  (∀ k o, (k, o) ∈ rs → init_key k = None) →
  heap (run_reactions ref rs w) = heap w ∧
  agents (run_reactions ref rs w) = agents w ∧
  initializing (run_reactions ref rs w) = initializing w ∧
  inits (run_reactions ref rs w) = inits w.
Proof.
  revert w. induction rs as [|[k o] rs IH]; intros w Hall; [done|].
  change (run_reactions ref ((k, o) :: rs) w)
    with (run_reactions ref rs (react ref k o w)).
  destruct (IH (react ref k o w)) as (-> & -> & -> & ->).
  { intros k' o' ?. apply (Hall k' o'). by right. }
  assert (init_key k = None) as Hk by (apply (Hall k o); left).
  destruct k, o; cbn in Hk; try discriminate Hk; done.
Qed.

(** The reactions of one callback, one of which is the rejection of a
    handshake request and none of the others belongs to a handshake: the
    catch block of [initAgent] and the [finally] of [ensureSession] run
    once. *)
Lemma teardown_reactions ref l1 l2 k err key w a :
  heap w !! ref = Some a → init_key k = Some key →
  (∀ k' o', (k', o') ∈ l1 ++ l2 → init_key k' = None) →
  let w' := run_reactions ref (l1 ++ (k, Rejected err) :: l2) w in
  heap w' = alter (kill "SIGTERM") ref (heap w) ∧
  agents w' = delete key (agents w) ∧
  initializing w' = delete key (initializing w) ∧
  inits w' = <[ref := InitFailed err]> (inits w).
Proof.
  intros Ha Hk Hplain w'. unfold w', run_reactions.
  rewrite foldl_app. cbn [foldl fst snd].
  fold (run_reactions ref l1 w).
  set (w1 := run_reactions ref l1 w).
  fold (run_reactions ref l2 (react ref k (Rejected err) w1)).
  destruct (plain_reactions ref l1 w) as (H1 & H2 & H3 & H4).
  { intros k' o' ?. apply (Hplain k' o'). apply elem_of_app. by left. }
  destruct (plain_reactions ref l2 (react ref k (Rejected err) w1))
    as (-> & -> & -> & ->).
  { intros k' o' ?. apply (Hplain k' o'). apply elem_of_app. by right. }
  fold w1 in H1, H2, H3, H4.
  assert (react ref k (Rejected err) w1 = init_failed key ref err w1) as ->.
  { destruct k; cbn in Hk; by simplify_eq. }
  unfold init_failed. cbn. by rewrite H1, H2, H3, H4.
Qed.

Lemma reject_all_child err a : child (reject_all err a).1 = child a.
Proof.
  apply (reject_all_ind (λ b, child b = child a)); [done| |done].
  intros p b <-. unfold entry_reject.
  destruct (settle_fields (settles p) (Rejected err)
              (clear_timer (settles p) b)) as (_ & _ & -> & _).
  by destruct (clear_timer_fields (settles p) b) as (_ & _ & -> & _).
Qed.

(** [reject_all] schedules one rejection for each entry of the pending map,
    in the order of the map, for the waiter of the request of the entry. *)
Lemma reject_all_reactions err a :
  agent_wf a → live a →
  (reject_all err a).2
    = (λ kp : Z * PendingEntry, (waiter_of a kp.1, Rejected err))
        <$> map_to_list (pending a).
Proof.
  intros [Hwf _] Hlive. unfold reject_all.
  assert (∀ (l : list (Z * PendingEntry))
            (acc : AgentProcess * list (waiter * outcome)),
            NoDup l.*1 →
            (∀ i p, (i, p) ∈ l →
               settles p = i ∧
               ∃ r, requests acc.1 !! i = Some r ∧ req_state r = None ∧
                    req_waiter r = waiter_of a i) →
            (foldl (λ (acc : AgentProcess * list (waiter * outcome)) kp,
                      let '(a', rs') := entry_reject kp.2 err acc.1 in
                      (a', acc.2 ++ rs')) acc l).2
            = acc.2 ++ ((λ kp : Z * PendingEntry,
                           (waiter_of a kp.1, Rejected err)) <$> l)) as Hfold.
  { induction l as [|[i p] l IH]; intros acc Hnd Hall.
    { cbn. by rewrite app_nil_r. }
    cbn [foldl snd]. rewrite fmap_cons in Hnd. apply NoDup_cons in Hnd as [Hi Hnd].
    destruct (Hall i p) as (Hp & r & Hr & Hs & Hw); [left|].
    pose proof (entry_reactions_plain i (Rejected err) acc.1 r Hr Hs) as Hrs.
    pose proof (entry_reject_other p err acc.1) as Hother.
    unfold entry_reject in *. rewrite Hp in *.
    destruct (settle i (Rejected err) (clear_timer i acc.1)) as [b rs].
    cbn [fst snd] in *. subst rs.
    rewrite IH; [|done|].
    - cbn [snd]. rewrite <- app_assoc. cbn. by rewrite Hw.
    - intros j q Hin. destruct (Hall j q) as (Hq & rj & Hrj & ?); [by right|].
      split; [done|]. exists rj. split; [|done]. cbn [fst].
      rewrite Hother; [done|]. intros ->. apply Hi.
      apply list_elem_of_fmap. by exists (j, q). }
  specialize (Hfold (map_to_list (pending a)) (a, [])).
  destruct (foldl _ _ _) as [b rs]. cbn [fst snd] in *. apply Hfold.
  - apply NoDup_fst_map_to_list.
  - intros i p Hin%elem_of_map_to_list.
    destruct (Hwf _ _ Hin) as [Hp _]. split; [done|].
    pose proof (Hlive _ _ Hin) as Hst. unfold request_state in Hst.
    destruct (requests a !! i) as [r|] eqn:Hr; [|done].
    exists r. split; [done|]. split; [by injection Hst|].
    unfold waiter_of. by rewrite Hr.
Qed.

(** In a reachable state, an unsettled handshake request has its entry in
    the pending map and its timer armed, and it is the only handshake
    request its agent awaits. *)
Lemma handshake_request_pending cfg tr ref a id r key :
  heap (run (new_runtime cfg) tr) !! ref = Some a →
  requests a !! id = Some r → req_state r = None →
  init_key (req_waiter r) = Some key →
  pending a !! id = Some {| settles := id |} ∧
  req_timer r = Armed CONTROL_TIMEOUT_MS ∧
  (∀ j rj, requests a !! j = Some rj → req_state rj = None →
           j ≠ id → init_key (req_waiter rj) = None).
Proof.
  intros Ha Hr Hs Hk.
  destruct (run_heap_tidy cfg tr _ _ Ha) as (_ & H2 & H3).
  assert (unsettled_init a id key) as Hu by (by exists r).
  destruct (run_registry_inv cfg tr ref a id key Ha Hu) as (Hi & _ & Huniq).
  destruct (run_inflight_live cfg tr _ _ Hi)
    as (a0 & id0 & r0 & Ha0 & Hr0 & Hs0 & Hk0 & Hm0).
  assert (a0 = a) as -> by congruence.
  assert (id0 = id) as -> by (apply (Huniq id0 key); by exists r0).
  assert (r0 = r) as -> by congruence.
  split_and!.
  - apply H2. unfold request_state. rewrite Hr. cbn. by rewrite Hs.
  - specialize (H3 _ _ Hr). rewrite Hs in H3.
    by rewrite bool_decide_eq_true_2 in H3.
  - intros j rj Hrj Hsj Hne.
    destruct (init_key (req_waiter rj)) as [key'|] eqn:Hkj; [|done].
    destruct Hne. apply (Huniq j key'). by exists rj.
Qed.

(** The [close] or the [error] event of the child of an agent that awaits
    a handshake request: among the rejections the handler schedules, one is
    that of the handshake request and no other belongs to a handshake. *)
Lemma exit_shape w ref a id r ev :
  heap w !! ref = Some a → agent_wf a → live a →
  requests a !! id = Some r →
  pending a !! id = Some {| settles := id |} →
  (∀ j rj, requests a !! j = Some rj → req_state rj = None →
           j ≠ id → init_key (req_waiter rj) = None) →
  ev = ChildClose ref ∨ (∃ err, ev = ChildError ref err) →
  ∃ S a1 l1 l2,
    step w ev
      = run_reactions ref
          (l1 ++ (req_waiter r, Rejected (exit_error ev)) :: l2) S ∧
    heap S !! ref = Some a1 ∧ child a1 = child a ∧
    (∀ k' o', (k', o') ∈ l1 ++ l2 → init_key k' = None).
Proof.
  intros Ha Hwf Hlive Hr Hp Huniq Hev.
  destruct (child_exit_shape w ref a ev Ha Hev) as (S & Hstep & HS & _).
  rewrite (reject_all_reactions _ a Hwf Hlive) in Hstep.
  pose proof (NoDup_fst_map_to_list (pending a)) as Hnd.
  apply elem_of_map_to_list in Hp.
  pose proof (λ j q, proj1 (elem_of_map_to_list (pending a) j q)) as Hin.
  apply list_elem_of_split in Hp as (m1 & m2 & Hm).
  rewrite Hm in Hstep, Hnd, Hin.
  rewrite fmap_app, fmap_cons in Hstep. cbn [fst] in Hstep.
  assert (waiter_of a id = req_waiter r) as Hw
    by (unfold waiter_of; by rewrite Hr).
  rewrite Hw in Hstep.
  eexists S, _, _, _. split_and!; [exact Hstep|exact HS|apply reject_all_child|].
  intros k' o' Hk'. rewrite <- fmap_app in Hk'.
  apply list_elem_of_fmap in Hk' as ([j q] & [= -> ->] & Hjq). cbn [fst].
  assert (j ≠ id) as Hne.
  { intros ->. rewrite fmap_app, fmap_cons in Hnd. cbn [fst] in Hnd.
    apply NoDup_app in Hnd as (_ & Hdisj & Hnd2).
    apply NoDup_cons in Hnd2 as [Hid2 _].
    apply elem_of_app in Hjq as [Hjq|Hjq].
    - apply (Hdisj id); [|left]. apply list_elem_of_fmap. by exists (id, q).
    - apply Hid2. apply list_elem_of_fmap. by exists (id, q). }
  assert (pending a !! j = Some q) as Hq.
  { apply Hin. apply elem_of_app in Hjq as [?|?]; apply elem_of_app;
      [by left|right; by right]. }
  pose proof (Hlive _ _ Hq) as Hst. unfold request_state in Hst.
  destruct (requests a !! j) as [rj|] eqn:Hrj; [|done].
  unfold waiter_of. rewrite Hrj. cbn.
  apply (Huniq j rj Hrj); [by injection Hst|done].
Qed.

(** What a failing event does before the reactions run: the callback
    settles the handshake request and schedules the rejection of its waiter,
    among reactions that belong to no handshake, and leaves the child as it
    was. *)
Lemma failure_shape cfg tr ref a id r key ev err :
  let w := run (new_runtime cfg) tr in
  heap w !! ref = Some a →
  requests a !! id = Some r → req_state r = None →
  init_key (req_waiter r) = Some key →
  failure ev ref id (req_method r) = Some err →
  ∃ S a1 l1 l2,
    step w ev
      = run_reactions ref (l1 ++ (req_waiter r, Rejected err) :: l2) S ∧
    heap S !! ref = Some a1 ∧ child a1 = child a ∧
    (∀ k' o', (k', o') ∈ l1 ++ l2 → init_key k' = None).
Proof.
  intros w Ha Hr Hs Hk Hf.
  destruct (handshake_request_pending cfg tr ref a id r key Ha Hr Hs Hk)
    as (Hp & Ht & Huniq).
  pose proof (run_heap_live cfg tr _ _ Ha) as Hlive.
  pose proof (run_heap_wf _ tr (new_runtime_heap_wf cfg) _ _ Ha) as Hwf.
  fold w in Ha.
  assert (∀ a1 rs,
            rs = [(req_waiter r, Rejected err)] → child a1 = child a →
            ∃ S a' l1 l2,
              run_reactions ref rs (update_agent ref (λ _, a1) w)
                = run_reactions ref
                    (l1 ++ (req_waiter r, Rejected err) :: l2) S ∧
              heap S !! ref = Some a' ∧ child a' = child a ∧
              (∀ k' o', (k', o') ∈ l1 ++ l2 → init_key k' = None)) as Hone.
  { intros a1 rs -> Hc.
    exists (update_agent ref (λ _, a1) w), a1, [], []. split_and!; [done| |done|].
    - by rewrite heap_update_agent_eq, Ha.
    - by intros k' o' ?%elem_of_nil. }
  destruct ev as [| | | | | | | |r0 [msg|]|r0 i|r0 i e|r0|r0 e];
    cbn [failure] in Hf; try discriminate Hf.
  - (* an error response *)
    destruct (bool_decide (r0 = ref)) eqn:Href; [|discriminate Hf].
    apply bool_decide_eq_true in Href as ->. cbn [andb] in Hf.
    destruct (is_response_for msg id) eqn:Hmsg; [|discriminate Hf].
    destruct (on_line_response msg id a Hmsg) as (b & Hb & Hline).
    rewrite Hb in Hf. destruct b; [|discriminate Hf]. injection Hf as <-.
    cbn [step]. unfold stdout_line. rewrite Ha, Hline, Hp.
    unfold entry_reject. cbn [settles].
    pose proof (entry_reactions_plain id
                  (Rejected (RpcError (get msg "error")))
                  (set_pending (delete id) a) r Hr Hs) as Hrs.
    destruct (settle_fields id (Rejected (RpcError (get msg "error")))
                (clear_timer id (set_pending (delete id) a)))
      as (_ & _ & Hc & _).
    destruct (clear_timer_fields id (set_pending (delete id) a))
      as (_ & _ & Hc' & _).
    destruct (settle id _ _) as [a1 rs]. cbn [fst snd] in *.
    apply Hone; [done|by rewrite Hc, Hc'].
  - (* the timer *)
    destruct (bool_decide (r0 = ref)) eqn:Href; [|discriminate Hf].
    apply bool_decide_eq_true in Href as ->. cbn [andb] in Hf.
    destruct (bool_decide (i = id)) eqn:Hid; [|discriminate Hf].
    apply bool_decide_eq_true in Hid as ->. injection Hf as <-.
    cbn [step]. unfold timeout, on_timeout. rewrite Ha, Hr, Ht.
    set (a0 := set_pending _ _).
    pose proof (settle_reactions id (Rejected (TimeoutError (req_method r))) a0)
      as Hrs.
    destruct (settle_fields id (Rejected (TimeoutError (req_method r))) a0)
      as (_ & _ & Hc & _).
    assert (requests a0 !! id
            = Some {| req_method := req_method r; req_timer := Fired;
                      req_state := req_state r; req_waiter := req_waiter r |})
      as Hr0 by (cbn; by rewrite lookup_insert_eq).
    rewrite Hr0 in Hrs. cbn in Hrs. rewrite Hs in Hrs.
    destruct (settle id _ a0) as [a1 rs]. cbn [fst snd] in *.
    apply Hone; [done|by rewrite Hc].
  - (* the write *)
    destruct (bool_decide (r0 = ref)) eqn:Href; [|discriminate Hf].
    apply bool_decide_eq_true in Href as ->. cbn [andb] in Hf.
    destruct (bool_decide (i = id)) eqn:Hid; [|discriminate Hf].
    apply bool_decide_eq_true in Hid as ->. injection Hf as <-.
    cbn [step]. unfold write_error, on_write_error. rewrite Ha, Hr.
    set (a0 := set_pending _ _).
    pose proof (settle_reactions id (Rejected (SystemError e)) a0) as Hrs.
    destruct (settle_fields id (Rejected (SystemError e)) a0)
      as (_ & _ & Hc & _).
    destruct (clear_timer_fields id a) as (_ & _ & Hc' & _).
    assert (∃ r0, requests a0 !! id = Some r0 ∧ req_state r0 = None ∧
                  req_waiter r0 = req_waiter r) as (r1 & Hr1 & Hs1 & Hw1).
    { unfold a0, clear_timer. rewrite Hr, Ht. cbn.
      rewrite lookup_insert_eq. by eexists. }
    rewrite Hr1, Hs1, Hw1 in Hrs.
    destruct (settle id _ a0) as [a1 rs]. cbn [fst snd] in *.
    apply Hone; [done|]. rewrite Hc. unfold a0. cbn. exact Hc'.
  - (* the close event *)
    destruct (bool_decide (r0 = ref)) eqn:Href; [|discriminate Hf].
    apply bool_decide_eq_true in Href as ->. injection Hf as <-.
    apply (exit_shape w ref a id r (ChildClose ref)); try done. by left.
  - (* the error event *)
    destruct (bool_decide (r0 = ref)) eqn:Href; [|discriminate Hf].
    apply bool_decide_eq_true in Href as ->. injection Hf as <-.
    apply (exit_shape w ref a id r (ChildError ref e)); try done.
    right. by eexists.
Qed.

(** C2: in every reachable state, when the pending [initialize] or
    [session/new] request of an initialization fails (an error response, the
    expiry of its timer, an error of its write, the [close] or the [error]
    event of the child), the child is sent SIGTERM, once; the registry entry
    and the in-flight marker of the key are removed; the promise of
    [initAgent] is rejected with the error of the failure; and the next
    [ensureSession] for the key, whatever cwd it asks for, returns no handle:
    it spawns a new agent, registers it and sends it [initialize], leaving
    the failed agent as it was. *)
Theorem init_failure_tears_down
    (cfg : ResolvedStandardAcpConfig) (tr : list event) (key : string)
    (input : AcpRuntimeEnsureInput) (ref : nat) (a : AgentProcess) (id : Z)
    (r : request) (ev : event) (err : js_error) :
  let w := run (new_runtime cfg) tr in
  let w' := step w ev in
  heap w !! ref = Some a →
  requests a !! id = Some r → req_state r = None →
  req_waiter r = AwaitInitialize key input ∨
  req_waiter r = AwaitSessionNew key input →
  failure ev ref id (req_method r) = Some err →
  (signals ∘ child <$> heap w' !! ref)
    = Some (signals (child a) ++ ["SIGTERM"]) ∧
  agents w' !! key = None ∧
  initializing w' !! key = None ∧
  inits w' !! ref = Some (InitFailed err) ∧
  ∀ input', sessionKey input' = key →
    ∃ w'',
      ensureSession input' w' = (w'', ReturnsPromise (length (heap w'))) ∧
      length (heap w') ≠ ref ∧
      agents w'' !! key = Some (length (heap w')) ∧
      initializing w'' !! key = Some (length (heap w')) ∧
      heap w'' !! length (heap w') =
        Some (sendRequest "initialize" initialize_params
                (AwaitInitialize key input') (new_agent cfg key)) ∧
      heap w'' !! ref = heap w' !! ref.
Proof.
  intros w w' Ha Hr Hs Hwaiter Hf.
  assert (init_key (req_waiter r) = Some key) as Hk
    by (by destruct Hwaiter as [-> | ->]).
  destruct (failure_shape cfg tr ref a id r key ev err Ha Hr Hs Hk Hf)
    as (S & a1 & l1 & l2 & Hstep & HS & Hchild & Hplain).
  destruct (teardown_reactions ref l1 l2 (req_waiter r) err key S a1
              HS Hk Hplain) as (Hheap & Hag & Hin & Hinits).
  fold w in Hstep. rewrite <- Hstep in Hheap, Hag, Hin, Hinits.
  fold w' in Hheap, Hag, Hin, Hinits.
  assert (heap w' !! ref = Some (kill "SIGTERM" a1)) as Hdead.
  { by rewrite Hheap, list_lookup_alter_eq, HS. }
  assert (agents w' !! key = None) as Hag'
    by (by rewrite Hag, lookup_delete_eq).
  assert (initializing w' !! key = None) as Hin'
    by (by rewrite Hin, lookup_delete_eq).
  assert (config w' = cfg) as Hcfg.
  { unfold w', w. rewrite <- run_snoc. apply run_config. }
  split_and!; [|done|done| |].
  - rewrite Hdead. cbn. by rewrite Hchild.
  - by rewrite Hinits, lookup_insert_eq.
  - intros input' Hkey. unfold ensureSession, lookup_agent. rewrite Hkey.
    rewrite Hin', Hag'. cbn [mbind option_bind].
    rewrite fresh_init_eq, Hcfg. eexists. split; [reflexivity|].
    cbn [agents initializing heap].
    pose proof (lookup_lt_Some _ _ _ Hdead) as Hlt.
    split_and!; [lia|by rewrite lookup_insert_eq..| |].
    + rewrite lookup_app_r by done. by rewrite Nat.sub_diag.
    + by rewrite lookup_app_l.
Qed.

(** The scripted agent answers [initialize] with an error; and, on another
    run, it answers [initialize] and then stays silent until the timer of
    [session/new] expires. *)
Lemma init_failure_tears_down_witness :
  let w1 := run (new_runtime example_config) [CallEnsureSession example_input] in
  let w1' := step w1 (StdoutLine 0 (error_response 1 example_init_error)) in
  let w2 := run (new_runtime example_config)
              [CallEnsureSession example_input;
               StdoutLine 0 (response 1 (JObj [("protocolVersion", JNum 1)]))] in
  let w2' := step w2 (TimerExpired 0 2) in
  ((signals ∘ child <$> heap w1' !! 0) = Some ["SIGTERM"] ∧
   agents w1' !! "s1" = None ∧
   inits w1' !! 0 = Some (InitFailed (RpcError example_init_error)) ∧
   (ensureSession example_input w1').2 = ReturnsPromise 1) ∧
  ((signals ∘ child <$> heap w2' !! 0) = Some ["SIGTERM"] ∧
   agents w2' !! "s1" = None ∧
   inits w2' !! 0 = Some (InitFailed (TimeoutError "session/new")) ∧
   (ensureSession example_input w2').2 = ReturnsPromise 1).
Proof.
  cbv zeta. split.
  - set (w := run (new_runtime example_config)
                [CallEnsureSession example_input]).
    set (a := default (new_agent example_config "") (heap w !! 0)).
    set (r := default {| req_method := ""; req_timer := NoTimer;
                         req_state := None; req_waiter := HostCall |}
                (requests a !! 1%Z)).
    destruct (init_failure_tears_down example_config
                [CallEnsureSession example_input] "s1" example_input 0 a 1 r
                (StdoutLine 0 (error_response 1 example_init_error))
                (RpcError example_init_error))
      as (Hsig & Hag & _ & Hinits & Hnext);
      [vm_compute; reflexivity..|left; vm_compute; reflexivity
      |vm_compute; reflexivity|].
    split_and!; [exact Hsig|exact Hag|exact Hinits|].
    destruct (Hnext example_input eq_refl) as (w'' & Hret & _).
    exact (f_equal snd Hret).
  - set (w := run (new_runtime example_config)
                [CallEnsureSession example_input;
                 StdoutLine 0
                   (response 1 (JObj [("protocolVersion", JNum 1)]))]).
    set (a := default (new_agent example_config "") (heap w !! 0)).
    set (r := default {| req_method := ""; req_timer := NoTimer;
                         req_state := None; req_waiter := HostCall |}
                (requests a !! 2%Z)).
    destruct (init_failure_tears_down example_config
                [CallEnsureSession example_input;
                 StdoutLine 0
                   (response 1 (JObj [("protocolVersion", JNum 1)]))]
                "s1" example_input 0 a 2 r (TimerExpired 0 2)
                (TimeoutError "session/new"))
      as (Hsig & Hag & _ & Hinits & Hnext);
      [vm_compute; reflexivity..|right; vm_compute; reflexivity
      |vm_compute; reflexivity|].
    split_and!; [exact Hsig|exact Hag|exact Hinits|].
    destruct (Hnext example_input eq_refl) as (w'' & Hret & _).
    exact (f_equal snd Hret).
Defined.
